(** * Game engines of the Telegram gaming bot: Tetris, Snake and Ping Pong

    A shallow embedding of the three engines of
    [telegram_gaming_bot/games/] ([tetris.py], [snake.py], [ping_pong.py])
    and the properties of their move, tick and snapshot operations.

    Conventions of the embedding:
    - a Python [int] is a [Z], a [str] a [string], [None]-or-int an [option Z];
    - a method that mutates [self] and returns a result dictionary is a
      function from the state to the pair of the result and the new state;
    - a Python exception ([IndexError], [ZeroDivisionError], [KeyError]) is
      [None] in the [option] monad of stdpp ([x ← m; k]);
    - the module-level generator [random] is an oracle [nat -> Z] of raw
      draws read through a cursor, which every drawing operation advances. *)

From Stdlib Require Import ZArith String Ascii Bool Lia.
From stdpp Require Import base option list.

#[local] Set Warnings "-register-all".

Local Open Scope string_scope.
Local Open Scope list_scope.
Local Open Scope Z_scope.

(** ** Python runtime pieces shared by the three engines *)

Module Py.

(** The generator: [o k] is the [k]-th raw draw. *)
Definition Oracle := nat -> Z.

(** [random.randint(0, n - 1)] and the index drawn by [random.choice] on a
    sequence of length [n]. *)
Definition randbelow (o : Oracle) (k : nat) (n : Z) : Z * nat :=
  ((o k) mod n, S k).

(** [random.choice(seq)] for a non-empty literal sequence with first
    element [d]. *)
Definition choice {A : Type} (o : Oracle) (k : nat) (d : A) (seq : list A) : A * nat :=
  let '(i, k') := randbelow o k (Z.of_nat (length seq)) in
  (nth (Z.to_nat i) seq d, k').

(** A loop that may need more iterations than the fuel it was given. *)
Inductive Run (A : Type) : Type :=
| Done (a : A)
| Raised
| OutOfFuel.
Arguments Done {A} a.
Arguments Raised {A}.
Arguments OutOfFuel {A}.

End Py.

(** ** JSON values

    [json.dumps] and [json.loads] are inverse to each other on the values a
    snapshot holds; the blob is modelled by the JSON value it denotes. What
    the model keeps is the conversion Python makes on the way out: a tuple is
    written as an array, and an array is read back as a list. *)

Module Json.

Inductive value :=
| Null
| Bool (b : bool)
| Int (z : Z)
| Str (s : string)
| Arr (l : list value)
| Obj (kv : list (string * value)).

Fixpoint lookup (key : string) (kv : list (string * value)) : option value :=
  match kv with
  | [] => None
  | (k, v) :: rest => if String.eqb k key then Some v else lookup key rest
  end.

(** [state[key]]; a missing key raises [KeyError]. *)
Definition get (key : string) (v : value) : option value :=
  match v with
  | Obj kv => lookup key kv
  | _ => None
  end.

Definition as_int (v : value) : option Z :=
  match v with Int z => Some z | _ => None end.
Definition as_bool (v : value) : option bool :=
  match v with Bool b => Some b | _ => None end.
Definition as_str (v : value) : option string :=
  match v with Str s => Some s | _ => None end.
Definition as_arr (v : value) : option (list value) :=
  match v with Arr l => Some l | _ => None end.
Definition as_opt_int (v : value) : option (option Z) :=
  match v with Null => Some None | Int z => Some (Some z) | _ => None end.
Definition as_pair (v : value) : option (Z * Z) :=
  match v with Arr [Int a; Int b] => Some (a, b) | _ => None end.

Definition of_opt_int (w : option Z) : value :=
  match w with None => Null | Some z => Int z end.

(** Arrays of arrays of strings: a board, an orientation table. *)
Definition of_strs (l : list string) : value := Arr (map Str l).
Definition of_strss (l : list (list string)) : value := Arr (map of_strs l).
Definition as_strs (v : value) : option (list string) :=
  l ← as_arr v; mapM as_str l.
Definition as_strss (v : value) : option (list (list string)) :=
  l ← as_arr v; mapM as_strs l.

End Json.

(** ** The Tetris engine ([games/tetris.py]) *)

Module Tetris.

Definition Board := list (list string).

Record Piece := mkPiece {
  ptype : string;
  shapes : list (list string)
}.

(** The class attribute [PIECES], in the insertion order of the literal. *)
Definition PIECES : list (string * list (list string)) :=
  [ ("I", [ ["...."; "####"; "...."; "...."];
            ["..#."; "..#."; "..#."; "..#."];
            ["...."; "####"; "...."; "...."];
            ["..#."; "..#."; "..#."; "..#."] ]);
    ("O", [ ["...."; ".##."; ".##."; "...."] ]);
    ("T", [ ["...."; ".#.."; "###."; "...."];
            ["...."; ".#.."; ".##."; ".#.."];
            ["...."; "...."; "###."; ".#.."];
            ["...."; ".#.."; "##.."; ".#.."] ]);
    ("S", [ ["...."; ".##."; "##.."; "...."];
            ["...."; ".#.."; ".##."; "..#."] ]);
    ("Z", [ ["...."; "##.."; ".##."; "...."];
            ["...."; "..#."; ".##."; ".#.."] ]);
    ("J", [ ["...."; ".#.."; ".#.."; "##.."];
            ["...."; "...."; "#..."; "###."];
            ["...."; ".##."; ".#.."; ".#.."];
            ["...."; "...."; "###."; "..#."] ]);
    ("L", [ ["...."; ".#.."; ".#.."; ".##."];
            ["...."; "...."; "###."; "#..."];
            ["...."; "##.."; ".#.."; ".#.."];
            ["...."; "...."; "..#."; "###."] ]) ].

Definition board_width : Z := 10.
Definition board_height : Z := 20.

Inductive Msg :=
| GameIsOver
| InvalidPlayer
| InvalidDirection
| PieceMoved
| InvalidMove
| PiecePlaced (lines_cleared score_gained : Z)
| PieceDropped.

Record MoveResult := mkResult {
  success : bool;
  message : Msg
}.

Record TetrisGame := mkGame {
  session_id : string;
  player1_id : Z;
  player2_id : Z;
  player1_board : Board;
  player2_board : Board;
  player1_score : Z;
  player2_score : Z;
  player1_lines_cleared : Z;
  player2_lines_cleared : Z;
  player1_level : Z;
  player2_level : Z;
  player1_current_piece : Piece;
  player2_current_piece : Piece;
  player1_next_piece : Piece;
  player2_next_piece : Piece;
  player1_piece_pos : Z * Z;
  player2_piece_pos : Z * Z;
  player1_piece_rotation : Z;
  player2_piece_rotation : Z;
  game_over : bool;
  winner : option Z
}.

(** [get_random_piece]: a uniformly chosen key of [PIECES] with its table. *)
Definition get_random_piece (o : Py.Oracle) (k : nat) : Piece * nat :=
  let '(entry, k') := Py.choice o k ("I", []) PIECES in
  (mkPiece (fst entry) (snd entry), k').

Definition empty_row : list string := repeat "." (Z.to_nat board_width).
Definition empty_board : Board := repeat empty_row (Z.to_nat board_height).

(** [__init__] followed by [reset_game]. *)
Definition init (o : Py.Oracle) (k : nat) (sid : string) (p1 p2 : Z) : TetrisGame * nat :=
  let '(c1, k1) := get_random_piece o k in
  let '(c2, k2) := get_random_piece o k1 in
  let '(n1, k3) := get_random_piece o k2 in
  let '(n2, k4) := get_random_piece o k3 in
  (mkGame sid p1 p2 empty_board empty_board 0 0 0 0 1 1
          c1 c2 n1 n2 (0, 4) (0, 4) 0 0 false None, k4).

(** [get_piece_shape]: [shapes[rotation % len(shapes)]]; an empty table
    raises [ZeroDivisionError]. *)
Definition get_piece_shape (piece : Piece) (rotation : Z) : option (list string) :=
  match shapes piece with
  | [] => None
  | sh => sh !! Z.to_nat (rotation mod Z.of_nat (length sh))
  end.

Definition is_hash (c : ascii) : bool := Ascii.eqb c "#"%char.

(** The body of the inner loop of [is_valid_position] for one ['#'] cell:
    [Some false] is the early [return False], [None] an [IndexError]. *)
Definition cell_free (board : Board) (new_row new_col : Z) : option bool :=
  if (new_row <? 0) || (new_row >=? board_height)
     || (new_col <? 0) || (new_col >=? board_width)
  then Some false
  else
    r ← board !! Z.to_nat new_row;
    c ← r !! Z.to_nat new_col;
    Some (String.eqb c ".").

Fixpoint valid_line (board : Board) (new_row col j : Z) (line : list ascii) : option bool :=
  match line with
  | [] => Some true
  | cell :: rest =>
      if is_hash cell then
        ok ← cell_free board new_row (col + j);
        if (ok : bool) then valid_line board new_row col (j + 1) rest else Some false
      else valid_line board new_row col (j + 1) rest
  end.

Fixpoint valid_shape (board : Board) (row col i : Z) (shape : list string) : option bool :=
  match shape with
  | [] => Some true
  | line :: rest =>
      ok ← valid_line board (row + i) col 0 (list_ascii_of_string line);
      if (ok : bool) then valid_shape board row col (i + 1) rest else Some false
  end.

Definition is_valid_position (board : Board) (piece : Piece) (pos : Z * Z) (rotation : Z)
  : option bool :=
  shape ← get_piece_shape piece rotation;
  valid_shape board (fst pos) (snd pos) 0 shape.

(** [new_board[new_row][new_col] = v]; out of range raises [IndexError]. *)
Definition set_cell (board : Board) (r c : nat) (v : string) : option Board :=
  line ← board !! r;
  if (c <? length line)%nat then Some (<[r := <[c := v]> line]> board) else None.

Fixpoint place_line (board : Board) (new_row col j : Z) (v : string) (line : list ascii)
  : option Board :=
  match line with
  | [] => Some board
  | cell :: rest =>
      if is_hash cell then
        let new_col := col + j in
        if (0 <=? new_row) && (new_row <? board_height)
           && (0 <=? new_col) && (new_col <? board_width)
        then
          b ← set_cell board (Z.to_nat new_row) (Z.to_nat new_col) v;
          place_line b new_row col (j + 1) v rest
        else place_line board new_row col (j + 1) v rest
      else place_line board new_row col (j + 1) v rest
  end.

Fixpoint place_shape (board : Board) (row col i : Z) (v : string) (shape : list string)
  : option Board :=
  match shape with
  | [] => Some board
  | line :: rest =>
      b ← place_line board (row + i) col 0 v (list_ascii_of_string line);
      place_shape b row col (i + 1) v rest
  end.

Definition place_piece (board : Board) (piece : Piece) (pos : Z * Z) (rotation : Z)
  : option Board :=
  shape ← get_piece_shape piece rotation;
  place_shape board (fst pos) (snd pos) 0 (ptype piece) shape.

(** ['.' not in row] *)
Definition row_complete (row : list string) : bool :=
  negb (existsb (String.eqb ".") row).

(** The [for row in board] loop of [clear_lines]. *)
Fixpoint clear_rows (board new_board : Board) (lines_cleared : Z) : Board * Z :=
  match board with
  | [] => (new_board, lines_cleared)
  | row :: rest =>
      if row_complete row then clear_rows rest new_board (lines_cleared + 1)
      else clear_rows rest (new_board ++ [row]) lines_cleared
  end.

(** [clear_lines]: after the loop, [insert(0, empty row)] is repeated while
    [len(new_board) < board_height]. *)
Definition clear_lines (board : Board) : Board * Z :=
  let '(new_board, lines_cleared) := clear_rows board [] 0 in
  (repeat empty_row (Z.to_nat board_height - length new_board) ++ new_board,
   lines_cleared).

Definition base_scores (lines_cleared : Z) : Z :=
  if lines_cleared =? 1 then 40
  else if lines_cleared =? 2 then 100
  else if lines_cleared =? 3 then 300
  else if lines_cleared =? 4 then 1200
  else 0.

Definition calculate_score (lines_cleared level : Z) : Z :=
  if lines_cleared =? 0 then 0
  else base_scores lines_cleared * (level + 1).

Inductive Who := P1 | P2.

(** The [if player_id == self.player1_id ... elif player_id ==
    self.player2_id ... else] dispatch at the head of the methods. *)
Definition who (g : TetrisGame) (player_id : Z) : option Who :=
  if player_id =? player1_id g then Some P1
  else if player_id =? player2_id g then Some P2
  else None.

(** The player's [board], [piece], [pos], [rotation] (and score, level)
    picked by that dispatch. *)
Definition board_of (w : Who) (g : TetrisGame) : Board :=
  match w with P1 => player1_board g | P2 => player2_board g end.
Definition piece_of (w : Who) (g : TetrisGame) : Piece :=
  match w with P1 => player1_current_piece g | P2 => player2_current_piece g end.
Definition next_piece_of (w : Who) (g : TetrisGame) : Piece :=
  match w with P1 => player1_next_piece g | P2 => player2_next_piece g end.
Definition pos_of (w : Who) (g : TetrisGame) : Z * Z :=
  match w with P1 => player1_piece_pos g | P2 => player2_piece_pos g end.
Definition rotation_of (w : Who) (g : TetrisGame) : Z :=
  match w with P1 => player1_piece_rotation g | P2 => player2_piece_rotation g end.
Definition score_of (w : Who) (g : TetrisGame) : Z :=
  match w with P1 => player1_score g | P2 => player2_score g end.
Definition level_of (w : Who) (g : TetrisGame) : Z :=
  match w with P1 => player1_level g | P2 => player2_level g end.
Definition lines_cleared_of (w : Who) (g : TetrisGame) : Z :=
  match w with P1 => player1_lines_cleared g | P2 => player2_lines_cleared g end.
Definition opponent_id (w : Who) (g : TetrisGame) : Z :=
  match w with P1 => player2_id g | P2 => player1_id g end.

Definition set_piece_p1 (g : TetrisGame) (pos : Z * Z) (rotation : Z) : TetrisGame :=
  mkGame (session_id g) (player1_id g) (player2_id g)
         (player1_board g) (player2_board g) (player1_score g) (player2_score g)
         (player1_lines_cleared g) (player2_lines_cleared g)
         (player1_level g) (player2_level g)
         (player1_current_piece g) (player2_current_piece g)
         (player1_next_piece g) (player2_next_piece g)
         pos (player2_piece_pos g) rotation (player2_piece_rotation g)
         (game_over g) (winner g).

Definition set_piece_p2 (g : TetrisGame) (pos : Z * Z) (rotation : Z) : TetrisGame :=
  mkGame (session_id g) (player1_id g) (player2_id g)
         (player1_board g) (player2_board g) (player1_score g) (player2_score g)
         (player1_lines_cleared g) (player2_lines_cleared g)
         (player1_level g) (player2_level g)
         (player1_current_piece g) (player2_current_piece g)
         (player1_next_piece g) (player2_next_piece g)
         (player1_piece_pos g) pos (player1_piece_rotation g) rotation
         (game_over g) (winner g).

(** [place_current_piece]: lock the piece, clear lines, score, spawn the
    queued piece at [[0, 4]] with rotation 0 and test the spawn. *)
Definition place_current_piece (o : Py.Oracle) (k : nat) (g : TetrisGame) (player_id : Z)
  : option (MoveResult * TetrisGame * nat) :=
  match who g player_id with
  | None => Some (mkResult false InvalidPlayer, g, k)
  | Some P1 =>
      placed ← place_piece (player1_board g) (player1_current_piece g)
                           (player1_piece_pos g) (player1_piece_rotation g);
      let '(new_board, lines_cleared) := clear_lines placed in
      let level := player1_level g in
      let score_gained := calculate_score lines_cleared level in
      let total_lines := player1_lines_cleared g + lines_cleared in
      let current := player1_next_piece g in
      let '(next, k') := get_random_piece o k in
      valid ← is_valid_position new_board current (0, 4) 0;
      Some (mkResult true (PiecePlaced lines_cleared score_gained),
            mkGame (session_id g) (player1_id g) (player2_id g)
                   new_board (player2_board g)
                   (player1_score g + score_gained) (player2_score g)
                   total_lines (player2_lines_cleared g)
                   (total_lines / 10 + 1) (player2_level g)
                   current (player2_current_piece g)
                   next (player2_next_piece g)
                   (0, 4) (player2_piece_pos g) 0 (player2_piece_rotation g)
                   (if (valid : bool) then game_over g else true)
                   (if valid then winner g else Some (player2_id g)),
            k')
  | Some P2 =>
      placed ← place_piece (player2_board g) (player2_current_piece g)
                           (player2_piece_pos g) (player2_piece_rotation g);
      let '(new_board, lines_cleared) := clear_lines placed in
      let level := player2_level g in
      let score_gained := calculate_score lines_cleared level in
      let total_lines := player2_lines_cleared g + lines_cleared in
      let current := player2_next_piece g in
      let '(next, k') := get_random_piece o k in
      valid ← is_valid_position new_board current (0, 4) 0;
      Some (mkResult true (PiecePlaced lines_cleared score_gained),
            mkGame (session_id g) (player1_id g) (player2_id g)
                   (player1_board g) new_board
                   (player1_score g) (player2_score g + score_gained)
                   (player1_lines_cleared g) total_lines
                   (player1_level g) (total_lines / 10 + 1)
                   (player1_current_piece g) current
                   (player1_next_piece g) next
                   (player1_piece_pos g) (0, 4) (player1_piece_rotation g) 0
                   (if (valid : bool) then game_over g else true)
                   (if valid then winner g else Some (player1_id g)),
            k')
  end.

(** The candidate position and rotation of [move_piece]; [None] is the
    ["Invalid direction"] branch, the inner [None] the
    [ZeroDivisionError] of [% len(piece['shapes'])] on an empty table. *)
Definition candidate (piece : Piece) (pos : Z * Z) (rotation : Z) (direction : string)
  : option (option (Z * Z * Z)) :=
  if String.eqb direction "left" then Some (Some (fst pos, snd pos - 1, rotation))
  else if String.eqb direction "right" then Some (Some (fst pos, snd pos + 1, rotation))
  else if String.eqb direction "down" then Some (Some (fst pos + 1, snd pos, rotation))
  else if String.eqb direction "rotate" then
    match shapes piece with
    | [] => Some None
    | sh => Some (Some (fst pos, snd pos, (rotation + 1) mod Z.of_nat (length sh)))
    end
  else None.

(** [move_piece] *)
Definition move_piece (o : Py.Oracle) (k : nat) (g : TetrisGame) (player_id : Z)
           (direction : string) : option (MoveResult * TetrisGame * nat) :=
  if game_over g then Some (mkResult false GameIsOver, g, k)
  else
    match who g player_id with
    | None => Some (mkResult false InvalidPlayer, g, k)
    | Some w =>
        let board := board_of w g in
        let piece := piece_of w g in
        let pos := pos_of w g in
        let rotation := rotation_of w g in
        match candidate piece pos rotation direction with
        | None => Some (mkResult false InvalidDirection, g, k)
        | Some c =>
            '(new_pos, new_rotation) ← c;
            valid ← is_valid_position board piece new_pos new_rotation;
            if (valid : bool) then
              Some (mkResult true PieceMoved,
                    match w with
                    | P1 => set_piece_p1 g new_pos new_rotation
                    | P2 => set_piece_p2 g new_pos new_rotation
                    end, k)
            else if String.eqb direction "down" then place_current_piece o k g player_id
            else Some (mkResult false InvalidMove, g, k)
        end
    end.

(** [drop_piece]: the [while True] loop runs on fuel; it leaves only on a
    result whose [success] is false. *)
Fixpoint drop_piece (fuel : nat) (o : Py.Oracle) (k : nat) (g : TetrisGame) (player_id : Z)
  : Py.Run (MoveResult * TetrisGame * nat) :=
  match fuel with
  | O => Py.OutOfFuel
  | S fuel' =>
      match move_piece o k g player_id "down" with
      | None => Py.Raised
      | Some (result, g', k') =>
          if success result then drop_piece fuel' o k' g' player_id
          else Py.Done (mkResult true PieceDropped, g', k')
      end
  end.

(** [to_json] *)
Definition piece_json (p : Piece) : Json.value :=
  Json.Obj [("type", Json.Str (ptype p)); ("shapes", Json.of_strss (shapes p))].

Definition pos_json (pos : Z * Z) : Json.value :=
  Json.Arr [Json.Int (fst pos); Json.Int (snd pos)].

Definition to_json (g : TetrisGame) : Json.value :=
  Json.Obj
    [ ("session_id", Json.Str (session_id g));
      ("player1_id", Json.Int (player1_id g));
      ("player2_id", Json.Int (player2_id g));
      ("player1_board", Json.of_strss (player1_board g));
      ("player2_board", Json.of_strss (player2_board g));
      ("player1_score", Json.Int (player1_score g));
      ("player2_score", Json.Int (player2_score g));
      ("player1_lines_cleared", Json.Int (player1_lines_cleared g));
      ("player2_lines_cleared", Json.Int (player2_lines_cleared g));
      ("player1_level", Json.Int (player1_level g));
      ("player2_level", Json.Int (player2_level g));
      ("player1_current_piece", piece_json (player1_current_piece g));
      ("player2_current_piece", piece_json (player2_current_piece g));
      ("player1_next_piece", piece_json (player1_next_piece g));
      ("player2_next_piece", piece_json (player2_next_piece g));
      ("player1_piece_pos", pos_json (player1_piece_pos g));
      ("player2_piece_pos", pos_json (player2_piece_pos g));
      ("player1_piece_rotation", Json.Int (player1_piece_rotation g));
      ("player2_piece_rotation", Json.Int (player2_piece_rotation g));
      ("game_over", Json.Bool (game_over g));
      ("winner", Json.of_opt_int (winner g)) ].

Definition as_piece (v : Json.value) : option Piece :=
  t ← Json.get "type" v ≫= Json.as_str;
  sh ← Json.get "shapes" v ≫= Json.as_strss;
  Some (mkPiece t sh).

(** [from_json]: the constructor runs first (and draws four pieces), then
    every field is overwritten from the snapshot. *)
Definition from_json (o : Py.Oracle) (k : nat) (state : Json.value)
  : option (TetrisGame * nat) :=
  sid ← Json.get "session_id" state ≫= Json.as_str;
  p1 ← Json.get "player1_id" state ≫= Json.as_int;
  p2 ← Json.get "player2_id" state ≫= Json.as_int;
  let '(game, k') := init o k sid p1 p2 in
  b1 ← Json.get "player1_board" state ≫= Json.as_strss;
  b2 ← Json.get "player2_board" state ≫= Json.as_strss;
  s1 ← Json.get "player1_score" state ≫= Json.as_int;
  s2 ← Json.get "player2_score" state ≫= Json.as_int;
  l1 ← Json.get "player1_lines_cleared" state ≫= Json.as_int;
  l2 ← Json.get "player2_lines_cleared" state ≫= Json.as_int;
  v1 ← Json.get "player1_level" state ≫= Json.as_int;
  v2 ← Json.get "player2_level" state ≫= Json.as_int;
  c1 ← Json.get "player1_current_piece" state ≫= as_piece;
  c2 ← Json.get "player2_current_piece" state ≫= as_piece;
  n1 ← Json.get "player1_next_piece" state ≫= as_piece;
  n2 ← Json.get "player2_next_piece" state ≫= as_piece;
  q1 ← Json.get "player1_piece_pos" state ≫= Json.as_pair;
  q2 ← Json.get "player2_piece_pos" state ≫= Json.as_pair;
  r1 ← Json.get "player1_piece_rotation" state ≫= Json.as_int;
  r2 ← Json.get "player2_piece_rotation" state ≫= Json.as_int;
  over ← Json.get "game_over" state ≫= Json.as_bool;
  w ← Json.get "winner" state ≫= Json.as_opt_int;
  Some (mkGame (session_id game) (player1_id game) (player2_id game)
               b1 b2 s1 s2 l1 l2 v1 v2 c1 c2 n1 n2 q1 q2 r1 r2 over w, k').

End Tetris.

(** ** The Snake engine ([games/snake.py]) *)

Module Snake.

(** A board cell as Python holds it: the engine builds cells as tuples
    [(x, y)]; a snapshot read back by [json.loads] holds them as
    two-element lists [[x, y]]. *)
Inductive Cell :=
| Tup (x y : Z)
| Lst (x y : Z).

Definition coords (c : Cell) : Z * Z :=
  match c with
  | Tup x y => (x, y)
  | Lst x y => (x, y)
  end.

(** Python's [==] on cells: a tuple never equals a list. *)
Definition py_eq (a b : Cell) : bool :=
  match a, b with
  | Tup x y, Tup x' y' => (x =? x') && (y =? y')
  | Lst x y, Lst x' y' => (x =? x') && (y =? y')
  | _, _ => false
  end.

(** [c in l] *)
Definition py_in (c : Cell) (l : list Cell) : bool := existsb (py_eq c) l.

(** [l.remove(c)], used under the guard [c in l]. *)
Fixpoint py_remove (c : Cell) (l : list Cell) : list Cell :=
  match l with
  | [] => []
  | e :: rest => if py_eq e c then rest else e :: py_remove c rest
  end.

Definition board_width : Z := 15.
Definition board_height : Z := 15.

Inductive Msg :=
| GameIsOver
| Player1Eliminated
| Player2Eliminated
| InvalidPlayer
| CannotReverse
| DirectionChanged (direction : string)
| InvalidDirection
| HitWall
| HitSelf
| HitOpponent
| Moved
| MovedAndAte
| Turn (p1 p2 : option Msg) (turn : Z)
| Continued
| ChangedDirection (direction : string)
| NoSafeDirection.

Record MoveResult := mkResult {
  success : bool;
  message : Msg
}.

Record SnakeGame := mkGame {
  session_id : string;
  player1_id : Z;
  player2_id : Z;
  player1_snake : list Cell;
  player2_snake : list Cell;
  player1_direction : string;
  player2_direction : string;
  player1_score : Z;
  player2_score : Z;
  player1_alive : bool;
  player2_alive : bool;
  food_positions : list Cell;
  turn_count : Z;
  game_over : bool;
  winner : option Z
}.

(** Field assignments. *)
Definition with_snake1 (g : SnakeGame) (s : list Cell) : SnakeGame :=
  mkGame (session_id g) (player1_id g) (player2_id g) s (player2_snake g)
         (player1_direction g) (player2_direction g) (player1_score g) (player2_score g)
         (player1_alive g) (player2_alive g) (food_positions g) (turn_count g)
         (game_over g) (winner g).
Definition with_snake2 (g : SnakeGame) (s : list Cell) : SnakeGame :=
  mkGame (session_id g) (player1_id g) (player2_id g) (player1_snake g) s
         (player1_direction g) (player2_direction g) (player1_score g) (player2_score g)
         (player1_alive g) (player2_alive g) (food_positions g) (turn_count g)
         (game_over g) (winner g).
Definition with_direction1 (g : SnakeGame) (d : string) : SnakeGame :=
  mkGame (session_id g) (player1_id g) (player2_id g) (player1_snake g) (player2_snake g)
         d (player2_direction g) (player1_score g) (player2_score g)
         (player1_alive g) (player2_alive g) (food_positions g) (turn_count g)
         (game_over g) (winner g).
Definition with_direction2 (g : SnakeGame) (d : string) : SnakeGame :=
  mkGame (session_id g) (player1_id g) (player2_id g) (player1_snake g) (player2_snake g)
         (player1_direction g) d (player1_score g) (player2_score g)
         (player1_alive g) (player2_alive g) (food_positions g) (turn_count g)
         (game_over g) (winner g).
Definition with_score1 (g : SnakeGame) (s : Z) : SnakeGame :=
  mkGame (session_id g) (player1_id g) (player2_id g) (player1_snake g) (player2_snake g)
         (player1_direction g) (player2_direction g) s (player2_score g)
         (player1_alive g) (player2_alive g) (food_positions g) (turn_count g)
         (game_over g) (winner g).
Definition with_score2 (g : SnakeGame) (s : Z) : SnakeGame :=
  mkGame (session_id g) (player1_id g) (player2_id g) (player1_snake g) (player2_snake g)
         (player1_direction g) (player2_direction g) (player1_score g) s
         (player1_alive g) (player2_alive g) (food_positions g) (turn_count g)
         (game_over g) (winner g).
Definition with_alive1 (g : SnakeGame) (a : bool) : SnakeGame :=
  mkGame (session_id g) (player1_id g) (player2_id g) (player1_snake g) (player2_snake g)
         (player1_direction g) (player2_direction g) (player1_score g) (player2_score g)
         a (player2_alive g) (food_positions g) (turn_count g)
         (game_over g) (winner g).
Definition with_alive2 (g : SnakeGame) (a : bool) : SnakeGame :=
  mkGame (session_id g) (player1_id g) (player2_id g) (player1_snake g) (player2_snake g)
         (player1_direction g) (player2_direction g) (player1_score g) (player2_score g)
         (player1_alive g) a (food_positions g) (turn_count g)
         (game_over g) (winner g).
Definition with_food (g : SnakeGame) (f : list Cell) : SnakeGame :=
  mkGame (session_id g) (player1_id g) (player2_id g) (player1_snake g) (player2_snake g)
         (player1_direction g) (player2_direction g) (player1_score g) (player2_score g)
         (player1_alive g) (player2_alive g) f (turn_count g)
         (game_over g) (winner g).
Definition with_turn_count (g : SnakeGame) (t : Z) : SnakeGame :=
  mkGame (session_id g) (player1_id g) (player2_id g) (player1_snake g) (player2_snake g)
         (player1_direction g) (player2_direction g) (player1_score g) (player2_score g)
         (player1_alive g) (player2_alive g) (food_positions g) t
         (game_over g) (winner g).
Definition with_outcome (g : SnakeGame) (w : option Z) : SnakeGame :=
  mkGame (session_id g) (player1_id g) (player2_id g) (player1_snake g) (player2_snake g)
         (player1_direction g) (player2_direction g) (player1_score g) (player2_score g)
         (player1_alive g) (player2_alive g) (food_positions g) (turn_count g)
         true w.

(** [spawn_food]: at most [max_attempts = 50] draws of a cell. *)
Fixpoint spawn_food_loop (attempts : nat) (o : Py.Oracle) (k : nat) (g : SnakeGame)
  : bool * SnakeGame * nat :=
  match attempts with
  | O => (false, g, k)
  | S attempts' =>
      let '(x, k1) := Py.randbelow o k board_width in
      let '(y, k2) := Py.randbelow o k1 board_height in
      if negb (py_in (Tup x y) (player1_snake g))
         && negb (py_in (Tup x y) (player2_snake g))
         && negb (py_in (Tup x y) (food_positions g))
      then (true, with_food g (food_positions g ++ [Tup x y]), k2)
      else spawn_food_loop attempts' o k2 g
  end.

Definition spawn_food (o : Py.Oracle) (k : nat) (g : SnakeGame) : bool * SnakeGame * nat :=
  spawn_food_loop 50 o k g.

(** [__init__] followed by [reset_game]. *)
Definition init (o : Py.Oracle) (k : nat) (sid : string) (p1 p2 : Z) : SnakeGame * nat :=
  let g := mkGame sid p1 p2
                  [Tup 7 2; Tup 7 1; Tup 7 0] [Tup 7 12; Tup 7 13; Tup 7 14]
                  "right" "left" 0 0 true true [] 0 false None in
  let '(_, g1, k1) := spawn_food o k g in
  let '(_, g2, k2) := spawn_food o k1 g1 in
  (g2, k2).

Definition is_valid_position (x y : Z) : bool :=
  (0 <=? x) && (x <? board_height) && (0 <=? y) && (y <? board_width).

Inductive Who := P1 | P2.

Definition who (g : SnakeGame) (player_id : Z) : option Who :=
  if player_id =? player1_id g then Some P1
  else if player_id =? player2_id g then Some P2
  else None.

(** [opposite_directions.get(d)] *)
Definition opposite_directions (d : string) : option string :=
  if String.eqb d "up" then Some "down"
  else if String.eqb d "down" then Some "up"
  else if String.eqb d "left" then Some "right"
  else if String.eqb d "right" then Some "left"
  else None.

(** [direction == opposite_directions.get(current_direction)] *)
Definition is_reverse (direction current_direction : string) : bool :=
  match opposite_directions current_direction with
  | Some d => String.eqb direction d
  | None => false
  end.

(** [move_snake] *)
Definition move_snake (g : SnakeGame) (player_id : Z) (direction : string)
  : MoveResult * SnakeGame :=
  if game_over g then (mkResult false GameIsOver, g)
  else
    match who g player_id with
    | None => (mkResult false InvalidPlayer, g)
    | Some P1 =>
        if negb (player1_alive g) then (mkResult false Player1Eliminated, g)
        else if is_reverse direction (player1_direction g)
             then (mkResult false CannotReverse, g)
             else (mkResult true (DirectionChanged direction), with_direction1 g direction)
    | Some P2 =>
        if negb (player2_alive g) then (mkResult false Player2Eliminated, g)
        else if is_reverse direction (player2_direction g)
             then (mkResult false CannotReverse, g)
             else (mkResult true (DirectionChanged direction), with_direction2 g direction)
    end.

(** The prospective head of [move_player_snake]; [None] is the
    ["Invalid direction"] branch. *)
Definition new_head_of (direction : string) (head : Cell) : option Cell :=
  let '(head_x, head_y) := coords head in
  if String.eqb direction "up" then Some (Tup (head_x - 1) head_y)
  else if String.eqb direction "down" then Some (Tup (head_x + 1) head_y)
  else if String.eqb direction "left" then Some (Tup head_x (head_y - 1))
  else if String.eqb direction "right" then Some (Tup head_x (head_y + 1))
  else None.

Definition snake_of (w : Who) (g : SnakeGame) : list Cell :=
  match w with P1 => player1_snake g | P2 => player2_snake g end.
Definition other_snake_of (w : Who) (g : SnakeGame) : list Cell :=
  match w with P1 => player2_snake g | P2 => player1_snake g end.
Definition direction_of (w : Who) (g : SnakeGame) : string :=
  match w with P1 => player1_direction g | P2 => player2_direction g end.
Definition set_snake (w : Who) (g : SnakeGame) (s : list Cell) : SnakeGame :=
  match w with P1 => with_snake1 g s | P2 => with_snake2 g s end.
Definition eliminate (w : Who) (g : SnakeGame) : SnakeGame :=
  match w with P1 => with_alive1 g false | P2 => with_alive2 g false end.
Definition add_score (w : Who) (g : SnakeGame) (n : Z) : SnakeGame :=
  match w with
  | P1 => with_score1 g (player1_score g + n)
  | P2 => with_score2 g (player2_score g + n)
  end.

(** [move_player_snake]; [snake[0]] on an empty body raises [IndexError]. *)
Definition move_player_snake (o : Py.Oracle) (k : nat) (g : SnakeGame) (player_id : Z)
  : option (MoveResult * SnakeGame * nat) :=
  match who g player_id with
  | None => Some (mkResult false InvalidPlayer, g, k)
  | Some w =>
      let snake := snake_of w g in
      head ← snake !! 0%nat;
      match new_head_of (direction_of w g) head with
      | None => Some (mkResult false InvalidDirection, g, k)
      | Some new_head =>
          if negb (is_valid_position (fst (coords new_head)) (snd (coords new_head)))
          then Some (mkResult false HitWall, eliminate w g, k)
          else if py_in new_head snake
          then Some (mkResult false HitSelf, eliminate w g, k)
          else if py_in new_head (other_snake_of w g)
          then Some (mkResult false HitOpponent, eliminate w g, k)
          else
            let g1 := set_snake w g (new_head :: snake) in
            if py_in new_head (food_positions g1) then
              let g2 := with_food g1 (py_remove new_head (food_positions g1)) in
              let g3 := add_score w g2 10 in
              let '(_, g4, k') := spawn_food o k g3 in
              Some (mkResult true MovedAndAte, g4, k')
            else
              Some (mkResult true Moved, set_snake w g1 (removelast (snake_of w g1)), k)
      end
  end.

(** The safety test of [auto_move]: inside the board and on neither body. *)
Definition is_safe (w : Who) (g : SnakeGame) (c : Cell) : bool :=
  is_valid_position (fst (coords c)) (snd (coords c))
  && negb (py_in c (snake_of w g))
  && negb (py_in c (other_snake_of w g)).

Definition set_direction (w : Who) (g : SnakeGame) (d : string) : SnakeGame :=
  match w with P1 => with_direction1 g d | P2 => with_direction2 g d end.

(** The [for new_direction in directions] loop of [auto_move]. *)
Fixpoint try_directions (w : Who) (g : SnakeGame) (head : Cell) (directions : list string)
  : MoveResult * SnakeGame :=
  match directions with
  | [] => (mkResult false NoSafeDirection, g)
  | new_direction :: rest =>
      if is_reverse new_direction (direction_of w g) then try_directions w g head rest
      else
        match new_head_of new_direction head with
        | Some test_head =>
            if is_safe w g test_head
            then (mkResult true (ChangedDirection new_direction),
                  set_direction w g new_direction)
            else try_directions w g head rest
        | None => try_directions w g head rest
        end
  end.

(** [auto_move]; it has no guard on [game_over] or on the player being
    alive. A stored direction outside the four headings leaves [new_head]
    unbound, which raises. *)
Definition auto_move (g : SnakeGame) (player_id : Z) : option (MoveResult * SnakeGame) :=
  match who g player_id with
  | None => Some (mkResult false InvalidPlayer, g)
  | Some w =>
      head ← snake_of w g !! 0%nat;
      new_head ← new_head_of (direction_of w g) head;
      if is_safe w g new_head then Some (mkResult true Continued, g)
      else Some (try_directions w g head ["up"; "down"; "left"; "right"])
  end.

(** The score comparison shared by the two tie-breaks of [check_game_over]. *)
Definition by_score (g : SnakeGame) : option Z :=
  if player1_score g >? player2_score g then Some (player1_id g)
  else if player2_score g >? player1_score g then Some (player2_id g)
  else None.

(** [check_game_over] *)
Definition check_game_over (g : SnakeGame) : SnakeGame :=
  let g1 :=
    if negb (player1_alive g) && negb (player2_alive g) then with_outcome g (by_score g)
    else if negb (player1_alive g) then with_outcome g (Some (player2_id g))
    else if negb (player2_alive g) then with_outcome g (Some (player1_id g))
    else g in
  if turn_count g1 >=? 200 then with_outcome g1 (by_score g1) else g1.

(** [update_game_state] *)
Definition update_game_state (o : Py.Oracle) (k : nat) (g : SnakeGame)
  : option (MoveResult * SnakeGame * nat) :=
  if game_over g then Some (mkResult false GameIsOver, g, k)
  else
    '(m1, g1, k1) ←
      (if player1_alive g then
         '(result1, g', k') ← move_player_snake o k g (player1_id g);
         Some (Some (message result1), g', k')
       else Some (None, g, k));
    '(m2, g2, k2) ←
      (if player2_alive g1 then
         '(result2, g', k') ← move_player_snake o k1 g1 (player2_id g1);
         Some (Some (message result2), g', k')
       else Some (None, g1, k1));
    let g3 := check_game_over g2 in
    let g4 := with_turn_count g3 (turn_count g3 + 1) in
    Some (mkResult true (Turn m1 m2 (turn_count g4)), g4, k2).

(** [to_json]: [json.dumps] writes a tuple and a list alike as an array. *)
Definition cell_json (c : Cell) : Json.value :=
  Json.Arr [Json.Int (fst (coords c)); Json.Int (snd (coords c))].

Definition to_json (g : SnakeGame) : Json.value :=
  Json.Obj
    [ ("session_id", Json.Str (session_id g));
      ("player1_id", Json.Int (player1_id g));
      ("player2_id", Json.Int (player2_id g));
      ("player1_snake", Json.Arr (map cell_json (player1_snake g)));
      ("player2_snake", Json.Arr (map cell_json (player2_snake g)));
      ("player1_direction", Json.Str (player1_direction g));
      ("player2_direction", Json.Str (player2_direction g));
      ("player1_score", Json.Int (player1_score g));
      ("player2_score", Json.Int (player2_score g));
      ("player1_alive", Json.Bool (player1_alive g));
      ("player2_alive", Json.Bool (player2_alive g));
      ("food_positions", Json.Arr (map cell_json (food_positions g)));
      ("turn_count", Json.Int (turn_count g));
      ("game_over", Json.Bool (game_over g));
      ("winner", Json.of_opt_int (winner g)) ].

(** [json.loads] reads an array back as a list. *)
Definition as_cell (v : Json.value) : option Cell :=
  '(x, y) ← Json.as_pair v; Some (Lst x y).
Definition as_cells (v : Json.value) : option (list Cell) :=
  l ← Json.as_arr v; mapM as_cell l.

(** [from_json]: the constructor runs first (and spawns two food items),
    then the fields are overwritten from the snapshot. *)
Definition from_json (o : Py.Oracle) (k : nat) (state : Json.value)
  : option (SnakeGame * nat) :=
  sid ← Json.get "session_id" state ≫= Json.as_str;
  p1 ← Json.get "player1_id" state ≫= Json.as_int;
  p2 ← Json.get "player2_id" state ≫= Json.as_int;
  let '(game, k') := init o k sid p1 p2 in
  s1 ← Json.get "player1_snake" state ≫= as_cells;
  s2 ← Json.get "player2_snake" state ≫= as_cells;
  d1 ← Json.get "player1_direction" state ≫= Json.as_str;
  d2 ← Json.get "player2_direction" state ≫= Json.as_str;
  c1 ← Json.get "player1_score" state ≫= Json.as_int;
  c2 ← Json.get "player2_score" state ≫= Json.as_int;
  a1 ← Json.get "player1_alive" state ≫= Json.as_bool;
  a2 ← Json.get "player2_alive" state ≫= Json.as_bool;
  food ← Json.get "food_positions" state ≫= as_cells;
  turns ← Json.get "turn_count" state ≫= Json.as_int;
  over ← Json.get "game_over" state ≫= Json.as_bool;
  w ← Json.get "winner" state ≫= Json.as_opt_int;
  Some (mkGame (session_id game) (player1_id game) (player2_id game)
               s1 s2 d1 d2 c1 c2 a1 a2 food turns over w, k').

End Snake.

(** ** The Ping Pong engine ([games/ping_pong.py]) *)

Module Pong.

Definition field_width : Z := 20.
Definition field_height : Z := 10.
(** [paddle_height] is assigned once, in [reset_game], and never stored in
    a snapshot. *)
Definition paddle_height : Z := 3.

Inductive Msg :=
| GameIsOver
| InvalidPlayer
| InvalidDirection
| PaddleMoved (direction : string)
| PaddleHit (rally : Z)
| Player2Scores (s1 s2 : Z)
| Player1Scores (s1 s2 : Z)
| BallMoved
| PaddleOptimal.

Record MoveResult := mkResult {
  success : bool;
  message : Msg
}.

Record PingPongGame := mkGame {
  session_id : string;
  player1_id : Z;
  player2_id : Z;
  player1_paddle_y : Z;
  player2_paddle_y : Z;
  ball_x : Z;
  ball_y : Z;
  ball_vel_x : Z;
  ball_vel_y : Z;
  player1_score : Z;
  player2_score : Z;
  game_over : bool;
  winner : option Z;
  rally_count : Z;
  max_score : Z;
  turn_count : Z
}.

(** [__init__] followed by [reset_game]. *)
Definition init (o : Py.Oracle) (k : nat) (sid : string) (p1 p2 : Z) : PingPongGame * nat :=
  let '(vx, k1) := Py.choice o k (-1) [-1; 1] in
  let '(vy, k2) := Py.choice o k1 (-1) [-1; 0; 1] in
  (mkGame sid p1 p2 (field_height / 2 - 1) (field_height / 2 - 1)
          (field_width / 2) (field_height / 2) vx vy 0 0 false None 0 11 0, k2).

Inductive Who := P1 | P2.

Definition who (g : PingPongGame) (player_id : Z) : option Who :=
  if player_id =? player1_id g then Some P1
  else if player_id =? player2_id g then Some P2
  else None.

Definition with_paddle (w : Who) (g : PingPongGame) (y : Z) : PingPongGame :=
  mkGame (session_id g) (player1_id g) (player2_id g)
         (match w with P1 => y | P2 => player1_paddle_y g end)
         (match w with P1 => player2_paddle_y g | P2 => y end)
         (ball_x g) (ball_y g) (ball_vel_x g) (ball_vel_y g)
         (player1_score g) (player2_score g) (game_over g) (winner g)
         (rally_count g) (max_score g) (turn_count g).

(** [move_paddle] *)
Definition move_paddle (g : PingPongGame) (player_id : Z) (direction : string)
  : MoveResult * PingPongGame :=
  if game_over g then (mkResult false GameIsOver, g)
  else
    match who g player_id with
    | None => (mkResult false InvalidPlayer, g)
    | Some w =>
        let current_y := match w with
                         | P1 => player1_paddle_y g
                         | P2 => player2_paddle_y g
                         end in
        if String.eqb direction "up" then
          (mkResult true (PaddleMoved direction),
           with_paddle w g (Z.max 0 (current_y - 1)))
        else if String.eqb direction "down" then
          (mkResult true (PaddleMoved direction),
           with_paddle w g (Z.min (field_height - paddle_height) (current_y + 1)))
        else (mkResult false InvalidDirection, g)
    end.

(** The result dictionary of [check_paddle_collision]. *)
Record Collision := mkCollision {
  new_x : Z;
  new_y : Z;
  new_vel_x : Z;
  new_vel_y : Z
}.

(** [check_paddle_collision]; [None] is [{"collision": False}]. *)
Definition check_paddle_collision (g : PingPongGame) (bx byy : Z) : option Collision :=
  if (bx <=? 1) && (ball_vel_x g <? 0)
     && (player1_paddle_y g <=? byy) && (byy <? player1_paddle_y g + paddle_height)
  then
    let paddle_center := player1_paddle_y g + paddle_height / 2 in
    let hit_position := byy - paddle_center in
    Some (mkCollision 2 byy 1 hit_position)
  else if (bx >=? field_width - 2) && (ball_vel_x g >? 0)
          && (player2_paddle_y g <=? byy) && (byy <? player2_paddle_y g + paddle_height)
  then
    let paddle_center := player2_paddle_y g + paddle_height / 2 in
    let hit_position := byy - paddle_center in
    Some (mkCollision (field_width - 3) byy (-1) hit_position)
  else None.

Definition with_ball (g : PingPongGame) (x y vx vy rally : Z) : PingPongGame :=
  mkGame (session_id g) (player1_id g) (player2_id g)
         (player1_paddle_y g) (player2_paddle_y g)
         x y vx vy
         (player1_score g) (player2_score g) (game_over g) (winner g)
         rally (max_score g) (turn_count g).

Definition with_vel_y (g : PingPongGame) (vy : Z) : PingPongGame :=
  with_ball g (ball_x g) (ball_y g) (ball_vel_x g) vy (rally_count g).

Definition with_scores (g : PingPongGame) (s1 s2 : Z) : PingPongGame :=
  mkGame (session_id g) (player1_id g) (player2_id g)
         (player1_paddle_y g) (player2_paddle_y g)
         (ball_x g) (ball_y g) (ball_vel_x g) (ball_vel_y g)
         s1 s2 (game_over g) (winner g)
         (rally_count g) (max_score g) (turn_count g).

Definition with_outcome (g : PingPongGame) (w : option Z) : PingPongGame :=
  mkGame (session_id g) (player1_id g) (player2_id g)
         (player1_paddle_y g) (player2_paddle_y g)
         (ball_x g) (ball_y g) (ball_vel_x g) (ball_vel_y g)
         (player1_score g) (player2_score g) true w
         (rally_count g) (max_score g) (turn_count g).

Definition with_turn_count (g : PingPongGame) (t : Z) : PingPongGame :=
  mkGame (session_id g) (player1_id g) (player2_id g)
         (player1_paddle_y g) (player2_paddle_y g)
         (ball_x g) (ball_y g) (ball_vel_x g) (ball_vel_y g)
         (player1_score g) (player2_score g) (game_over g) (winner g)
         (rally_count g) (max_score g) t.

(** [reset_ball] *)
Definition reset_ball (o : Py.Oracle) (k : nat) (g : PingPongGame) : PingPongGame * nat :=
  let '(vx, k1) := Py.choice o k (-1) [-1; 1] in
  let '(vy, k2) := Py.choice o k1 (-1) [-1; 0; 1] in
  (with_ball g (field_width / 2) (field_height / 2) vx vy 0, k2).

(** [check_game_over] *)
Definition check_game_over (g : PingPongGame) : PingPongGame :=
  let g1 :=
    if player1_score g >=? max_score g then with_outcome g (Some (player1_id g))
    else if player2_score g >=? max_score g then with_outcome g (Some (player2_id g))
    else g in
  if turn_count g1 >=? 500 then
    with_outcome g1
      (if player1_score g1 >? player2_score g1 then Some (player1_id g1)
       else if player2_score g1 >? player1_score g1 then Some (player2_id g1)
       else None)
  else g1.

(** [update_ball] *)
Definition update_ball (o : Py.Oracle) (k : nat) (g : PingPongGame)
  : MoveResult * PingPongGame * nat :=
  if game_over g then (mkResult false GameIsOver, g, k)
  else
    let nx := ball_x g + ball_vel_x g in
    let ny := ball_y g + ball_vel_y g in
    let '(ny, g1) :=
      if ny <=? 0 then (0, with_vel_y g (Z.abs (ball_vel_y g)))
      else if ny >=? field_height - 1
           then (field_height - 1, with_vel_y g (- Z.abs (ball_vel_y g)))
           else (ny, g) in
    let '(msg, g2, k') :=
      match check_paddle_collision g1 nx ny with
      | Some c =>
          let rally := rally_count g1 + 1 in
          (PaddleHit rally,
           with_ball g1 (ball_x g1) (ball_y g1) (new_vel_x c) (new_vel_y c) rally, k)
      | None =>
          if nx <=? 0 then
            let g' := with_scores g1 (player1_score g1) (player2_score g1 + 1) in
            let '(g'', k') := reset_ball o k g' in
            (Player2Scores (player1_score g') (player2_score g'), check_game_over g'', k')
          else if nx >=? field_width - 1 then
            let g' := with_scores g1 (player1_score g1 + 1) (player2_score g1) in
            let '(g'', k') := reset_ball o k g' in
            (Player1Scores (player1_score g') (player2_score g'), check_game_over g'', k')
          else
            (BallMoved, with_ball g1 nx ny (ball_vel_x g1) (ball_vel_y g1) (rally_count g1), k)
      end in
    (mkResult true msg, with_turn_count g2 (turn_count g2 + 1), k').

(** [simulate_turn] *)
Definition simulate_turn (o : Py.Oracle) (k : nat) (g : PingPongGame)
  : MoveResult * PingPongGame * nat :=
  if game_over g then (mkResult false GameIsOver, g, k)
  else update_ball o k g.

(** [to_json] *)
Definition to_json (g : PingPongGame) : Json.value :=
  Json.Obj
    [ ("session_id", Json.Str (session_id g));
      ("player1_id", Json.Int (player1_id g));
      ("player2_id", Json.Int (player2_id g));
      ("player1_score", Json.Int (player1_score g));
      ("player2_score", Json.Int (player2_score g));
      ("player1_paddle_y", Json.Int (player1_paddle_y g));
      ("player2_paddle_y", Json.Int (player2_paddle_y g));
      ("ball_x", Json.Int (ball_x g));
      ("ball_y", Json.Int (ball_y g));
      ("ball_vel_x", Json.Int (ball_vel_x g));
      ("ball_vel_y", Json.Int (ball_vel_y g));
      ("rally_count", Json.Int (rally_count g));
      ("turn_count", Json.Int (turn_count g));
      ("max_score", Json.Int (max_score g));
      ("game_over", Json.Bool (game_over g));
      ("winner", Json.of_opt_int (winner g)) ].

(** [from_json]: the constructor runs first (and draws a ball direction),
    then the fields are overwritten from the snapshot. *)
Definition from_json (o : Py.Oracle) (k : nat) (state : Json.value)
  : option (PingPongGame * nat) :=
  sid ← Json.get "session_id" state ≫= Json.as_str;
  p1 ← Json.get "player1_id" state ≫= Json.as_int;
  p2 ← Json.get "player2_id" state ≫= Json.as_int;
  let '(game, k') := init o k sid p1 p2 in
  s1 ← Json.get "player1_score" state ≫= Json.as_int;
  s2 ← Json.get "player2_score" state ≫= Json.as_int;
  y1 ← Json.get "player1_paddle_y" state ≫= Json.as_int;
  y2 ← Json.get "player2_paddle_y" state ≫= Json.as_int;
  bx ← Json.get "ball_x" state ≫= Json.as_int;
  byy ← Json.get "ball_y" state ≫= Json.as_int;
  vx ← Json.get "ball_vel_x" state ≫= Json.as_int;
  vy ← Json.get "ball_vel_y" state ≫= Json.as_int;
  rally ← Json.get "rally_count" state ≫= Json.as_int;
  turns ← Json.get "turn_count" state ≫= Json.as_int;
  target ← Json.get "max_score" state ≫= Json.as_int;
  over ← Json.get "game_over" state ≫= Json.as_bool;
  w ← Json.get "winner" state ≫= Json.as_opt_int;
  Some (mkGame (session_id game) (player1_id game) (player2_id game)
               y1 y2 bx byy vx vy s1 s2 over w rally target turns, k').

(** [auto_move_paddle] *)
Definition auto_move_paddle (g : PingPongGame) (player_id : Z) : MoveResult * PingPongGame :=
  if game_over g then (mkResult false GameIsOver, g)
  else
    match who g player_id with
    | None => (mkResult false InvalidPlayer, g)
    | Some w =>
        let paddle_y := match w with
                        | P1 => player1_paddle_y g
                        | P2 => player2_paddle_y g
                        end in
        let paddle_center := paddle_y + paddle_height / 2 in
        if ball_y g <? paddle_center then move_paddle g player_id "up"
        else if ball_y g >? paddle_center then move_paddle g player_id "down"
        else (mkResult true PaddleOptimal, g)
    end.

(** [get_ball_prediction] *)
Definition get_ball_prediction (g : PingPongGame) : Z * Z :=
  let future_x := ball_x g + ball_vel_x g * 3 in
  let future_y := ball_y g + ball_vel_y g * 3 in
  (Z.max 1 (Z.min (field_width - 2) future_x),
   Z.max 1 (Z.min (field_height - 2) future_y)).

End Pong.

(** ** Text helpers ([utils.py]) *)

Module Utils.

(** The texts these helpers get come from users, so a [str] is taken here
    as the list of its code points; [lit] reads a literal of the source. *)
Definition str : Type := list N.

Definition lit (s : string) : str := map N_of_ascii (list_ascii_of_string s).

(** [text[:stop]]: a negative [stop] counts from the end of the text, and
    either way the bound is clipped to the text. *)
Definition slice_to (text : str) (stop : Z) : str :=
  if stop <? 0 then take (Z.to_nat (Z.of_nat (length text) + stop)) text
  else take (Z.to_nat stop) text.

(** [truncate_text] *)
Definition truncate_text (text : str) (max_length : Z) : str :=
  if Z.of_nat (length text) <=? max_length then text
  else slice_to text (max_length - 3) ++ lit "...".

Definition backslash : N := 92.

(** [text.replace(char, f'\\{char}')] for a one-character [char]: every
    occurrence gets a backslash in front. *)
Definition replace_char (char : N) (text : str) : str :=
  flat_map (fun c => if N.eqb c char then [backslash; c] else [c]) text.

Definition special_chars : list N := lit "_*[]()~`>#+-=|{}.!".

(** [escape_markdown]: one [replace] pass for each special character, in
    the order of the list. *)
Definition escape_markdown (text : str) : str :=
  fold_left (fun t char => replace_char char t) special_chars text.

(** [c in special_chars] *)
Definition is_special (c : N) : bool := existsb (N.eqb c) special_chars.

(** A text with a backslash put in front of every special character. *)
Definition escaped (text : str) : str :=
  flat_map (fun c => if is_special c then [backslash; c] else [c]) text.

End Utils.

(** ** Vocabulary of the properties and the concrete games they are run on *)

Module Scenario.

(** A generator whose every raw draw is [z]. *)
Definition always (z : Z) : Py.Oracle := fun _ => z.

(** *** Tetris *)

(** The rows [clear_lines] removes and the rows it keeps. *)
Definition complete_rows (b : Tetris.Board) : nat :=
  length (List.filter Tetris.row_complete b).
Definition incomplete_rows (b : Tetris.Board) : Tetris.Board :=
  List.filter (fun row => negb (Tetris.row_complete row)) b.

(** The score table [{1: 40, 2: 100, 3: 300, 4: 1200}], 0 for no line. *)
Definition score_table (lines : nat) : Z :=
  match lines with
  | 1%nat => 40
  | 2%nat => 100
  | 3%nat => 300
  | 4%nat => 1200
  | _ => 0
  end.

(** The number of occupied cells of a board. *)
Definition occupied (b : Tetris.Board) : nat :=
  length (List.filter (fun c => negb (String.eqb c ".")) (concat b)).

(** A fresh match in which every drawn piece is the square: index 1 of the
    seven keys. *)
Definition tetris_fresh : Tetris.TetrisGame :=
  fst (Tetris.init (always 1) 0 "match" 1 2).

(** A board whose bottom row lacks only the four cells under the spawn
    columns, and a match in which player 1's bar lies just above them. *)
Definition tetris_gap_row : list string :=
  ["O"; "O"; "O"; "O"; "."; "."; "."; "."; "O"; "O"].
Definition tetris_gap_board : Tetris.Board :=
  repeat Tetris.empty_row 19 ++ [tetris_gap_row].
Definition bar : Tetris.Piece :=
  Tetris.mkPiece "I" [ ["...."; "####"; "...."; "...."];
                       ["..#."; "..#."; "..#."; "..#."];
                       ["...."; "####"; "...."; "...."];
                       ["..#."; "..#."; "..#."; "..#."] ].
Definition square : Tetris.Piece :=
  Tetris.mkPiece "O" [ ["...."; ".##."; ".##."; "...."] ].
Definition tetris_one_line : Tetris.TetrisGame :=
  Tetris.mkGame "match" 1 2 tetris_gap_board Tetris.empty_board 0 0 0 0 1 1
                bar square square square (18, 4) (0, 4) 0 0 false None.

(** A board filled up to row 3 under the spawn columns: the square at the
    spawn point can only lock where it stands, and the next one cannot
    spawn. *)
Definition tetris_stack_row : list string :=
  ["."; "."; "."; "."; "."; "O"; "O"; "."; "."; "."].
Definition tetris_stack_board : Tetris.Board :=
  repeat Tetris.empty_row 3 ++ repeat tetris_stack_row 17.
Definition tetris_stacked (mover : Tetris.Who) : Tetris.TetrisGame :=
  Tetris.mkGame "match" 1 2
                (match mover with Tetris.P1 => tetris_stack_board | _ => Tetris.empty_board end)
                (match mover with Tetris.P2 => tetris_stack_board | _ => Tetris.empty_board end)
                0 0 0 0 1 1 square square square square (0, 4) (0, 4) 0 0 false None.

(** [n] calls of [move_piece] with ["down"], with the messages they return. *)
Fixpoint tetris_downs (n : nat) (o : Py.Oracle) (k : nat) (g : Tetris.TetrisGame) (pid : Z)
  : option (list Tetris.Msg * Tetris.TetrisGame * nat) :=
  match n with
  | O => Some ([], g, k)
  | S n' =>
      '(r, g', k') ← Tetris.move_piece o k g pid "down";
      '(msgs, g'', k'') ← tetris_downs n' o k' g' pid;
      Some (Tetris.message r :: msgs, g'', k'')
  end.

(** Both boards have the height of the field. *)
Definition full_height (g : Tetris.TetrisGame) : Prop :=
  length (Tetris.player1_board g) = Z.to_nat Tetris.board_height
  /\ length (Tetris.player2_board g) = Z.to_nat Tetris.board_height.

(** The state in which [drop_piece] leaves the fresh match when player 1
    drops the first square. *)
Definition tetris_after_drop : Tetris.TetrisGame :=
  match Tetris.drop_piece 200 (always 1) 4 tetris_fresh 1 with
  | Py.Done (_, g, _) => g
  | _ => tetris_fresh
  end.

(** *** Snake *)

(** A generator that replays the listed raw draws, then zeros. *)
Definition draws (l : list Z) : Py.Oracle := fun k => nth k l 0.

(** [n] calls of [update_game_state]. *)
Fixpoint snake_ticks (n : nat) (o : Py.Oracle) (k : nat) (g : Snake.SnakeGame)
  : option (Snake.SnakeGame * nat) :=
  match n with
  | O => Some (g, k)
  | S n' =>
      '(_, g', k') ← Snake.update_game_state o k g;
      snake_ticks n' o k' g'
  end.

Definition alive_of (w : Snake.Who) (g : Snake.SnakeGame) : bool :=
  match w with Snake.P1 => Snake.player1_alive g | Snake.P2 => Snake.player2_alive g end.
Definition opp (w : Snake.Who) : Snake.Who :=
  match w with Snake.P1 => Snake.P2 | Snake.P2 => Snake.P1 end.

(** The direct reverse of each of the four headings. *)
Inductive Reverse : string -> string -> Prop :=
| reverse_up : Reverse "up" "down"
| reverse_down : Reverse "down" "up"
| reverse_left : Reverse "left" "right"
| reverse_right : Reverse "right" "left".

(** The cell one step ahead of the head of [w]'s snake. *)
Definition prospective_head (w : Snake.Who) (g : Snake.SnakeGame) : option Snake.Cell :=
  head ← Snake.snake_of w g !! 0%nat;
  Snake.new_head_of (Snake.direction_of w g) head.




(** A fresh match with the two food items in opposite corners; the
    constructor leaves the cursor of the generator at 4. *)
Definition snake_fresh_draws : Py.Oracle := draws [0; 0; 14; 14].
Definition snake_fresh : Snake.SnakeGame :=
  fst (Snake.init snake_fresh_draws 0 "match" 1 2).


(** A fresh match whose first food item lies right in front of player 1. *)
Definition snake_fed_draws : Py.Oracle := draws [7; 3; 0; 0; 1; 1].
Definition snake_fed : Snake.SnakeGame :=
  fst (Snake.init snake_fed_draws 0 "match" 1 2).

(** The same match read back from its own snapshot; the draws the
    constructor makes inside [from_json] come from a generator of their own
    and leave no trace in the result. *)
Definition snake_fed_restored : Snake.SnakeGame :=
  match Snake.from_json (always 0) 0 (Snake.to_json snake_fed) with
  | Some (g, _) => g
  | None => snake_fed
  end.

(** The fresh match one tick on, in memory and read back from its
    snapshot. *)
Definition snake_one_tick : Snake.SnakeGame :=
  match snake_ticks 1 snake_fresh_draws 4 snake_fresh with
  | Some (g, _) => g
  | None => snake_fresh
  end.
Definition snake_one_tick_restored : Snake.SnakeGame :=
  match Snake.from_json (always 0) 0 (Snake.to_json snake_one_tick) with
  | Some (g, _) => g
  | None => snake_one_tick
  end.

(** Player 1 turns up at once and runs into the top wall on the eighth
    tick, which ends the match. *)
Definition snake_finished : Snake.SnakeGame :=
  match snake_ticks 8 snake_fresh_draws 4 (snd (Snake.move_snake snake_fresh 1 "up")) with
  | Some (g, _) => g
  | None => snake_fresh
  end.

(** What a snapshot does to the cells of a match: every tuple comes back
    as a list. *)
Definition as_list_cell (c : Snake.Cell) : Snake.Cell :=
  Snake.Lst (fst (Snake.coords c)) (snd (Snake.coords c)).
Definition read_back (g : Snake.SnakeGame) : Snake.SnakeGame :=
  Snake.mkGame (Snake.session_id g) (Snake.player1_id g) (Snake.player2_id g)
               (map as_list_cell (Snake.player1_snake g))
               (map as_list_cell (Snake.player2_snake g))
               (Snake.player1_direction g) (Snake.player2_direction g)
               (Snake.player1_score g) (Snake.player2_score g)
               (Snake.player1_alive g) (Snake.player2_alive g)
               (map as_list_cell (Snake.food_positions g))
               (Snake.turn_count g) (Snake.game_over g) (Snake.winner g).

(** *** Ping Pong *)

(** [n] calls of [update_ball]. *)
Fixpoint pong_ticks (n : nat) (o : Py.Oracle) (k : nat) (g : Pong.PingPongGame)
  : Pong.PingPongGame * nat :=
  match n with
  | O => (g, k)
  | S n' => let '(_, g', k') := Pong.update_ball o k g in pong_ticks n' o k' g'
  end.

Definition paddle_of (w : Pong.Who) (g : Pong.PingPongGame) : Z :=
  match w with Pong.P1 => Pong.player1_paddle_y g | Pong.P2 => Pong.player2_paddle_y g end.

(** A fresh match whose ball starts level, towards player 1: both paddles
    at their starting offset return it for ever. *)
Definition pong_level_draws : Py.Oracle := draws [0; 1].
Definition pong_level : Pong.PingPongGame :=
  fst (Pong.init pong_level_draws 0 "match" 1 2).

(** The states of that endless rally. *)
Definition in_rally (g : Pong.PingPongGame) : Prop :=
  Pong.game_over g = false /\ Pong.winner g = None
  /\ Pong.player1_score g = 0 /\ Pong.player2_score g = 0
  /\ Pong.player1_paddle_y g = 4 /\ Pong.player2_paddle_y g = 4
  /\ Pong.ball_y g = 5 /\ Pong.ball_vel_y g = 0
  /\ (Pong.ball_vel_x g = 1 \/ Pong.ball_vel_x g = -1)
  /\ 2 <= Pong.ball_x g <= 17.

(** A match with a paddle at each end of its range. *)
Definition pong_at_edges : Pong.PingPongGame :=
  Pong.mkGame "match" 1 2 0 7 10 5 1 0 0 0 false None 0 11 0.

End Scenario.

(** ** Reachable states and what holds in them *)

Module TetrisInv.

Import Tetris.

(** The states a match can be in: fresh from the constructor, then changed
    by the public operations, or read back from its own snapshot. *)
Inductive reachable : TetrisGame -> Prop :=
| reach_init o k sid p1 p2 : reachable (init o k sid p1 p2).1
| reach_move_piece o k g pid direction r g' k' :
    reachable g -> move_piece o k g pid direction = Some (r, g', k') -> reachable g'
| reach_drop_piece fuel o k g pid r g' k' :
    reachable g -> drop_piece fuel o k g pid = Py.Done (r, g', k') -> reachable g'
| reach_restore o k g g' k' :
    reachable g -> from_json o k (to_json g) = Some (g', k') -> reachable g'.

Definition other (w : Who) : Who := match w with P1 => P2 | P2 => P1 end.

Definition set_piece (w : Who) (g : TetrisGame) (pos : Z * Z) (rotation : Z) : TetrisGame :=
  match w with P1 => set_piece_p1 g pos rotation | P2 => set_piece_p2 g pos rotation end.

(** A board of the field's size: [board_height] rows of [board_width] cells. *)
Definition board_ok (b : Board) : Prop :=
  length b = Z.to_nat board_height
  /\ Forall (fun row => length row = Z.to_nat board_width) b.

Definition boards_ok (g : TetrisGame) : Prop :=
  board_ok (player1_board g) /\ board_ok (player2_board g).

(** A piece as [get_random_piece] builds it: a key of [PIECES] with its own
    orientation table. *)
Definition standard (p : Piece) : Prop := In (ptype p, shapes p) PIECES.

Definition pieces_standard (g : TetrisGame) : Prop :=
  standard (player1_current_piece g) /\ standard (player2_current_piece g)
  /\ standard (player1_next_piece g) /\ standard (player2_next_piece g).

(** The current piece of [w] lies on free cells of [w]'s board. *)
Definition piece_fits (w : Who) (g : TetrisGame) : Prop :=
  is_valid_position (board_of w g) (piece_of w g) (pos_of w g) (rotation_of w g)
  = Some true.

Definition pieces_fit (g : TetrisGame) : Prop :=
  game_over g = false -> piece_fits P1 g /\ piece_fits P2 g.

Definition stats_ok (g : TetrisGame) : Prop :=
  forall w, 0 <= score_of w g /\ 0 <= lines_cleared_of w g
            /\ level_of w g = lines_cleared_of w g / 10 + 1.

Definition outcome_ok (g : TetrisGame) : Prop :=
  (game_over g = false -> winner g = None)
  /\ (game_over g = true ->
      winner g = Some (player1_id g) \/ winner g = Some (player2_id g)).

Definition invariant (g : TetrisGame) : Prop :=
  boards_ok g /\ pieces_standard g /\ pieces_fit g /\ stats_ok g /\ outcome_ok g.

(** [board[r][c]], when the board has that cell. *)
Definition cell_at (b : Board) (r c : nat) : option string :=
  row ← b !! r; row !! c.

(** Everything the engine keeps for one player. *)
Definition side (w : Who) (g : TetrisGame)
  : Board * Z * Z * Z * Piece * Piece * (Z * Z) * Z :=
  (board_of w g, score_of w g, lines_cleared_of w g, level_of w g,
   piece_of w g, next_piece_of w g, pos_of w g, rotation_of w g).

(** The part of [invariant] that speaks of one player. *)
Definition side_ok (w : Who) (g : TetrisGame) : Prop :=
  board_ok (board_of w g)
  /\ standard (piece_of w g) /\ standard (next_piece_of w g)
  /\ (game_over g = false -> piece_fits w g)
  /\ 0 <= score_of w g /\ 0 <= lines_cleared_of w g
  /\ level_of w g = lines_cleared_of w g / 10 + 1.

(** A cell that holds a block. *)
Definition filled (b : Board) (r c : nat) : Prop :=
  exists v, cell_at b r c = Some v /\ v <> ".".

(** A row with no free cell is a complete row. *)
Definition no_complete_row (b : Board) : Prop :=
  Forall (fun row => row_complete row = false) b.

(** A list of [move_piece] calls, each by a player id with a direction. *)
Fixpoint plays (o : Py.Oracle) (k : nat) (g : TetrisGame) (moves : list (Z * string))
  : option (TetrisGame * nat) :=
  match moves with
  | [] => Some (g, k)
  | (pid, direction) :: rest =>
      '(_, g', k') ← move_piece o k g pid direction;
      plays o k' g' rest
  end.

(** Player 1 steers a square [shift] columns to the left ([shift] negative:
    to the right) and takes it down the whole field: seventeen steps and the
    lock. *)
Definition steer (shift : Z) : list (Z * string) :=
  repeat (1, if shift <? 0 then "right" else "left") (Z.to_nat (Z.abs shift))
  ++ repeat (1, "down") 18.

(** Five squares side by side on the floor of player 1's board, all but the
    lock of the fifth; and that lock, which completes two rows. *)
Definition five_squares : list (Z * string) :=
  steer 5 ++ steer 3 ++ steer 1 ++ steer (-1)
  ++ repeat (1, "right") 3 ++ repeat (1, "down") 17.

Definition before_two_lines : TetrisGame * nat :=
  default (Scenario.tetris_fresh, 4%nat)
          (plays (Scenario.always 1) 4 Scenario.tetris_fresh five_squares).

Definition two_lines : TetrisGame :=
  match move_piece (Scenario.always 1) before_two_lines.2 before_two_lines.1 1 "down" with
  | Some (_, g, _) => g
  | None => before_two_lines.1
  end.

End TetrisInv.

Module PongInv.

Import Pong.

(** The states a match can be in: fresh from the constructor, then changed
    by the public operations, or read back from its own snapshot. *)
Inductive reachable : PingPongGame -> Prop :=
| reach_init o k sid p1 p2 : reachable (init o k sid p1 p2).1
| reach_move_paddle g pid d : reachable g -> reachable (move_paddle g pid d).2
| reach_auto_move_paddle g pid : reachable g -> reachable (auto_move_paddle g pid).2
| reach_update_ball o k g : reachable g -> reachable (update_ball o k g).1.2
| reach_simulate_turn o k g : reachable g -> reachable (simulate_turn o k g).1.2
| reach_restore o k g g' k' :
    reachable g -> from_json o k (to_json g) = Some (g', k') -> reachable g'.

(** The higher scorer, nobody on equal scores. *)
Definition by_score (g : PingPongGame) : option Z :=
  if player1_score g >? player2_score g then Some (player1_id g)
  else if player2_score g >? player1_score g then Some (player2_id g)
  else None.

Definition paddles_in_field (g : PingPongGame) : Prop :=
  0 <= player1_paddle_y g <= field_height - paddle_height
  /\ 0 <= player2_paddle_y g <= field_height - paddle_height.

Definition ball_in_field (g : PingPongGame) : Prop :=
  1 <= ball_x g <= field_width - 2
  /\ 0 <= ball_y g <= field_height - 1
  /\ (ball_vel_x g = -1 \/ ball_vel_x g = 1)
  /\ -1 <= ball_vel_y g <= 1.

Definition outcome_by_score (g : PingPongGame) : Prop :=
  max_score g = 11
  /\ 0 <= player1_score g /\ 0 <= player2_score g
  /\ (game_over g = false ->
      winner g = None /\ player1_score g < 11 /\ player2_score g < 11)
  /\ (game_over g = true -> winner g = by_score g).

Definition invariant (g : PingPongGame) : Prop :=
  paddles_in_field g /\ ball_in_field g /\ outcome_by_score g.

(** The row the ball is about to enter, after the bounce off the top or
    bottom wall. *)
Definition next_row (g : PingPongGame) : Z :=
  Z.max 0 (Z.min (field_height - 1) (ball_y g + ball_vel_y g)).

(** The vertical velocity after that bounce. *)
Definition bounced_vel_y (g : PingPongGame) : Z :=
  if ball_y g + ball_vel_y g <=? 0 then Z.abs (ball_vel_y g)
  else if ball_y g + ball_vel_y g >=? field_height - 1 then - Z.abs (ball_vel_y g)
  else ball_vel_y g.

(** The distance of a paddle's center from the ball's row. *)
Definition off_center (w : Who) (g : PingPongGame) : Z :=
  Z.abs (ball_y g
         - ((match w with P1 => player1_paddle_y g | P2 => player2_paddle_y g end)
            + paddle_height / 2)).

(** The ball is about to cross the plane of [w]'s paddle, moving towards
    it, in a row the paddle covers. *)
Definition meets_paddle (w : Who) (g : PingPongGame) : Prop :=
  match w with
  | P1 => ball_x g + ball_vel_x g <= 1 /\ ball_vel_x g < 0
          /\ player1_paddle_y g <= next_row g < player1_paddle_y g + paddle_height
  | P2 => field_width - 2 <= ball_x g + ball_vel_x g /\ 0 < ball_vel_x g
          /\ player2_paddle_y g <= next_row g < player2_paddle_y g + paddle_height
  end.

Definition paddle_y_of (w : Who) (g : PingPongGame) : Z :=
  match w with P1 => player1_paddle_y g | P2 => player2_paddle_y g end.

(** A fresh match with the ball going down towards player 1's side. *)
Definition sample : PingPongGame := (init (fun _ => 2) 0 "match" 1 2).1.

(** The ball one step from player 1's end, in row 8, with player 1's paddle
    at the top: it gets past. *)
Definition passing : PingPongGame :=
  mkGame "match" 1 2 0 4 1 8 (-1) 0 0 0 false None 0 11 7.

(** The ball one step from player 1's paddle, level with its center. *)
Definition returning : PingPongGame :=
  mkGame "match" 1 2 4 4 2 5 (-1) 0 0 0 false None 3 11 8.

End PongInv.

Module SnakeInv.

Import Snake.

(** The states a match can be in: fresh from the constructor, then changed
    by the public operations, or read back from its own snapshot. *)
Inductive reachable : SnakeGame -> Prop :=
| reach_init o k sid p1 p2 : reachable (init o k sid p1 p2).1
| reach_move_snake g pid direction :
    reachable g -> reachable (move_snake g pid direction).2
| reach_update_game_state o k g r g' k' :
    reachable g -> update_game_state o k g = Some (r, g', k') -> reachable g'
| reach_auto_move g pid r g' :
    reachable g -> auto_move g pid = Some (r, g') -> reachable g'
| reach_restore o k g g' k' :
    reachable g -> from_json o k (to_json g) = Some (g', k') -> reachable g'.

(** The states of a match that has stayed in memory all along: the same
    without the snapshot. *)
Inductive played : SnakeGame -> Prop :=
| played_init o k sid p1 p2 : played (init o k sid p1 p2).1
| played_move_snake g pid direction :
    played g -> played (move_snake g pid direction).2
| played_update_game_state o k g r g' k' :
    played g -> update_game_state o k g = Some (r, g', k') -> played g'
| played_auto_move g pid r g' :
    played g -> auto_move g pid = Some (r, g') -> played g'.

Definition score_of (w : Who) (g : SnakeGame) : Z :=
  match w with P1 => player1_score g | P2 => player2_score g end.

(** What is on the board, and what is counted for it. *)
Definition layout (g : SnakeGame)
  : list Cell * list Cell * list Cell * Z * Z * Z * Z :=
  (player1_snake g, player2_snake g, food_positions g,
   player1_score g, player2_score g, player1_id g, player2_id g).

Definition cells (g : SnakeGame) : list Cell :=
  player1_snake g ++ player2_snake g ++ food_positions g.

(** A cell of the 15 x 15 board, as [is_valid_position] takes it. *)
Definition on_board (c : Cell) : Prop :=
  0 <= (coords c).1 < board_height /\ 0 <= (coords c).2 < board_width.

Definition cells_on_board (g : SnakeGame) : Prop := Forall on_board (cells g).

(** A snake has its three starting cells and one more for every ten
    points. *)
Definition grown (w : Who) (g : SnakeGame) : Prop :=
  (3 <= length (snake_of w g))%nat
  /\ score_of w g = 10 * (Z.of_nat (length (snake_of w g)) - 3).

Definition outcome_ok (g : SnakeGame) : Prop :=
  0 <= turn_count g
  /\ (game_over g = false ->
      player1_alive g = true /\ player2_alive g = true /\ winner g = None
      /\ turn_count g <= 200)
  /\ (game_over g = true ->
      turn_count g <= 201
      /\ (player1_alive g = true -> player2_alive g = true -> turn_count g = 201)
      /\ (winner g = by_score g
          \/ (player1_alive g = true /\ player2_alive g = false
              /\ winner g = Some (player1_id g))
          \/ (player1_alive g = false /\ player2_alive g = true
              /\ winner g = Some (player2_id g)))).

Definition invariant (g : SnakeGame) : Prop :=
  cells_on_board g /\ grown P1 g /\ grown P2 g /\ outcome_ok g.

(** A cell built by the engine, not read from a snapshot. *)
Definition is_tuple (c : Cell) : Prop :=
  match c with Tup _ _ => True | Lst _ _ => False end.



(** No two items of the board (cells of either snake, food) at the same
    coordinates. *)
Definition apart (g : SnakeGame) : Prop := NoDup (map coords (cells g)).

Definition tidy (g : SnakeGame) : Prop :=
  Forall is_tuple (cells g) /\ NoDup (cells g).

(** One of the two moves of a tick: made when the player is alive. *)
Definition moved_if (alive : bool) (o : Py.Oracle) (k : nat) (g : SnakeGame) (pid : Z)
           (g1 : SnakeGame) (k1 : nat) : Prop :=
  if alive then exists r, move_player_snake o k g pid = Some (r, g1, k1)
  else g1 = g /\ k1 = k.

(** The four headings the engine knows. *)
Definition heading (d : string) : Prop :=
  d = "up" \/ d = "down" \/ d = "left" \/ d = "right".

(** The fresh match [Scenario.snake_fed] one tick on: player 1 has eaten
    the food item that lay in front of it. *)
Definition after_meal : SnakeGame :=
  match Scenario.snake_ticks 1 Scenario.snake_fed_draws 4 Scenario.snake_fed with
  | Some (g, _) => g
  | None => Scenario.snake_fed
  end.




(** [g'] is [g] but for the stored headings. *)
Definition same_but_headings (g g' : SnakeGame) : Prop :=
  session_id g' = session_id g /\ layout g' = layout g
  /\ player1_alive g' = player1_alive g /\ player2_alive g' = player2_alive g
  /\ turn_count g' = turn_count g /\ game_over g' = game_over g
  /\ winner g' = winner g.

End SnakeInv.

(** ** Tetris: line clearing and scoring *)

Section TetrisLines.

Import Tetris Scenario.

Lemma clear_rows_spec (board acc : Board) (n : Z) :
  clear_rows board acc n
  = (acc ++ incomplete_rows board, n + Z.of_nat (complete_rows board)).
Proof.
  revert acc n. induction board as [|row rest IH]; intros acc n; simpl.
  - rewrite app_nil_r. f_equal. unfold complete_rows. simpl. lia.
  - unfold incomplete_rows, complete_rows in *. simpl.
    destruct (row_complete row); simpl; rewrite IH.
    + f_equal. lia.
    + rewrite <- app_assoc. reflexivity.
Qed.

Lemma rows_split (board : Board) :
  (length (incomplete_rows board) + complete_rows board = length board)%nat.
Proof.
  unfold incomplete_rows, complete_rows.
  induction board as [|row rest IH]; simpl; [reflexivity|].
  destruct (row_complete row); simpl; lia.
Qed.

Lemma clear_lines_spec (board : Board) :
  length board = Z.to_nat board_height ->
  clear_lines board
  = (repeat empty_row (complete_rows board) ++ incomplete_rows board,
     Z.of_nat (complete_rows board)).
Proof.
  intros Hlen. unfold clear_lines. rewrite clear_rows_spec. simpl.
  pose proof (rows_split board) as Hsplit.
  replace (Z.to_nat board_height - length (incomplete_rows board))%nat
    with (complete_rows board) by lia.
  reflexivity.
Qed.

Lemma clear_lines_height (board : Board) :
  length board = Z.to_nat board_height ->
  length (fst (clear_lines board)) = Z.to_nat board_height.
Proof.
  intros Hlen. rewrite clear_lines_spec by assumption. simpl.
  rewrite length_app, repeat_length.
  pose proof (rows_split board). lia.
Qed.

(** Writing a piece into the board never changes the number of rows. *)
Lemma set_cell_height board r c v b' :
  set_cell board r c v = Some b' -> length b' = length board.
Proof.
  unfold set_cell. intros H.
  destruct (board !! r) as [line|]; simpl in H; [|discriminate].
  destruct (c <? length line)%nat; [|discriminate].
  injection H as <-. apply length_insert.
Qed.

Lemma place_line_height line : forall board new_row col j v b',
  place_line board new_row col j v line = Some b' -> length b' = length board.
Proof.
  induction line as [|cell rest IH]; intros board new_row col j v b' H; simpl in H.
  - injection H as <-. reflexivity.
  - destruct (is_hash cell); [|eauto].
    destruct ((0 <=? new_row) && (new_row <? board_height)
              && (0 <=? col + j) && (col + j <? board_width)); [|eauto].
    destruct (set_cell board (Z.to_nat new_row) (Z.to_nat (col + j)) v) as [b|] eqn:E;
      simpl in H; [|discriminate].
    rewrite (IH _ _ _ _ _ _ H). eapply set_cell_height; eassumption.
Qed.

Lemma place_shape_height shape : forall board row col i v b',
  place_shape board row col i v shape = Some b' -> length b' = length board.
Proof.
  induction shape as [|line rest IH]; intros board row col i v b' H; simpl in H.
  - injection H as <-. reflexivity.
  - destruct (place_line board (row + i) col 0 v (list_ascii_of_string line)) as [b|] eqn:E;
      simpl in H; [|discriminate].
    rewrite (IH _ _ _ _ _ _ H). eapply place_line_height; eassumption.
Qed.

Lemma place_piece_height board piece pos rotation b' :
  place_piece board piece pos rotation = Some b' -> length b' = length board.
Proof.
  unfold place_piece. intros H.
  destruct (get_piece_shape piece rotation) as [shape|]; simpl in H; [|discriminate].
  eapply place_shape_height; eassumption.
Qed.

Lemma calculate_score_table (lines : nat) (level : Z) :
  (lines <= 4)%nat ->
  calculate_score (Z.of_nat lines) level = score_table lines * (level + 1).
Proof.
  intros Hle.
  do 5 (destruct lines as [|lines]; [reflexivity|]). lia.
Qed.

End TetrisLines.

Section TetrisLock.

Import Tetris Scenario.

(** What [place_current_piece] does for a player of the match, field by
    field. *)
Lemma place_current_piece_inv o k g pid w r g' k' :
  who g pid = Some w ->
  place_current_piece o k g pid = Some (r, g', k') ->
  exists placed valid,
    place_piece (board_of w g) (piece_of w g) (pos_of w g) (rotation_of w g) = Some placed
    /\ is_valid_position (fst (clear_lines placed)) (next_piece_of w g) (0, 4) 0 = Some valid
    /\ r = mkResult true (PiecePlaced (snd (clear_lines placed))
                            (calculate_score (snd (clear_lines placed)) (level_of w g)))
    /\ board_of w g' = fst (clear_lines placed)
    /\ score_of w g'
       = score_of w g + calculate_score (snd (clear_lines placed)) (level_of w g)
    /\ lines_cleared_of w g' = lines_cleared_of w g + snd (clear_lines placed)
    /\ level_of w g' = lines_cleared_of w g' / 10 + 1
    /\ piece_of w g' = next_piece_of w g
    /\ pos_of w g' = (0, 4)
    /\ rotation_of w g' = 0
    /\ game_over g' = (if valid then game_over g else true)
    /\ winner g' = (if valid then winner g else Some (opponent_id w g)).
Proof.
  intros Hwho H. unfold place_current_piece in H. rewrite Hwho in H.
  destruct w; cbv beta iota in H; cbn [board_of piece_of next_piece_of pos_of rotation_of].
  - destruct (place_piece (player1_board g) (player1_current_piece g)
                          (player1_piece_pos g) (player1_piece_rotation g))
      as [placed|]; simpl in H; [|discriminate].
    destruct (clear_lines placed) as [new_board lines] eqn:Hclear.
    destruct (get_random_piece o k) as [next kk].
    destruct (is_valid_position new_board (player1_next_piece g) (0, 4) 0)
      as [valid|] eqn:Hvalid; simpl in H; [|discriminate].
    injection H as <- <- <-. exists placed, valid.
    rewrite Hclear. cbn [fst snd]. rewrite Hvalid. repeat split; reflexivity.
  - destruct (place_piece (player2_board g) (player2_current_piece g)
                          (player2_piece_pos g) (player2_piece_rotation g))
      as [placed|]; simpl in H; [|discriminate].
    destruct (clear_lines placed) as [new_board lines] eqn:Hclear.
    destruct (get_random_piece o k) as [next kk].
    destruct (is_valid_position new_board (player2_next_piece g) (0, 4) 0)
      as [valid|] eqn:Hvalid; simpl in H; [|discriminate].
    injection H as <- <- <-. exists placed, valid.
    rewrite Hclear. cbn [fst snd]. rewrite Hvalid. repeat split; reflexivity.
Qed.

(** C5. Locking a piece removes exactly the rows of the board that have no
    empty cell, keeps the other rows in their order below as many fresh
    empty rows on top (so the board keeps its 20 rows), and awards
    [{1: 40, 2: 100, 3: 300, 4: 1200}[n] * (level + 1)] points for [n]
    removed rows, 0 points for none, at the level the player had when the
    piece locked. *)
Theorem tetris_lock_clears_and_scores o k g pid w r g' k' :
  who g pid = Some w ->
  length (board_of w g) = Z.to_nat board_height ->
  place_current_piece o k g pid = Some (r, g', k') ->
  exists placed,
    place_piece (board_of w g) (piece_of w g) (pos_of w g) (rotation_of w g) = Some placed
    /\ board_of w g' = repeat empty_row (complete_rows placed) ++ incomplete_rows placed
    /\ length (board_of w g') = Z.to_nat board_height
    /\ lines_cleared_of w g' = lines_cleared_of w g + Z.of_nat (complete_rows placed)
    /\ ((complete_rows placed <= 4)%nat ->
        score_of w g'
        = score_of w g + score_table (complete_rows placed) * (level_of w g + 1))
    /\ (complete_rows placed = 0%nat -> score_of w g' = score_of w g).
Proof.
  intros Hwho Hlen H.
  destruct (place_current_piece_inv _ _ _ _ _ _ _ _ Hwho H)
    as (placed & valid & Hplaced & _ & _ & Hboard & Hscore & Hlines & _).
  assert (Hheight : length placed = Z.to_nat board_height).
  { rewrite (place_piece_height _ _ _ _ _ Hplaced). exact Hlen. }
  rewrite (clear_lines_spec _ Hheight) in Hboard, Hscore, Hlines. simpl in *.
  exists placed. repeat split; try assumption.
  - rewrite Hboard, length_app, repeat_length.
    pose proof (rows_split placed). unfold incomplete_rows in *. lia.
  - intros Hle. rewrite Hscore, calculate_score_table by assumption. reflexivity.
  - intros Hzero. rewrite Hscore, Hzero. unfold calculate_score. simpl. lia.
Qed.

(** The bar of [tetris_one_line] completes the bottom row: one row removed,
    [40 * (1 + 1)] points. *)
Lemma tetris_lock_clears_and_scores_witness :
  exists r g' k',
    place_current_piece (always 1) 0 tetris_one_line 1 = Some (r, g', k')
    /\ player1_board g' = empty_board
    /\ player1_score g' = 80.
Proof.
  destruct (place_current_piece (always 1) 0 tetris_one_line 1)
    as [[[r g'] k']|] eqn:Hrun; [|vm_compute in Hrun; discriminate].
  exists r, g', k'. split; [reflexivity|].
  destruct (tetris_lock_clears_and_scores (always 1) 0 tetris_one_line 1 P1 r g' k'
              eq_refl eq_refl Hrun)
    as (placed & Hplaced & Hboard & _ & _ & Hscore & _).
  vm_compute in Hplaced. injection Hplaced as <-.
  split.
  - exact Hboard.
  - apply Hscore. vm_compute. lia.
Defined.

(** C6. When a player's piece locks and the piece spawned for that player
    at row 0, column 4, rotation 0 does not fit the new board, the match is
    over at once and the other player is the winner. *)
Theorem tetris_block_out o k g pid w r g' k' :
  who g pid = Some w ->
  place_current_piece o k g pid = Some (r, g', k') ->
  is_valid_position (board_of w g') (piece_of w g') (0, 4) 0 = Some false ->
  pos_of w g' = (0, 4) /\ rotation_of w g' = 0
  /\ game_over g' = true /\ winner g' = Some (opponent_id w g).
Proof.
  intros Hwho H Hspawn.
  destruct (place_current_piece_inv _ _ _ _ _ _ _ _ Hwho H)
    as (placed & valid & _ & Hvalid & _ & Hboard & _ & _ & _ & Hpiece & Hpos & Hrot
        & Hover & Hwin).
  rewrite Hboard, Hpiece, Hvalid in Hspawn. injection Hspawn as ->.
  repeat split; assumption.
Qed.

(** Either player locking the last square that fits under the spawn point
    loses to the other. *)
Lemma tetris_block_out_witness :
  (exists r g' k',
      place_current_piece (always 1) 0 (tetris_stacked P1) 1 = Some (r, g', k')
      /\ game_over g' = true /\ winner g' = Some 2)
  /\ (exists r g' k',
      place_current_piece (always 1) 0 (tetris_stacked P2) 2 = Some (r, g', k')
      /\ game_over g' = true /\ winner g' = Some 1).
Proof.
  split.
  - destruct (place_current_piece (always 1) 0 (tetris_stacked P1) 1)
      as [[[r g'] k']|] eqn:Hrun; [|vm_compute in Hrun; discriminate].
    exists r, g', k'. split; [reflexivity|].
    assert (Hspawn : is_valid_position (board_of P1 g') (piece_of P1 g') (0, 4) 0
                     = Some false).
    { vm_compute in Hrun. injection Hrun as <- <- <-. vm_compute. reflexivity. }
    destruct (tetris_block_out (always 1) 0 (tetris_stacked P1) 1 P1 r g' k'
                eq_refl Hrun Hspawn) as (_ & _ & Hover & Hwin).
    split; assumption.
  - destruct (place_current_piece (always 1) 0 (tetris_stacked P2) 2)
      as [[[r g'] k']|] eqn:Hrun; [|vm_compute in Hrun; discriminate].
    exists r, g', k'. split; [reflexivity|].
    assert (Hspawn : is_valid_position (board_of P2 g') (piece_of P2 g') (0, 4) 0
                     = Some false).
    { vm_compute in Hrun. injection Hrun as <- <- <-. vm_compute. reflexivity. }
    destruct (tetris_block_out (always 1) 0 (tetris_stacked P2) 2 P2 r g' k'
                eq_refl Hrun Hspawn) as (_ & _ & Hover & Hwin).
    split; assumption.
Defined.

(** Every board of a match keeps the height of the field: it has it after
    the constructor, and no move changes it. *)
Lemma init_full_height o k sid p1 p2 : full_height (init o k sid p1 p2).1.
Proof. unfold full_height, init. simpl. split; reflexivity. Qed.

Lemma place_current_piece_full_height o k g pid r g' k' :
  full_height g ->
  place_current_piece o k g pid = Some (r, g', k') ->
  full_height g'.
Proof.
  intros [H1 H2] H. unfold place_current_piece in H.
  destruct (who g pid) as [[|]|]; [| |injection H as <- <- <-; split; assumption].
  - destruct (place_piece (player1_board g) (player1_current_piece g)
                (player1_piece_pos g) (player1_piece_rotation g))
      as [placed|] eqn:Hplaced; simpl in H; [|discriminate].
    pose proof (clear_lines_height placed) as Hheight.
    rewrite (place_piece_height _ _ _ _ _ Hplaced) in Hheight.
    destruct (clear_lines placed) as [new_board lines].
    destruct (get_random_piece o k) as [next kk].
    destruct (is_valid_position new_board (player1_next_piece g) (0, 4) 0);
      simpl in H; [|discriminate].
    injection H as <- <- <-. split; simpl; auto.
  - destruct (place_piece (player2_board g) (player2_current_piece g)
                (player2_piece_pos g) (player2_piece_rotation g))
      as [placed|] eqn:Hplaced; simpl in H; [|discriminate].
    pose proof (clear_lines_height placed) as Hheight.
    rewrite (place_piece_height _ _ _ _ _ Hplaced) in Hheight.
    destruct (clear_lines placed) as [new_board lines].
    destruct (get_random_piece o k) as [next kk].
    destruct (is_valid_position new_board (player2_next_piece g) (0, 4) 0);
      simpl in H; [|discriminate].
    injection H as <- <- <-. split; simpl; auto.
Qed.

Lemma move_piece_full_height o k g pid direction r g' k' :
  full_height g ->
  move_piece o k g pid direction = Some (r, g', k') ->
  full_height g'.
Proof.
  intros Hfull H. unfold move_piece in H.
  destruct (game_over g); [injection H as <- <- <-; assumption|].
  destruct (who g pid) as [w|] eqn:Hwho; [|injection H as <- <- <-; assumption].
  destruct (candidate (piece_of w g) (pos_of w g) (rotation_of w g) direction)
    as [[[new_pos new_rotation]|]|]; simpl in H;
    [| discriminate | injection H as <- <- <-; assumption].
  destruct (is_valid_position (board_of w g) (piece_of w g) new_pos new_rotation)
    as [[|]|]; simpl in H; [| |discriminate].
  - injection H as <- <- <-. destruct w; exact Hfull.
  - destruct (String.eqb direction "down").
    + eapply place_current_piece_full_height; eassumption.
    + injection H as <- <- <-. assumption.
Qed.

End TetrisLock.

(** ** Tetris: dropping a piece *)

Section TetrisDrop.

Import Tetris Scenario.

(** A lock reports success, so the only failures of a ["down"] move are the
    two guards at the head of [move_piece]; neither changes the state. *)
Lemma move_down_failure o k g pid r g' k' :
  move_piece o k g pid "down" = Some (r, g', k') ->
  success r = false ->
  g' = g /\ k' = k /\ (game_over g = true \/ who g pid = None).
Proof.
  unfold move_piece. intros H Hfail.
  destruct (game_over g) eqn:Hover.
  { injection H as <- <- <-. auto. }
  destruct (who g pid) as [w|] eqn:Hwho.
  2:{ injection H as <- <- <-. auto. }
  cbn [candidate String.eqb Ascii.eqb Bool.eqb] in H. simpl in H.
  destruct (is_valid_position (board_of w g) (piece_of w g)
              ((pos_of w g).1 + 1, (pos_of w g).2) (rotation_of w g)) as [[|]|];
    simpl in H; try discriminate.
  - injection H as <- <- <-. discriminate.
  - destruct (place_current_piece_inv _ _ _ _ _ _ _ _ Hwho H)
      as (placed & valid & _ & _ & -> & _). discriminate.
Qed.

(** [drop_piece] returns only once the match is over (or for a stranger to
    the match): a lock alone never ends its loop. *)
Lemma drop_piece_stops_only_at_game_over fuel : forall o k g pid r g' k',
  drop_piece fuel o k g pid = Py.Done (r, g', k') ->
  r = mkResult true PieceDropped /\ (game_over g' = true \/ who g' pid = None).
Proof.
  induction fuel as [|fuel IH]; intros o k g pid r g' k' H; simpl in H; [discriminate|].
  destruct (move_piece o k g pid "down") as [[[r1 g1] k1]|] eqn:Hmove; [|discriminate].
  destruct (success r1) eqn:Hsuccess.
  - eapply IH; eassumption.
  - injection H as <- <- <-.
    destruct (move_down_failure _ _ _ _ _ _ _ Hmove Hsuccess) as (-> & _ & Hwhy).
    auto.
Qed.

(** In a finished match [drop_piece] changes nothing, and reports success. *)
Lemma drop_piece_when_over fuel o k g pid :
  game_over g = true ->
  drop_piece (S fuel) o k g pid = Py.Done (mkResult true PieceDropped, g, k).
Proof.
  intros Hover. simpl. unfold move_piece. rewrite Hover. reflexivity.
Qed.

(** C2. On the fresh match [tetris_fresh] (every piece a square), eighteen
    ["down"] moves of player 1 bring the first lock: four occupied cells,
    the next square waiting at the spawn point, the match running. That is
    where a drop should stop. [drop_piece] for player 1 does not stop
    there: it returns after nine squares are locked (36 occupied cells,
    nine further pieces drawn), with the match over and player 2 the
    winner. *)
Theorem tetris_drop_runs_past_first_lock :
  (exists msgs g1 k1,
      tetris_downs 18 (always 1) 4 tetris_fresh 1 = Some (msgs, g1, k1)
      /\ msgs = repeat PieceMoved 17 ++ [PiecePlaced 0 0]
      /\ occupied (player1_board g1) = 4%nat
      /\ player1_piece_pos g1 = (0, 4)
      /\ k1 = 5%nat
      /\ game_over g1 = false)
  /\ (exists r g' k',
      drop_piece 200 (always 1) 4 tetris_fresh 1 = Py.Done (r, g', k')
      /\ success r = true
      /\ occupied (player1_board g') = 36%nat
      /\ k' = 13%nat
      /\ game_over g' = true
      /\ winner g' = Some 2).
Proof.
  split.
  - destruct (tetris_downs 18 (always 1) 4 tetris_fresh 1) as [[[msgs g1] k1]|] eqn:Hrun;
      vm_compute in Hrun; [|discriminate].
    exists msgs, g1, k1. injection Hrun as <- <- <-.
    vm_compute. repeat split; reflexivity.
  - destruct (drop_piece 200 (always 1) 4 tetris_fresh 1) as [[[r g'] k']| |] eqn:Hrun;
      vm_compute in Hrun; try discriminate.
    exists r, g', k'. injection Hrun as <- <- <-.
    vm_compute. repeat split; reflexivity.
Qed.

End TetrisDrop.

(** ** Snake: changing the heading *)

Section SnakeHeading.

Import Snake Scenario.

Lemma is_reverse_spec (direction current : string) :
  is_reverse direction current = true <-> Reverse current direction.
Proof.
  unfold is_reverse, opposite_directions. split.
  - destruct (String.eqb_spec current "up") as [Hc|_];
      [intros H; apply String.eqb_eq in H; subst; constructor|].
    destruct (String.eqb_spec current "down") as [Hc|_];
      [intros H; apply String.eqb_eq in H; subst; constructor|].
    destruct (String.eqb_spec current "left") as [Hc|_];
      [intros H; apply String.eqb_eq in H; subst; constructor|].
    destruct (String.eqb_spec current "right") as [Hc|_];
      [intros H; apply String.eqb_eq in H; subst; constructor|].
    discriminate.
  - intros H. destruct H; reflexivity.
Qed.

Lemma no_heading_reverses_itself (d : string) : ~ Reverse d d.
Proof. intros H. inversion H. Qed.

(** C7. While the match runs, a request by a living player for the direct
    reverse of the stored heading is rejected and leaves the whole state
    as it was; any other request, the current heading included, is
    accepted and becomes the stored heading. *)
Theorem snake_reverse_heading_rejected g pid w d :
  game_over g = false ->
  who g pid = Some w ->
  alive_of w g = true ->
  (Reverse (direction_of w g) d ->
   move_snake g pid d = (mkResult false CannotReverse, g))
  /\ (~ Reverse (direction_of w g) d ->
      move_snake g pid d = (mkResult true (DirectionChanged d), set_direction w g d)
      /\ direction_of w (set_direction w g d) = d)
  /\ success (fst (move_snake g pid (direction_of w g))) = true.
Proof.
  intros Hover Hwho Halive.
  assert (Hcases : forall d',
             move_snake g pid d'
             = if is_reverse d' (direction_of w g)
               then (mkResult false CannotReverse, g)
               else (mkResult true (DirectionChanged d'), set_direction w g d')).
  { intros d'. unfold move_snake. rewrite Hover, Hwho.
    destruct w; simpl in Halive |- *; rewrite Halive; reflexivity. }
  split; [|split].
  - intros Hrev. rewrite Hcases.
    apply is_reverse_spec in Hrev. rewrite Hrev. reflexivity.
  - intros Hnot. rewrite Hcases.
    destruct (is_reverse d (direction_of w g)) eqn:Hrev.
    + apply is_reverse_spec in Hrev. contradiction.
    + split; [reflexivity|]. destruct w; reflexivity.
  - rewrite Hcases.
    destruct (is_reverse (direction_of w g) (direction_of w g)) eqn:Hrev.
    + apply is_reverse_spec in Hrev. destruct (no_heading_reverses_itself _ Hrev).
    + reflexivity.
Qed.

(** Player 1 of the fresh match heads right: ["left"] is refused, ["up"]
    and ["right"] are taken. *)
Lemma snake_reverse_heading_rejected_witness :
  move_snake snake_fresh 1 "left" = (mkResult false CannotReverse, snake_fresh)
  /\ player1_direction (snd (move_snake snake_fresh 1 "up")) = "up"
  /\ success (fst (move_snake snake_fresh 1 "right")) = true.
Proof.
  destruct (snake_reverse_heading_rejected snake_fresh 1 P1 "left"
              eq_refl eq_refl eq_refl) as (Hrev & _ & Hsame).
  destruct (snake_reverse_heading_rejected snake_fresh 1 P1 "up"
              eq_refl eq_refl eq_refl) as (_ & Hother & _).
  split; [|split].
  - apply Hrev. constructor.
  - destruct Hother as [-> _]; [|reflexivity].
    intros H. inversion H.
  - exact Hsame.
Defined.

(** C10. The reversal test looks only at the stored heading. In the fresh
    match [snake_fresh] player 1 heads right and the first tick moves its
    head from (7,2) to (7,3). On the state after that tick, and likewise on
    that state read back from its snapshot, the requests ["up"] then
    ["left"] are both accepted and leave ["left"], the reverse of the
    heading just moved with, as the stored heading; the next tick then
    steps the head back onto (7,2), the cell it came from. On the match as
    it is in memory that step is found to hit the snake's own body and
    eliminates player 1; on the match read back from its snapshot the step
    is taken and the snake moves backwards over itself. *)
Theorem snake_two_turns_reverse_the_snake :
  (* the tick before: player 1 moves one cell to the right *)
  player1_direction snake_fresh = "right"
  /\ player1_snake snake_fresh !! 0%nat = Some (Tup 7 2)
  /\ snake_ticks 1 snake_fresh_draws 4 snake_fresh = Some (snake_one_tick, 4%nat)
  /\ player1_snake snake_one_tick !! 0%nat = Some (Tup 7 3)
  /\ fst <$> from_json (always 0) 0 (to_json snake_one_tick) = Some snake_one_tick_restored
  (* two accepted requests, and the heading they leave *)
  /\ (forall s, s = snake_one_tick \/ s = snake_one_tick_restored ->
      let turned := move_snake s 1 "up" in
      let back := move_snake (snd turned) 1 "left" in
      success (fst turned) = true /\ success (fst back) = true
      /\ player1_direction (snd back) = "left"
      /\ Reverse "right" (player1_direction (snd back))
      /\ prospective_head P1 (snd back) = Some (Tup 7 2))
  (* the next tick, in memory *)
  /\ (exists g' k',
         update_game_state snake_fresh_draws 4
           (snd (move_snake (snd (move_snake snake_one_tick 1 "up")) 1 "left"))
         = Some (mkResult true (Turn (Some HitSelf) (Some Moved) 2), g', k')
         /\ player1_alive g' = false
         /\ player1_snake g' = player1_snake snake_one_tick)
  (* the next tick, after a snapshot *)
  /\ (exists g' k',
         update_game_state snake_fresh_draws 4
           (snd (move_snake (snd (move_snake snake_one_tick_restored 1 "up")) 1 "left"))
         = Some (mkResult true (Turn (Some Moved) (Some Moved) 2), g', k')
         /\ player1_alive g' = true
         /\ map coords (player1_snake g') = [(7, 2); (7, 3); (7, 2)]).
Proof.
  do 5 (split; [vm_compute; reflexivity|]).
  split; [|split].
  - intros s [->| ->]; vm_compute; repeat split; constructor.
  - vm_compute. eexists _, _. repeat split; reflexivity.
  - vm_compute. eexists _, _. repeat split; reflexivity.
Qed.

End SnakeHeading.

(** ** Snake: the order of the two moves of a tick *)

Section SnakeTick.

Import Snake Scenario.

(** [spawn_food] touches nothing but the food list. *)
Lemma spawn_food_loop_frame attempts : forall o k g b g' k',
  spawn_food_loop attempts o k g = (b, g', k') ->
  g' = with_food g (food_positions g').
Proof.
  induction attempts as [|n IH]; intros o k g b g' k' H; simpl in H.
  - injection H as <- <- <-. destruct g; reflexivity.
  - destruct (negb (py_in (Tup (o k `mod` board_width) (o (S k) `mod` board_height))
                      (player1_snake g))
              && negb (py_in (Tup (o k `mod` board_width) (o (S k) `mod` board_height))
                         (player2_snake g))
              && negb (py_in (Tup (o k `mod` board_width) (o (S k) `mod` board_height))
                         (food_positions g))).
    + injection H as <- <- <-. reflexivity.
    + eapply IH; eassumption.
Qed.



Lemma py_eq_refl (c : Cell) : py_eq c c = true.
Proof. destruct c; simpl; rewrite !Z.eqb_refl; reflexivity. Qed.










End SnakeTick.

(** ** Snapshots *)

Section Snapshots.

Import Scenario.

Lemma as_strs_of_strs (l : list string) : Json.as_strs (Json.of_strs l) = Some l.
Proof.
  unfold Json.as_strs, Json.of_strs. simpl.
  induction l as [|x l IH]; simpl; [reflexivity|]. rewrite IH. reflexivity.
Qed.

Lemma as_strss_of_strss (l : list (list string)) :
  Json.as_strss (Json.of_strss l) = Some l.
Proof.
  unfold Json.as_strss, Json.of_strss. simpl.
  induction l as [|x l IH]; simpl; [reflexivity|].
  rewrite as_strs_of_strs. simpl. rewrite IH. reflexivity.
Qed.

Lemma as_opt_int_of_opt_int (w : option Z) :
  Json.as_opt_int (Json.of_opt_int w) = Some w.
Proof. destruct w; reflexivity. Qed.

Lemma as_piece_piece_json (p : Tetris.Piece) :
  Tetris.as_piece (Tetris.piece_json p) = Some p.
Proof.
  unfold Tetris.as_piece, Tetris.piece_json. simpl.
  rewrite as_strss_of_strss. simpl. destruct p; reflexivity.
Qed.

(** A Tetris match read back from its own snapshot is the same match. *)
Lemma tetris_restore_snapshot o k (g : Tetris.TetrisGame) :
  fst <$> Tetris.from_json o k (Tetris.to_json g) = Some g.
Proof.
  unfold Tetris.from_json, Tetris.to_json. simpl.
  rewrite !as_strss_of_strss. simpl.
  rewrite !as_piece_piece_json. simpl.
  rewrite as_opt_int_of_opt_int. simpl.
  destruct g as [? ? ? ? ? ? ? ? ? ? ? ? ? ? ? [? ?] [? ?] ? ? ? ?]; reflexivity.
Qed.

(** So is a Ping Pong match. *)
Lemma pong_restore_snapshot o k (g : Pong.PingPongGame) :
  fst <$> Pong.from_json o k (Pong.to_json g) = Some g.
Proof.
  unfold Pong.from_json, Pong.to_json. simpl.
  rewrite as_opt_int_of_opt_int. simpl.
  destruct g; reflexivity.
Qed.

Lemma as_cells_cell_json (l : list Snake.Cell) :
  Snake.as_cells (Json.Arr (map Snake.cell_json l)) = Some (map as_list_cell l).
Proof.
  unfold Snake.as_cells. simpl.
  induction l as [|c l IH]; simpl; [reflexivity|]. rewrite IH. reflexivity.
Qed.

(** A Snake match read back from its snapshot has every cell turned into a
    list. *)
Lemma snake_restore_snapshot o k (g : Snake.SnakeGame) :
  fst <$> Snake.from_json o k (Snake.to_json g) = Some (read_back g).
Proof.
  unfold Snake.from_json, Snake.to_json.
  cbn [Json.get Json.lookup String.eqb Ascii.eqb Bool.eqb mbind option_bind
       Json.as_str Json.as_int Json.as_bool].
  destruct (Snake.init o k (Snake.session_id g) (Snake.player1_id g) (Snake.player2_id g))
    as [game k'] eqn:Hinit.
  rewrite !as_cells_cell_json, as_opt_int_of_opt_int. simpl.
  unfold read_back. f_equal. f_equal.
  - unfold Snake.init in Hinit.
    destruct (Snake.spawn_food o k _) as [[b1 g1] k1] eqn:H1.
    destruct (Snake.spawn_food o k1 g1) as [[b2 g2] k2] eqn:H2.
    injection Hinit as <- <-.
    apply spawn_food_loop_frame in H1, H2. rewrite H2, H1. reflexivity.
  - unfold Snake.init in Hinit.
    destruct (Snake.spawn_food o k _) as [[b1 g1] k1] eqn:H1.
    destruct (Snake.spawn_food o k1 g1) as [[b2 g2] k2] eqn:H2.
    injection Hinit as <- <-.
    apply spawn_food_loop_frame in H1, H2. rewrite H2, H1. reflexivity.
  - unfold Snake.init in Hinit.
    destruct (Snake.spawn_food o k _) as [[b1 g1] k1] eqn:H1.
    destruct (Snake.spawn_food o k1 g1) as [[b2 g2] k2] eqn:H2.
    injection Hinit as <- <-.
    apply spawn_food_loop_frame in H1, H2. rewrite H2, H1. reflexivity.
Qed.

(** C1. Restoring a Snake match from its own snapshot changes what the
    next tick does. In the fresh match [snake_fed] a food item lies in
    front of player 1: continued in memory, the tick eats it (10 points,
    length 4); after [from_json (to_json ...)], under the same draws, the
    same tick does not see the food (0 points, length 3), and the two
    resulting snapshots differ. *)
Theorem snake_restore_changes_replay :
  fst <$> Snake.from_json (always 0) 0 (Snake.to_json snake_fed) = Some snake_fed_restored
  /\ exists r g1 k1 r' g1' k1',
      Snake.update_game_state snake_fed_draws 4 snake_fed = Some (r, g1, k1)
      /\ Snake.update_game_state snake_fed_draws 4 snake_fed_restored = Some (r', g1', k1')
      /\ Snake.message r = Snake.Turn (Some Snake.MovedAndAte) (Some Snake.Moved) 1
      /\ Snake.message r' = Snake.Turn (Some Snake.Moved) (Some Snake.Moved) 1
      /\ Snake.player1_score g1 = 10 /\ Snake.player1_score g1' = 0
      /\ length (Snake.player1_snake g1) = 4%nat
      /\ length (Snake.player1_snake g1') = 3%nat
      /\ Snake.to_json g1 <> Snake.to_json g1'.
Proof.
  split; [vm_compute; reflexivity|].
  destruct (Snake.update_game_state snake_fed_draws 4 snake_fed)
    as [[[r g1] k1]|] eqn:Hrun; [|vm_compute in Hrun; discriminate].
  destruct (Snake.update_game_state snake_fed_draws 4 snake_fed_restored)
    as [[[r' g1'] k1']|] eqn:Hrun'; [|vm_compute in Hrun'; discriminate].
  exists r, g1, k1, r', g1', k1'.
  vm_compute in Hrun, Hrun'.
  injection Hrun as <- <- <-. injection Hrun' as <- <- <-.
  repeat split; try reflexivity.
  vm_compute. discriminate.
Qed.

End Snapshots.

(** ** Ping Pong: paddles and the turn cap *)

Section PongProperties.

Import Pong Scenario.

(** C9. While the match runs, a player's ["up"] with the paddle at offset 0
    and ["down"] with the paddle at offset
    [field_height - paddle_height] are accepted and leave the state, the
    paddle offset included, exactly as it was. *)
Theorem pong_paddle_move_clamped g pid w :
  game_over g = false ->
  who g pid = Some w ->
  (paddle_of w g = 0 ->
   move_paddle g pid "up" = (mkResult true (PaddleMoved "up"), g))
  /\ (paddle_of w g = field_height - paddle_height ->
      move_paddle g pid "down" = (mkResult true (PaddleMoved "down"), g)).
Proof.
  intros Hover Hwho. unfold move_paddle. rewrite Hover, Hwho. simpl.
  split; intros Hedge; f_equal;
    destruct w, g; simpl in *; subst; reflexivity.
Qed.

(** In [pong_at_edges] player 1's paddle is at the top and player 2's at
    the bottom. *)
Lemma pong_paddle_move_clamped_witness :
  move_paddle pong_at_edges 1 "up" = (mkResult true (PaddleMoved "up"), pong_at_edges)
  /\ move_paddle pong_at_edges 2 "down"
     = (mkResult true (PaddleMoved "down"), pong_at_edges).
Proof.
  split.
  - apply (pong_paddle_move_clamped pong_at_edges 1 P1 eq_refl eq_refl). reflexivity.
  - apply (pong_paddle_move_clamped pong_at_edges 2 P2 eq_refl eq_refl). reflexivity.
Defined.

(** One tick of the level rally is again a state of the rally: the ball
    moves on or is returned, nobody scores, and [check_game_over] is not
    reached. *)
Lemma rally_step o k g :
  in_rally g ->
  in_rally (update_ball o k g).1.2
  /\ turn_count (update_ball o k g).1.2 = turn_count g + 1
  /\ (update_ball o k g).2 = k.
Proof.
  destruct g as [sid p1 p2 y1 y2 bx byy vx vy s1 s2 over w rally target turns].
  unfold in_rally. simpl.
  intros (-> & -> & -> & -> & -> & -> & -> & -> & Hvx & Hx).
  unfold update_ball, check_paddle_collision, field_width, field_height, paddle_height.
  destruct Hvx as [-> | ->]; simpl;
    repeat (rewrite ?Z.geb_leb, ?Z.gtb_ltb;
            match goal with
            | |- context [Z.leb ?a ?b] => destruct (Z.leb_spec a b)
            | |- context [Z.ltb ?a ?b] => destruct (Z.ltb_spec a b)
            end; try lia; simpl);
    repeat split; auto; lia.
Qed.

Lemma rally_goes_on n : forall o k g,
  in_rally g ->
  in_rally (pong_ticks n o k g).1
  /\ turn_count (pong_ticks n o k g).1 = turn_count g + Z.of_nat n.
Proof.
  induction n as [|n IH]; intros o k g Hg.
  - simpl. split; [assumption|lia].
  - cbn [pong_ticks].
    destruct (rally_step o k g Hg) as (Hnext & Hturn & _).
    destruct (update_ball o k g) as [[r g'] k']. simpl in Hnext, Hturn.
    destruct (IH o k' g' Hnext) as (Hrally & Hcount).
    split; [assumption|lia].
Qed.

(** C4. In the fresh match [pong_level] the ball travels level between
    the two paddles: however many ticks are driven -- 500, or any number
    beyond -- the scores stay tied at 0-0, the turn counter passes the cap
    of 500, and the match is never declared over. *)
Theorem pong_turn_cap_not_enforced (n : nat) :
  let g := (pong_ticks n pong_level_draws 2 pong_level).1 in
  turn_count g = Z.of_nat n
  /\ player1_score g = 0 /\ player2_score g = 0
  /\ game_over g = false /\ winner g = None.
Proof.
  assert (Hstart : in_rally pong_level).
  { unfold in_rally. vm_compute. repeat split; auto; discriminate. }
  destruct (rally_goes_on n pong_level_draws 2 pong_level Hstart)
    as ((Hover & Hwin & Hs1 & Hs2 & _) & Hcount).
  simpl. repeat split; assumption.
Qed.

End PongProperties.

(** ** Snake: the turn cap *)

Section SnakeCap.

Import Snake Scenario.

(** [move_player_snake] leaves the counters and the outcome alone. *)
Lemma move_player_snake_frame o k g pid r g1 k1 :
  move_player_snake o k g pid = Some (r, g1, k1) ->
  turn_count g1 = turn_count g /\ game_over g1 = game_over g /\ winner g1 = winner g.
Proof.
  unfold move_player_snake. intros H.
  destruct (who g pid) as [w|]; [|injection H as <- <- <-; auto].
  destruct (snake_of w g !! 0%nat) as [head|]; simpl in H; [|discriminate].
  destruct (new_head_of (direction_of w g) head) as [h|];
    [|injection H as <- <- <-; auto].
  destruct (negb (is_valid_position (coords h).1 (coords h).2));
    [injection H as <- <- <-; destruct w; auto|].
  destruct (py_in h (snake_of w g)); [injection H as <- <- <-; destruct w; auto|].
  destruct (py_in h (other_snake_of w g)); [injection H as <- <- <-; destruct w; auto|].
  destruct (py_in h (food_positions (set_snake w g (h :: snake_of w g)))).
  - destruct (spawn_food o k _) as [[b g4] k4] eqn:Hspawn.
    injection H as <- <- <-.
    apply spawn_food_loop_frame in Hspawn. rewrite Hspawn.
    destruct w; auto.
  - injection H as <- <- <-. destruct w; auto.
Qed.

(** The cap is tested before the tick is counted: it ends the match on the
    tick that starts with 200 turns counted, not on the tick that brings
    the count to 200. When it fires the winner is settled by score, a tie
    giving no winner. *)
Lemma snake_turn_cap_checked_before_counting o k g r g' k' :
  game_over g = false ->
  update_game_state o k g = Some (r, g', k') ->
  turn_count g' = turn_count g + 1
  /\ (200 <= turn_count g -> game_over g' = true /\ winner g' = by_score g')
  /\ (turn_count g < 200 -> player1_alive g' = true -> player2_alive g' = true ->
      game_over g' = false).
Proof.
  intros Hover H. unfold update_game_state in H. rewrite Hover in H.
  assert (Hfirst : exists m1 g1 k1,
             (if player1_alive g
              then '(result1, g0, k0) ← move_player_snake o k g (player1_id g);
                   Some (Some (message result1), g0, k0)
              else Some (None, g, k)) = Some (m1, g1, k1)
             /\ turn_count g1 = turn_count g /\ game_over g1 = false).
  { destruct (player1_alive g).
    - destruct (move_player_snake o k g (player1_id g)) as [[[r1 g1] k1]|] eqn:Hm;
        simpl in H |- *; [|discriminate].
      destruct (move_player_snake_frame _ _ _ _ _ _ _ Hm) as (Ht & Ho & _).
      exists (Some (message r1)), g1, k1. rewrite Ho. auto.
    - exists None, g, k. auto. }
  destruct Hfirst as (m1 & g1 & k1 & Heq1 & Ht1 & Ho1). rewrite Heq1 in H. simpl in H.
  assert (Hsecond : exists m2 g2 k2,
             (if player2_alive g1
              then '(result2, g0, k0) ← move_player_snake o k1 g1 (player2_id g1);
                   Some (Some (message result2), g0, k0)
              else Some (None, g1, k1)) = Some (m2, g2, k2)
             /\ turn_count g2 = turn_count g /\ game_over g2 = false).
  { destruct (player2_alive g1).
    - destruct (move_player_snake o k1 g1 (player2_id g1)) as [[[r2 g2] k2]|] eqn:Hm;
        simpl in H |- *; [|discriminate].
      destruct (move_player_snake_frame _ _ _ _ _ _ _ Hm) as (Ht & Ho & _).
      exists (Some (message r2)), g2, k2. rewrite Ho, Ht. auto.
    - exists None, g1, k1. auto. }
  destruct Hsecond as (m2 & g2 & k2 & Heq2 & Ht2 & Ho2). rewrite Heq2 in H. simpl in H.
  injection H as <- <- <-. simpl.
  unfold check_game_over.
  destruct (player1_alive g2) eqn:Ha1, (player2_alive g2) eqn:Ha2; simpl;
    rewrite ?Ht2;
    destruct (Z.geb_spec (turn_count g) 200); simpl;
    rewrite ?Ht2, ?Ha1, ?Ha2, ?Ho2;
    (split; [reflexivity|]); (split; [intros; try lia; auto|]);
    intros; try lia; try discriminate; auto.
Qed.

End SnakeCap.

(** ** Operations on a finished match *)

Section AfterGameOver.

Import Scenario.

(** In a finished match the moves and ticks of the three engines are
    refused and change nothing. *)
Lemma tetris_move_refused_when_over o k g pid direction :
  Tetris.game_over g = true ->
  Tetris.move_piece o k g pid direction
  = Some (Tetris.mkResult false Tetris.GameIsOver, g, k).
Proof. intros Hover. unfold Tetris.move_piece. rewrite Hover. reflexivity. Qed.

Lemma snake_move_refused_when_over g pid direction :
  Snake.game_over g = true ->
  Snake.move_snake g pid direction = (Snake.mkResult false Snake.GameIsOver, g).
Proof. intros Hover. unfold Snake.move_snake. rewrite Hover. reflexivity. Qed.

Lemma snake_tick_refused_when_over o k g :
  Snake.game_over g = true ->
  Snake.update_game_state o k g = Some (Snake.mkResult false Snake.GameIsOver, g, k).
Proof. intros Hover. unfold Snake.update_game_state. rewrite Hover. reflexivity. Qed.

Lemma pong_move_refused_when_over g pid direction :
  Pong.game_over g = true ->
  Pong.move_paddle g pid direction = (Pong.mkResult false Pong.GameIsOver, g).
Proof. intros Hover. unfold Pong.move_paddle. rewrite Hover. reflexivity. Qed.

Lemma pong_tick_refused_when_over o k g :
  Pong.game_over g = true ->
  Pong.update_ball o k g = (Pong.mkResult false Pong.GameIsOver, g, k)
  /\ Pong.simulate_turn o k g = (Pong.mkResult false Pong.GameIsOver, g, k).
Proof.
  intros Hover. unfold Pong.simulate_turn, Pong.update_ball. rewrite Hover. auto.
Qed.

(** C8. Two operations escape the guard. In the finished Tetris match
    [tetris_after_drop], [drop_piece] leaves the state alone but reports
    success. In the finished Snake match [snake_finished], [auto_move]
    for player 1 reports success and rewrites the stored heading from
    ["up"] to ["left"]. *)
Theorem finished_match_still_accepts_operations :
  (Tetris.game_over tetris_after_drop = true
   /\ Tetris.drop_piece 1 (always 1) 13 tetris_after_drop 1
      = Py.Done (Tetris.mkResult true Tetris.PieceDropped, tetris_after_drop, 13%nat))
  /\ (Snake.game_over snake_finished = true
      /\ Snake.player1_direction snake_finished = "up"
      /\ exists g',
          Snake.auto_move snake_finished 1
          = Some (Snake.mkResult true (Snake.ChangedDirection "left"), g')
          /\ Snake.player1_direction g' = "left").
Proof.
  split; [split|split; [|split]]; try (vm_compute; reflexivity).
  vm_compute. eexists. split; reflexivity.
Qed.

End AfterGameOver.

(** ** Ping Pong: what holds in every reachable state, and the tick in detail *)

Section PongCoverage.

Import Pong PongInv.

Lemma choice_vel_x o k : (Py.choice o k (-1) [-1; 1]).1 = -1 \/ (Py.choice o k (-1) [-1; 1]).1 = 1.
Proof.
  unfold Py.choice, Py.randbelow. simpl.
  destruct (Z.to_nat _) as [|[|[|n]]]; simpl; auto.
Qed.

Lemma choice_vel_y o k : -1 <= (Py.choice o k (-1) [-1; 0; 1]).1 <= 1.
Proof.
  unfold Py.choice, Py.randbelow. simpl.
  destruct (Z.to_nat _) as [|[|[|[|n]]]]; simpl; lia.
Qed.

Lemma reset_ball_spec o k g :
  exists vx vy,
    (vx = -1 \/ vx = 1) /\ -1 <= vy <= 1
    /\ reset_ball o k g = (with_ball g (field_width / 2) (field_height / 2) vx vy 0, S (S k)).
Proof.
  unfold reset_ball.
  pose proof (choice_vel_x o k) as Hx. pose proof (choice_vel_y o (S k)) as Hy.
  destruct (Py.choice o k (-1) [-1; 1]) as [vx k1] eqn:E1.
  assert (k1 = S k) by (unfold Py.choice, Py.randbelow in E1; simpl in E1; congruence). subst k1.
  destruct (Py.choice o (S k) (-1) [-1; 0; 1]) as [vy k2] eqn:E2.
  assert (k2 = S (S k)) by (unfold Py.choice, Py.randbelow in E2; simpl in E2; congruence). subst k2.
  exists vx, vy. simpl in Hx, Hy. auto.
Qed.

Lemma next_row_cases g :
  (ball_y g + ball_vel_y g <= 0 /\ next_row g = 0)
  \/ (0 < ball_y g + ball_vel_y g /\ field_height - 1 <= ball_y g + ball_vel_y g /\ next_row g = field_height - 1)
  \/ (0 < ball_y g + ball_vel_y g < field_height - 1 /\ next_row g = ball_y g + ball_vel_y g).
Proof. unfold next_row, field_height. lia. Qed.

Lemma update_ball_cases o k g :
  game_over g = false ->
  let g1 := with_vel_y g (bounced_vel_y g) in
  let nx := ball_x g + ball_vel_x g in
  match check_paddle_collision g1 nx (next_row g) with
  | Some c =>
      update_ball o k g
      = (mkResult true (PaddleHit (rally_count g + 1)),
         with_turn_count
           (with_ball g1 (ball_x g) (ball_y g) (new_vel_x c) (new_vel_y c) (rally_count g + 1))
           (turn_count g + 1), k)
  | None =>
      if nx <=? 0 then
        exists vx vy g2,
          (vx = -1 \/ vx = 1) /\ -1 <= vy <= 1
          /\ g2 = check_game_over
                   (with_ball (with_scores g1 (player1_score g) (player2_score g + 1))
                      (field_width / 2) (field_height / 2) vx vy 0)
          /\ update_ball o k g
             = (mkResult true (Player2Scores (player1_score g) (player2_score g + 1)),
                with_turn_count g2 (turn_count g2 + 1), S (S k))
      else if nx >=? field_width - 1 then
        exists vx vy g2,
          (vx = -1 \/ vx = 1) /\ -1 <= vy <= 1
          /\ g2 = check_game_over
                   (with_ball (with_scores g1 (player1_score g + 1) (player2_score g))
                      (field_width / 2) (field_height / 2) vx vy 0)
          /\ update_ball o k g
             = (mkResult true (Player1Scores (player1_score g + 1) (player2_score g)),
                with_turn_count g2 (turn_count g2 + 1), S (S k))
      else
        update_ball o k g
        = (mkResult true BallMoved,
           with_turn_count
             (with_ball g1 nx (next_row g) (ball_vel_x g) (bounced_vel_y g) (rally_count g))
             (turn_count g + 1), k)
  end.
Proof.
  intros Hrun. cbv zeta.
  destruct g as [sid p1 p2 y1 y2 bx byy vx vy s1 s2 over w rally target turns].
  simpl in Hrun. subst over.
  unfold update_ball, bounced_vel_y, next_row.
  cbn [game_over ball_x ball_y ball_vel_x ball_vel_y rally_count turn_count
       player1_score player2_score]. cbv zeta.
  assert (Hrow : forall x, Z.max 0 (Z.min (field_height - 1) x)
                           = if x <=? 0 then 0
                             else if x >=? field_height - 1 then field_height - 1 else x).
  { intros x. unfold field_height. rewrite Z.geb_leb.
    destruct (Z.leb_spec x 0); [lia|]. destruct (Z.leb_spec (10 - 1) x); lia. }
  rewrite Hrow.
  destruct (byy + vy <=? 0); [|destruct (byy + vy >=? field_height - 1)];
    cbv iota beta;
    unfold with_vel_y, with_ball, with_scores, with_turn_count;
    cbn [session_id player1_id player2_id player1_paddle_y player2_paddle_y
         ball_x ball_y ball_vel_x ball_vel_y player1_score player2_score
         game_over winner rally_count max_score turn_count];
    (match goal with
     | |- match ?chk with _ => _ end => destruct chk as [c|]
     end; [reflexivity|]);
    (destruct (bx + vx <=? 0); [|destruct (bx + vx >=? field_width - 1); [|reflexivity]]);
    match goal with
    | |- context [reset_ball o k ?x] =>
        destruct (reset_ball_spec o k x) as (vx' & vy' & Hvx & Hvy & ->)
    end;
    exists vx', vy'; eexists; (split; [exact Hvx|]); (split; [exact Hvy|]);
    (split; [reflexivity|]); reflexivity.
Qed.


Lemma check_paddle_collision_cases g nx ny :
  (nx <= 1 /\ ball_vel_x g < 0
   /\ player1_paddle_y g <= ny < player1_paddle_y g + paddle_height
   /\ check_paddle_collision g nx ny
      = Some (mkCollision 2 ny 1 (ny - (player1_paddle_y g + 1))))
  \/ (field_width - 2 <= nx /\ 0 < ball_vel_x g
      /\ player2_paddle_y g <= ny < player2_paddle_y g + paddle_height
      /\ check_paddle_collision g nx ny
         = Some (mkCollision (field_width - 3) ny (-1) (ny - (player2_paddle_y g + 1))))
  \/ (~ (nx <= 1 /\ ball_vel_x g < 0
         /\ player1_paddle_y g <= ny < player1_paddle_y g + paddle_height)
      /\ ~ (field_width - 2 <= nx /\ 0 < ball_vel_x g
            /\ player2_paddle_y g <= ny < player2_paddle_y g + paddle_height)
      /\ check_paddle_collision g nx ny = None).
Proof.
  unfold check_paddle_collision, paddle_height, field_width.
  rewrite !Z.geb_leb, !Z.gtb_ltb.
  destruct (Z.leb_spec nx 1), (Z.ltb_spec (ball_vel_x g) 0),
    (Z.leb_spec (player1_paddle_y g) ny), (Z.ltb_spec ny (player1_paddle_y g + 3));
    simpl; try (left; repeat split; lia);
    destruct (Z.leb_spec (20 - 2) nx), (Z.ltb_spec 0 (ball_vel_x g)),
      (Z.leb_spec (player2_paddle_y g) ny), (Z.ltb_spec ny (player2_paddle_y g + 3));
    simpl; try (right; left; repeat split; lia);
    right; right; (split; [lia|split; [lia|reflexivity]]).
Qed.

(** [check_game_over] settles the outcome from the scores, the target and
    the turn counter alone, and touches nothing else. *)
Lemma check_game_over_frame g :
  let g' := check_game_over g in
  player1_paddle_y g' = player1_paddle_y g /\ player2_paddle_y g' = player2_paddle_y g
  /\ ball_x g' = ball_x g /\ ball_y g' = ball_y g
  /\ ball_vel_x g' = ball_vel_x g /\ ball_vel_y g' = ball_vel_y g
  /\ player1_score g' = player1_score g /\ player2_score g' = player2_score g
  /\ max_score g' = max_score g /\ rally_count g' = rally_count g
  /\ turn_count g' = turn_count g
  /\ player1_id g' = player1_id g /\ player2_id g' = player2_id g.
Proof.
  unfold check_game_over.
  destruct (player1_score g >=? max_score g);
    [|destruct (player2_score g >=? max_score g)];
    match goal with |- context [turn_count ?s >=? 500] => destruct (turn_count s >=? 500) end;
    repeat split; reflexivity.
Qed.

Lemma check_game_over_outcome g :
  max_score g = 11 -> game_over g = false -> winner g = None ->
  (player1_score g < 11 \/ player2_score g < 11) ->
  (game_over (check_game_over g) = false ->
   winner (check_game_over g) = None /\ player1_score g < 11 /\ player2_score g < 11)
  /\ (game_over (check_game_over g) = true ->
      winner (check_game_over g) = by_score g).
Proof.
  destruct g as [sid p1 p2 y1 y2 bx byy vx vy s1 s2 over w rally target turns].
  simpl. intros -> -> -> Hlt.
  unfold check_game_over, by_score, with_outcome. simpl.
  repeat (rewrite ?Z.geb_leb, ?Z.gtb_ltb;
          match goal with
          | |- context [Z.leb ?a ?b] => destruct (Z.leb_spec a b)
          | |- context [Z.ltb ?a ?b] => destruct (Z.ltb_spec a b)
          end; simpl);
    repeat split; intros; try discriminate; try lia; auto.
Qed.

Lemma check_game_over_same_outcome g h :
  player1_score g = player1_score h -> player2_score g = player2_score h ->
  max_score g = max_score h -> turn_count g = turn_count h ->
  player1_id g = player1_id h -> player2_id g = player2_id h ->
  game_over g = game_over h -> winner g = winner h ->
  game_over (check_game_over g) = game_over (check_game_over h)
  /\ winner (check_game_over g) = winner (check_game_over h).
Proof.
  intros E1 E2 E3 E4 E5 E6 E7 E8. unfold check_game_over.
  rewrite E1, E2, E3.
  destruct (player1_score h >=? max_score h);
    [|destruct (player2_score h >=? max_score h)];
    cbn [with_outcome turn_count player1_score player2_score player1_id player2_id];
    rewrite ?E1, ?E2, ?E4, ?E5, ?E6;
    destruct (turn_count h >=? 500); cbn [with_outcome game_over winner];
    auto.
Qed.

(** One tick of a running match, field by field: the ball is returned by a
    paddle, or a point is scored, or the ball moves on. *)
Lemma update_ball_step o k g :
  game_over g = false ->
  let g' := (update_ball o k g).1.2 in
  let nx := ball_x g + ball_vel_x g in
  success (update_ball o k g).1.1 = true
  /\ player1_paddle_y g' = player1_paddle_y g /\ player2_paddle_y g' = player2_paddle_y g
  /\ max_score g' = max_score g /\ turn_count g' = turn_count g + 1
  /\ player1_id g' = player1_id g /\ player2_id g' = player2_id g
  /\ ((exists w,
          meets_paddle w g
          /\ ball_x g' = ball_x g /\ ball_y g' = ball_y g
          /\ ball_vel_x g' = match w with P1 => 1 | P2 => -1 end
          /\ ball_vel_y g' = next_row g - (paddle_y_of w g + 1)
          /\ rally_count g' = rally_count g + 1
          /\ player1_score g' = player1_score g /\ player2_score g' = player2_score g
          /\ game_over g' = false /\ winner g' = winner g
          /\ (update_ball o k g).2 = k)
      \/ (exists s1 s2,
             ((s1 = player1_score g /\ s2 = player2_score g + 1 /\ nx <= 0)
              \/ (s1 = player1_score g + 1 /\ s2 = player2_score g
                  /\ field_width - 1 <= nx))
             /\ ~ meets_paddle P1 g /\ ~ meets_paddle P2 g
             /\ player1_score g' = s1 /\ player2_score g' = s2
             /\ ball_x g' = field_width / 2 /\ ball_y g' = field_height / 2
             /\ (ball_vel_x g' = -1 \/ ball_vel_x g' = 1) /\ -1 <= ball_vel_y g' <= 1
             /\ rally_count g' = 0
             /\ game_over g' = game_over (check_game_over (with_scores g s1 s2))
             /\ winner g' = winner (check_game_over (with_scores g s1 s2))
             /\ (update_ball o k g).2 = S (S k))
      \/ (0 < nx < field_width - 1
          /\ ~ meets_paddle P1 g /\ ~ meets_paddle P2 g
          /\ ball_x g' = nx /\ ball_y g' = next_row g
          /\ ball_vel_x g' = ball_vel_x g /\ ball_vel_y g' = bounced_vel_y g
          /\ rally_count g' = rally_count g
          /\ player1_score g' = player1_score g /\ player2_score g' = player2_score g
          /\ game_over g' = false /\ winner g' = winner g
          /\ (update_ball o k g).2 = k)).
Proof.
  intros Hrun. cbv zeta.
  pose proof (update_ball_cases o k g Hrun) as Hcases. cbv zeta in Hcases.
  destruct (check_paddle_collision_cases (with_vel_y g (bounced_vel_y g))
              (ball_x g + ball_vel_x g) (next_row g))
    as [(H1 & H2 & H3 & Hc) | [(H1 & H2 & H3 & Hc) | (Hn1 & Hn2 & Hc)]];
    rewrite Hc in Hcases.
  - rewrite Hcases. destruct g; simpl in *. subst.
    repeat split; try reflexivity.
    left. exists P1. unfold meets_paddle. simpl. repeat split; auto; lia.
  - rewrite Hcases. destruct g; simpl in *. subst.
    repeat split; try reflexivity.
    left. exists P2. unfold meets_paddle. simpl. repeat split; auto; lia.
  - assert (Hm1 : ~ meets_paddle P1 g) by (destruct g; exact Hn1).
    assert (Hm2 : ~ meets_paddle P2 g) by (destruct g; exact Hn2).
    destruct (Z.leb_spec (ball_x g + ball_vel_x g) 0) as [Hleft|Hleft].
    + destruct Hcases as (vx & vy & g2 & Hvx & Hvy & -> & ->).
      match goal with
      | |- context [check_game_over ?x] =>
          destruct (check_game_over_frame x)
            as (E1 & E2 & E3 & E4 & E5 & E6 & E7 & E8 & E9 & E10 & E11 & E12 & E13)
      end.
      cbn [fst snd with_turn_count player1_paddle_y player2_paddle_y max_score turn_count
           player1_id player2_id ball_x ball_y ball_vel_x ball_vel_y rally_count
           player1_score player2_score game_over winner success].
      rewrite E1, E2, E3, E4, E5, E6, E7, E8, E9, E10, E11, E12, E13.
      destruct g; simpl in *.
      repeat split; try reflexivity.
      right; left. exists player1_score0, (player2_score0 + 1).
      repeat split; auto; try lia;
        apply check_game_over_same_outcome; reflexivity.
    + rewrite Z.geb_leb in Hcases.
      destruct (Z.leb_spec (field_width - 1) (ball_x g + ball_vel_x g)) as [Hright|Hright].
      * destruct Hcases as (vx & vy & g2 & Hvx & Hvy & -> & ->).
        match goal with
        | |- context [check_game_over ?x] =>
            destruct (check_game_over_frame x)
              as (E1 & E2 & E3 & E4 & E5 & E6 & E7 & E8 & E9 & E10 & E11 & E12 & E13)
        end.
        cbn [fst snd with_turn_count player1_paddle_y player2_paddle_y max_score turn_count
             player1_id player2_id ball_x ball_y ball_vel_x ball_vel_y rally_count
             player1_score player2_score game_over winner success].
        rewrite E1, E2, E3, E4, E5, E6, E7, E8, E9, E10, E11, E12, E13.
        destruct g; simpl in *.
        repeat split; try reflexivity.
        right; left. exists (player1_score0 + 1), player2_score0.
        repeat split; auto; try lia;
          apply check_game_over_same_outcome; reflexivity.
      * rewrite Hcases. destruct g; simpl in *. subst.
        repeat split; try reflexivity.
        right; right. repeat split; auto; lia.
Qed.


Lemma bounced_range g : -1 <= ball_vel_y g <= 1 -> -1 <= bounced_vel_y g <= 1.
Proof.
  intros Hvy. unfold bounced_vel_y.
  destruct (ball_y g + ball_vel_y g <=? 0); [lia|].
  destruct (ball_y g + ball_vel_y g >=? field_height - 1); lia.
Qed.

Lemma init_invariant o k sid p1 p2 : invariant (init o k sid p1 p2).1.
Proof.
  unfold init.
  pose proof (choice_vel_x o k) as Hx. pose proof (choice_vel_y o (S k)) as Hy.
  destruct (Py.choice o k (-1) [-1; 1]) as [vx k1] eqn:E1.
  assert (k1 = S k) by (unfold Py.choice, Py.randbelow in E1; simpl in E1; congruence).
  subst k1.
  destruct (Py.choice o (S k) (-1) [-1; 0; 1]) as [vy k2]. simpl in Hx, Hy |- *.
  unfold invariant, paddles_in_field, ball_in_field, outcome_by_score. simpl.
  repeat split; auto; try lia; try discriminate.
Qed.

Lemma move_paddle_invariant g pid d : invariant g -> invariant (move_paddle g pid d).2.
Proof.
  intros Hinv. unfold move_paddle.
  destruct (game_over g); [exact Hinv|].
  destruct (who g pid) as [w|]; [|exact Hinv].
  destruct (String.eqb d "up"); [|destruct (String.eqb d "down"); [|exact Hinv]];
    destruct g, w; unfold invariant, paddles_in_field, ball_in_field, outcome_by_score,
      by_score, field_height, paddle_height in *; simpl in *; intuition lia.
Qed.

Lemma auto_move_paddle_invariant g pid : invariant g -> invariant (auto_move_paddle g pid).2.
Proof.
  intros Hinv. unfold auto_move_paddle.
  destruct (game_over g); [exact Hinv|].
  destruct (who g pid) as [w|]; [|exact Hinv].
  match goal with |- context [if ?c then _ else _] => destruct c end;
    [apply move_paddle_invariant; exact Hinv|].
  match goal with |- context [if ?c then _ else _] => destruct c end;
    [apply move_paddle_invariant; exact Hinv|exact Hinv].
Qed.

Lemma update_ball_invariant o k g : invariant g -> invariant (update_ball o k g).1.2.
Proof.
  intros Hinv. destruct (game_over g) eqn:Hover.
  { unfold update_ball. rewrite Hover. exact Hinv. }
  destruct (update_ball_step o k g Hover)
    as (_ & Ep1 & Ep2 & Emax & _ & Eid1 & Eid2 & Hstep).
  pose proof (next_row_cases g) as Hrow.
  destruct Hinv as ((Hy1 & Hy2) & (Hbx & Hby & Hvx & Hvy) & (Hmax & Hs1 & Hs2 & Hrun & _)).
  destruct (Hrun Hover) as (Hwin & Hlt1 & Hlt2).
  pose proof (bounced_range g Hvy) as Hbounce.
  unfold invariant, paddles_in_field, ball_in_field, outcome_by_score.
  rewrite Ep1, Ep2, Emax.
  destruct Hstep as [(w & Hmeet & Ex & Ey & Evx & Evy & _ & Es1 & Es2 & Eover & Ewin & _)
                    |[(s1 & s2 & Hwho & _ & _ & Es1 & Es2 & Ex & Ey & Evx & Evy & _
                       & Eover & Ewin & _)
                     |(Hnx & _ & _ & Ex & Ey & Evx & Evy & _ & Es1 & Es2 & Eover & Ewin & _)]];
    rewrite Ex, Ey, Es1, Es2.
  - rewrite Evx, Evy, Eover, Ewin.
    repeat split; try lia; try discriminate; auto.
    + destruct w; auto.
    + destruct w; unfold meets_paddle, paddle_y_of, paddle_height in *; lia.
    + destruct w; unfold meets_paddle, paddle_y_of, paddle_height in *; lia.
  - assert (Hpre : max_score (with_scores g s1 s2) = 11
                   /\ game_over (with_scores g s1 s2) = false
                   /\ winner (with_scores g s1 s2) = None
                   /\ player1_score (with_scores g s1 s2) = s1
                   /\ player2_score (with_scores g s1 s2) = s2
                   /\ player1_id (with_scores g s1 s2) = player1_id g
                   /\ player2_id (with_scores g s1 s2) = player2_id g)
      by (repeat split; assumption).
    destruct Hpre as (Q1 & Q2 & Q3 & Q4 & Q5 & Q6 & Q7).
    destruct (check_game_over_outcome (with_scores g s1 s2) Q1 Q2 Q3) as (Hr & Ho).
    { rewrite Q4, Q5. lia. }
    rewrite Q4, Q5 in Hr. unfold by_score in Ho |- *.
    rewrite Q4, Q5, Q6, Q7 in Ho. rewrite Eover, Ewin, Eid1, Eid2, Es1, Es2.
    split; [split; assumption|]. split.
    + unfold field_width, field_height.
      change (20 `div` 2) with 10; change (10 `div` 2) with 5.
      repeat split; lia.
    + split; [exact Hmax|]. split; [lia|]. split; [lia|]. split.
      * intros Hg. destruct (Hr Hg) as (Hw & ? & ?). auto.
      * exact Ho.
  - rewrite Evx, Evy, Eover, Ewin.
    unfold field_width, field_height in *.
    repeat split; try lia; try discriminate; auto.
Qed.

Lemma simulate_turn_is_update_ball o k g : simulate_turn o k g = update_ball o k g.
Proof.
  unfold simulate_turn, update_ball. destruct (game_over g); reflexivity.
Qed.

Lemma restore_is_identity o k g g' k' : from_json o k (to_json g) = Some (g', k') -> g' = g.
Proof.
  intros H. pose proof (pong_restore_snapshot o k g) as Hfst.
  rewrite H in Hfst. simpl in Hfst. congruence.
Qed.

Lemma reachable_invariant g : reachable g -> invariant g.
Proof.
  induction 1 as [o k sid p1 p2 | g pid d _ IH | g pid _ IH | o k g _ IH | o k g _ IH
                 | o k g g' k' _ IH Hrestore].
  - apply init_invariant.
  - apply move_paddle_invariant; exact IH.
  - apply auto_move_paddle_invariant; exact IH.
  - apply update_ball_invariant; exact IH.
  - rewrite simulate_turn_is_update_ball. apply update_ball_invariant; exact IH.
  - rewrite (restore_is_identity _ _ _ _ _ Hrestore). exact IH.
Qed.


(** X1. In every reachable state both paddles lie fully within the field:
    their offsets stay between 0 and [field_height - paddle_height]. *)
Theorem pong_paddles_stay_in_field g : reachable g -> paddles_in_field g.
Proof. intros H. apply reachable_invariant in H. apply H. Qed.

Lemma pong_paddles_stay_in_field_witness :
  paddles_in_field (update_ball (fun _ => 2) 2 (move_paddle sample 1 "up").2).1.2.
Proof.
  apply pong_paddles_stay_in_field.
  apply reach_update_ball, reach_move_paddle, reach_init.
Defined.

(** X2. In every reachable state the ball is inside the field, columns 1
    to 18 and rows 0 to 9, its horizontal velocity is -1 or 1 and its
    vertical velocity -1, 0 or 1. *)
Theorem pong_ball_stays_in_field g : reachable g -> ball_in_field g.
Proof. intros H. apply reachable_invariant in H. apply H. Qed.

Lemma pong_ball_stays_in_field_witness :
  ball_in_field (update_ball (fun _ => 2) 2 (update_ball (fun _ => 2) 2 sample).1.2).1.2.
Proof.
  apply pong_ball_stays_in_field.
  apply reach_update_ball, reach_update_ball, reach_init.
Defined.

(** X3. In every reachable state the target is 11 and the scores are not
    negative; while the match runs there is no winner and both scores are
    below 11; once it is over the winner is the player with the strictly
    higher score, and nobody when the scores are equal. *)
Theorem pong_outcome_follows_score g : reachable g -> outcome_by_score g.
Proof. intros H. apply reachable_invariant in H. apply H. Qed.

Lemma pong_outcome_follows_score_witness :
  outcome_by_score (simulate_turn (fun _ => 2) 2 (auto_move_paddle sample 2).2).1.2.
Proof.
  apply pong_outcome_follows_score.
  apply reach_simulate_turn, reach_auto_move_paddle, reach_init.
Defined.

(** X4. A tick of a running match is counted once and scores at most one
    point. Player 2 gets the point exactly when the ball's next column is 0
    or less and player 1's paddle does not meet it, player 1 when the next
    column is 19 or more and player 2's paddle does not meet it; the ball
    then restarts from the center with the rally counter at 0. In every
    other case the scores stay as they are. *)
Theorem pong_tick_scores_at_most_one_point o k g :
  game_over g = false ->
  let g' := (update_ball o k g).1.2 in
  let nx := ball_x g + ball_vel_x g in
  turn_count g' = turn_count g + 1
  /\ (nx <= 0 /\ ~ meets_paddle P1 g ->
      player1_score g' = player1_score g /\ player2_score g' = player2_score g + 1
      /\ ball_x g' = 10 /\ ball_y g' = 5 /\ rally_count g' = 0)
  /\ (field_width - 1 <= nx /\ ~ meets_paddle P2 g ->
      player1_score g' = player1_score g + 1 /\ player2_score g' = player2_score g
      /\ ball_x g' = 10 /\ ball_y g' = 5 /\ rally_count g' = 0)
  /\ (~ (nx <= 0 /\ ~ meets_paddle P1 g)
      /\ ~ (field_width - 1 <= nx /\ ~ meets_paddle P2 g) ->
      player1_score g' = player1_score g /\ player2_score g' = player2_score g).
Proof.
  intros Hrun. cbv zeta.
  destruct (update_ball_step o k g Hrun) as (_ & _ & _ & _ & Eturn & _ & _ & Hstep).
  split; [exact Eturn|].
  unfold field_width in *. change (20 `div` 2) with 10 in Hstep.
  unfold field_height in Hstep. change (10 `div` 2) with 5 in Hstep.
  destruct Hstep as [(w & Hmeet & _ & _ & _ & _ & _ & Es1 & Es2 & _)
                    |[(s1 & s2 & Hwho & Hn1 & Hn2 & Es1 & Es2 & Ex & Ey & _ & _ & Er & _)
                     |(Hnx & Hn1 & Hn2 & _ & _ & _ & _ & _ & Es1 & Es2 & _)]].
  - split; [|split].
    + intros (Hnx & Hmiss). exfalso.
      destruct w; [contradiction|]. unfold meets_paddle, field_width in Hmeet. lia.
    + intros (Hnx & Hmiss). exfalso.
      destruct w; [|contradiction]. unfold meets_paddle in Hmeet. lia.
    + intros _. split; assumption.
  - split; [|split].
    + intros (Hnx & _). destruct Hwho as [(-> & -> & _)|(_ & _ & Hnx')]; [|lia].
      repeat split; assumption.
    + intros (Hnx & _). destruct Hwho as [(_ & _ & Hnx')|(-> & -> & _)]; [lia|].
      repeat split; assumption.
    + intros (Hno1 & Hno2). exfalso.
      destruct Hwho as [(_ & _ & Hnx)|(_ & _ & Hnx)]; [apply Hno1|apply Hno2]; auto.
  - split; [|split].
    + intros (Hnx' & _). lia.
    + intros (Hnx' & _). lia.
    + intros _. split; assumption.
Qed.

Lemma pong_tick_scores_at_most_one_point_witness :
  player2_score (update_ball (fun _ => 2) 0 passing).1.2 = 1
  /\ ball_x (update_ball (fun _ => 2) 0 passing).1.2 = 10.
Proof.
  destruct (pong_tick_scores_at_most_one_point (fun _ => 2) 0 passing eq_refl)
    as (_ & Hpoint & _).
  destruct Hpoint as (_ & E2 & Ex & _).
  - split; [vm_compute; discriminate|].
    unfold meets_paddle, next_row. vm_compute. intros (_ & _ & _ & H). discriminate H.
  - split; [exact E2 | exact Ex].
Defined.


(** X5. When the ball of a running match is about to cross the plane of a
    paddle, moving towards it, in a row the paddle covers, the tick returns
    it: the horizontal velocity points away from that paddle, the vertical
    velocity is the offset of the ball's row from the paddle's center (-1,
    0 or 1), the rally counter goes up by one and the scores stay. The
    ball itself is left on the cell it was on. *)
Theorem pong_paddle_hit_returns_ball o k g w :
  game_over g = false ->
  meets_paddle w g ->
  let g' := (update_ball o k g).1.2 in
  ball_x g' = ball_x g /\ ball_y g' = ball_y g
  /\ ball_vel_x g' = match w with P1 => 1 | P2 => -1 end
  /\ ball_vel_y g' = next_row g - (paddle_y_of w g + 1)
  /\ -1 <= ball_vel_y g' <= 1
  /\ rally_count g' = rally_count g + 1
  /\ player1_score g' = player1_score g /\ player2_score g' = player2_score g
  /\ game_over g' = false.
Proof.
  intros Hrun Hmeet. cbv zeta.
  destruct (update_ball_step o k g Hrun) as (_ & _ & _ & _ & _ & _ & _ & Hstep).
  destruct Hstep as [(w' & Hmeet' & Ex & Ey & Evx & Evy & Er & Es1 & Es2 & Eover & _)
                    |[(s1 & s2 & _ & Hn1 & Hn2 & _)|(_ & Hn1 & Hn2 & _)]];
    try (destruct w; contradiction).
  assert (w' = w) as ->.
  { destruct w, w'; try reflexivity; unfold meets_paddle in *; lia. }
  repeat split; try assumption;
    rewrite Evy; destruct w; unfold meets_paddle, paddle_y_of, paddle_height in *; lia.
Qed.

Lemma pong_paddle_hit_returns_ball_witness :
  ball_x (update_ball (fun _ => 2) 0 returning).1.2 = 2
  /\ ball_vel_x (update_ball (fun _ => 2) 0 returning).1.2 = 1
  /\ rally_count (update_ball (fun _ => 2) 0 returning).1.2 = 4.
Proof.
  destruct (pong_paddle_hit_returns_ball (fun _ => 2) 0 returning P1 eq_refl)
    as (Ex & _ & Evx & _ & _ & Er & _).
  - unfold meets_paddle, next_row. vm_compute.
    repeat split; intros H; discriminate H.
  - repeat split; assumption.
Defined.

(** X6. [auto_move_paddle] for a player of a running match whose paddle is
    within the field is accepted, moves that paddle by at most one cell,
    keeps it within the field and never takes its center further from the
    ball's row; a paddle already level with the ball is left where it is,
    and the ball is not touched. *)
Theorem pong_auto_move_follows_ball g pid w :
  game_over g = false ->
  who g pid = Some w ->
  0 <= paddle_y_of w g <= field_height - paddle_height ->
  let g' := (auto_move_paddle g pid).2 in
  success (auto_move_paddle g pid).1 = true
  /\ off_center w g' <= off_center w g
  /\ 0 <= paddle_y_of w g' <= field_height - paddle_height
  /\ Z.abs (paddle_y_of w g' - paddle_y_of w g) <= 1
  /\ (off_center w g = 0 -> g' = g)
  /\ ball_x g' = ball_x g /\ ball_y g' = ball_y g.
Proof.
  intros Hrun Hwho Hrange. cbv zeta.
  unfold auto_move_paddle, move_paddle. rewrite Hrun, Hwho. simpl.
  unfold off_center, paddle_y_of, field_height, paddle_height in *.
  change (3 `div` 2) with 1.
  rewrite Z.gtb_ltb.
  destruct w;
    match goal with
    | |- context [Z.ltb (ball_y g) ?c] =>
        destruct (Z.ltb_spec (ball_y g) c); simpl;
        [|destruct (Z.ltb_spec c (ball_y g)); simpl]
    end;
    destruct g; simpl in *; repeat split; try lia; intros; try lia; reflexivity.
Qed.

Lemma pong_auto_move_follows_ball_witness :
  player1_paddle_y (auto_move_paddle passing 1).2 = 1
  /\ player2_paddle_y (auto_move_paddle returning 2).2 = 4.
Proof.
  destruct (pong_auto_move_follows_ball passing 1 P1 eq_refl eq_refl) as (_ & _ & _ & _ & _).
  { vm_compute. split; discriminate. }
  destruct (pong_auto_move_follows_ball returning 2 P2 eq_refl eq_refl)
    as (_ & _ & _ & _ & Hsame & _).
  { vm_compute. split; discriminate. }
  split; [reflexivity|]. rewrite Hsame; reflexivity.
Defined.

(** X7. The predicted ball position always lies strictly inside the
    border: column 1 to 18, row 1 to 8, whatever the position and velocity
    of the ball; for a ball that stays three steps clear of the border it
    is the position three steps ahead. *)
Theorem pong_prediction_inside_border g :
  1 <= (get_ball_prediction g).1 <= field_width - 2
  /\ 1 <= (get_ball_prediction g).2 <= field_height - 2
  /\ (1 <= ball_x g + 3 * ball_vel_x g <= field_width - 2 ->
      (get_ball_prediction g).1 = ball_x g + 3 * ball_vel_x g)
  /\ (1 <= ball_y g + 3 * ball_vel_y g <= field_height - 2 ->
      (get_ball_prediction g).2 = ball_y g + 3 * ball_vel_y g).
Proof.
  unfold get_ball_prediction, field_width, field_height. simpl. lia.
Qed.

(** X8. Reading a Ping Pong match back from its own snapshot gives the
    same match, field for field; the constructor run inside [from_json]
    has drawn twice from the generator. *)
Theorem pong_snapshot_round_trip o k g :
  from_json o k (to_json g) = Some (g, S (S k)).
Proof.
  unfold from_json, to_json. simpl.
  rewrite as_opt_int_of_opt_int. simpl.
  destruct g; reflexivity.
Qed.

End PongCoverage.
(** ** Tetris: what holds in every reachable state, and the moves in detail *)

Section TetrisCoverage.

Import Tetris TetrisInv.

(** The three ways a call of [move_piece] can end: refused, the piece
    moved, or the piece locked. *)
Lemma move_piece_cases o k g pid d r g' k' :
  move_piece o k g pid d = Some (r, g', k') ->
  (success r = false /\ g' = g /\ k' = k)
  \/ (exists w new_pos new_rotation,
         game_over g = false /\ who g pid = Some w
         /\ candidate (piece_of w g) (pos_of w g) (rotation_of w g) d
            = Some (Some (new_pos, new_rotation))
         /\ is_valid_position (board_of w g) (piece_of w g) new_pos new_rotation = Some true
         /\ r = mkResult true PieceMoved
         /\ g' = set_piece w g new_pos new_rotation /\ k' = k)
  \/ (exists w,
         game_over g = false /\ who g pid = Some w /\ d = "down"
         /\ is_valid_position (board_of w g) (piece_of w g)
              ((pos_of w g).1 + 1, (pos_of w g).2) (rotation_of w g) = Some false
         /\ place_current_piece o k g pid = Some (r, g', k')).
Proof.
  unfold move_piece. intros H.
  destruct (game_over g) eqn:Hover; [injection H as <- <- <-; auto|].
  destruct (who g pid) as [w|] eqn:Hwho; [|injection H as <- <- <-; auto].
  destruct (candidate (piece_of w g) (pos_of w g) (rotation_of w g) d)
    as [[[new_pos new_rotation]|]|] eqn:Hcand; simpl in H;
    [| discriminate | injection H as <- <- <-; auto].
  destruct (is_valid_position (board_of w g) (piece_of w g) new_pos new_rotation)
    as [[|]|] eqn:Hvalid; simpl in H; [| |discriminate].
  - injection H as <- <- <-. right; left.
    exists w, new_pos, new_rotation. destruct w; repeat split; auto.
  - destruct (String.eqb_spec d "down") as [->|Hd].
    + right; right. exists w. repeat split; auto.
      unfold candidate in Hcand. simpl in Hcand. injection Hcand as <- <-. exact Hvalid.
    + injection H as <- <- <-. auto.
Qed.

(** A lock leaves the other player's side and the identifiers alone. *)
Lemma place_current_piece_frame o k g pid w r g' k' :
  who g pid = Some w ->
  place_current_piece o k g pid = Some (r, g', k') ->
  side (other w) g' = side (other w) g
  /\ session_id g' = session_id g
  /\ player1_id g' = player1_id g /\ player2_id g' = player2_id g
  /\ success r = true.
Proof.
  intros Hwho H. unfold place_current_piece in H. rewrite Hwho in H.
  destruct w; cbv beta iota in H.
  - destruct (place_piece _ _ _ _) as [placed|]; simpl in H; [|discriminate].
    destruct (clear_lines placed) as [new_board lines].
    destruct (get_random_piece o k) as [next kk].
    destruct (is_valid_position new_board _ _ _) as [valid|]; simpl in H; [|discriminate].
    injection H as <- <- <-. repeat split; reflexivity.
  - destruct (place_piece _ _ _ _) as [placed|]; simpl in H; [|discriminate].
    destruct (clear_lines placed) as [new_board lines].
    destruct (get_random_piece o k) as [next kk].
    destruct (is_valid_position new_board _ _ _) as [valid|]; simpl in H; [|discriminate].
    injection H as <- <- <-. repeat split; reflexivity.
Qed.

(** The piece drawn at a lock is a key of [PIECES] with its table. *)
Lemma get_random_piece_standard o k : standard (get_random_piece o k).1.
Proof.
  unfold get_random_piece, Py.choice, Py.randbelow, standard.
  cbn [fst snd length PIECES].
  assert (Hlt : (Z.to_nat (o k `mod` Z.of_nat (length PIECES)) < 7)%nat).
  { pose proof (Z.mod_pos_bound (o k) 7 ltac:(lia)). simpl. lia. }
  destruct (Z.to_nat _) as [|[|[|[|[|[|[|n]]]]]]]; [..|lia];
    simpl; repeat (try (left; reflexivity); right).
Qed.

Lemma place_current_piece_next o k g pid w r g' k' :
  who g pid = Some w ->
  place_current_piece o k g pid = Some (r, g', k') ->
  next_piece_of w g' = (get_random_piece o k).1 /\ k' = S k.
Proof.
  intros Hwho H. unfold place_current_piece in H. rewrite Hwho in H.
  assert (Hk : (get_random_piece o k).2 = S k) by reflexivity.
  destruct w; cbv beta iota in H.
  - destruct (place_piece _ _ _ _) as [placed|]; cbn [mbind option_bind] in H; [|discriminate].
    destruct (clear_lines placed) as [new_board lines].
    destruct (get_random_piece o k) as [next kk].
    destruct (is_valid_position new_board _ _ _) as [valid|];
      cbn [mbind option_bind] in H; [|discriminate].
    injection H as <- <- <-. split; [reflexivity|exact Hk].
  - destruct (place_piece _ _ _ _) as [placed|]; cbn [mbind option_bind] in H; [|discriminate].
    destruct (clear_lines placed) as [new_board lines].
    destruct (get_random_piece o k) as [next kk].
    destruct (is_valid_position new_board _ _ _) as [valid|];
      cbn [mbind option_bind] in H; [|discriminate].
    injection H as <- <- <-. split; [reflexivity|exact Hk].
Qed.

(** *** Boards keep their size, and no cell access goes out of range *)

Lemma set_cell_board_ok b r c v b' :
  board_ok b -> set_cell b r c v = Some b' -> board_ok b'.
Proof.
  intros [Hlen Hrows] H. unfold set_cell in H.
  destruct (b !! r) as [line|] eqn:Hline; cbn [mbind option_bind] in H; [|discriminate].
  destruct (c <? length line)%nat; [|discriminate].
  injection H as <-. split.
  - etransitivity; [apply length_insert|exact Hlen].
  - apply Forall_insert; [exact Hrows|].
    etransitivity; [apply length_insert|].
    exact (proj1 (Forall_lookup _ _) Hrows _ _ Hline).
Qed.

Lemma set_cell_in_range b r c v :
  board_ok b -> (r < Z.to_nat board_height)%nat -> (c < Z.to_nat board_width)%nat ->
  exists b', set_cell b r c v = Some b'.
Proof.
  intros [Hlen Hrows] Hr Hc. unfold set_cell.
  destruct (b !! r) as [line|] eqn:Hline; cbn [mbind option_bind].
  - pose proof (proj1 (Forall_lookup _ _) Hrows _ _ Hline) as Hwide.
    simpl in Hwide.
    destruct (Nat.ltb_spec c (length line)); [eauto|lia].
  - apply lookup_ge_None_1 in Hline. lia.
Qed.

Lemma place_line_board_ok line : forall b new_row col j v,
  board_ok b ->
  exists b', place_line b new_row col j v line = Some b' /\ board_ok b'.
Proof.
  induction line as [|cell rest IH]; intros b new_row col j v Hb; simpl.
  - eauto.
  - destruct (is_hash cell); [|apply IH; exact Hb].
    destruct ((0 <=? new_row) && (new_row <? board_height)
              && (0 <=? col + j) && (col + j <? board_width)) eqn:Hin;
      [|apply IH; exact Hb].
    apply andb_prop in Hin as [Hin H4]. apply andb_prop in Hin as [Hin H3].
    apply andb_prop in Hin as [H1 H2].
    apply Z.leb_le in H1, H3. apply Z.ltb_lt in H2, H4.
    destruct (set_cell_in_range b (Z.to_nat new_row) (Z.to_nat (col + j)) v Hb)
      as [b1 Hset]; [lia..|].
    rewrite Hset. cbn [mbind option_bind].
    apply IH. eapply set_cell_board_ok; eassumption.
Qed.

Lemma place_shape_board_ok shape : forall b row col i v,
  board_ok b ->
  exists b', place_shape b row col i v shape = Some b' /\ board_ok b'.
Proof.
  induction shape as [|line rest IH]; intros b row col i v Hb; simpl.
  - eauto.
  - destruct (place_line_board_ok (list_ascii_of_string line) b (row + i) col 0 v Hb)
      as (b1 & -> & Hb1).
    cbn [mbind option_bind]. apply IH. exact Hb1.
Qed.

Lemma standard_shapes p : standard p -> shapes p <> [].
Proof.
  unfold standard, PIECES. intros H Hnil. rewrite Hnil in H. simpl in H.
  repeat (destruct H as [H|H]; [discriminate|]). exact H.
Qed.

Lemma get_piece_shape_total p rotation :
  shapes p <> [] -> exists shape, get_piece_shape p rotation = Some shape.
Proof.
  intros Hne. unfold get_piece_shape.
  destruct (shapes p) as [|s0 rest] eqn:Hsh; [contradiction|].
  apply lookup_lt_is_Some_2.
  pose proof (Z.mod_pos_bound rotation (Z.of_nat (length (s0 :: rest)))
                ltac:(simpl; lia)).
  lia.
Qed.

Lemma place_piece_board_ok b p pos rotation :
  board_ok b -> shapes p <> [] ->
  exists b', place_piece b p pos rotation = Some b' /\ board_ok b'.
Proof.
  intros Hb Hne. unfold place_piece.
  destruct (get_piece_shape_total p rotation Hne) as [shape ->].
  cbn [mbind option_bind]. apply place_shape_board_ok. exact Hb.
Qed.

Lemma cell_free_total b r c : board_ok b -> exists v, cell_free b r c = Some v.
Proof.
  intros [Hlen Hrows]. unfold cell_free.
  destruct ((r <? 0) || (r >=? board_height) || (c <? 0) || (c >=? board_width)) eqn:Hout;
    [eauto|].
  apply orb_false_elim in Hout as [Hout H4]. apply orb_false_elim in Hout as [Hout H3].
  apply orb_false_elim in Hout as [H1 H2].
  rewrite Z.geb_leb in H2, H4.
  apply Z.ltb_ge in H1, H3. apply Z.leb_gt in H2, H4.
  destruct (b !! Z.to_nat r) as [line|] eqn:Hline; cbn [mbind option_bind].
  - pose proof (proj1 (Forall_lookup _ _) Hrows _ _ Hline) as Hwide.
    simpl in Hwide.
    destruct (line !! Z.to_nat c) as [x|] eqn:Hx; cbn [mbind option_bind]; [eauto|].
    apply lookup_ge_None_1 in Hx. lia.
  - apply lookup_ge_None_1 in Hline. lia.
Qed.

Lemma valid_line_total line : forall b new_row col j,
  board_ok b -> exists v, valid_line b new_row col j line = Some v.
Proof.
  induction line as [|cell rest IH]; intros b new_row col j Hb; simpl; [eauto|].
  destruct (is_hash cell); [|apply IH; exact Hb].
  destruct (cell_free_total b new_row (col + j) Hb) as [[|] ->]; cbn [mbind option_bind];
    [apply IH; exact Hb|eauto].
Qed.

Lemma valid_shape_total shape : forall b row col i,
  board_ok b -> exists v, valid_shape b row col i shape = Some v.
Proof.
  induction shape as [|line rest IH]; intros b row col i Hb; simpl; [eauto|].
  destruct (valid_line_total (list_ascii_of_string line) b (row + i) col 0 Hb)
    as [[|] ->]; cbn [mbind option_bind]; [apply IH; exact Hb|eauto].
Qed.

Lemma is_valid_position_total b p pos rotation :
  board_ok b -> shapes p <> [] ->
  exists v, is_valid_position b p pos rotation = Some v.
Proof.
  intros Hb Hne. unfold is_valid_position.
  destruct (get_piece_shape_total p rotation Hne) as [shape ->].
  cbn [mbind option_bind]. apply valid_shape_total. exact Hb.
Qed.

Lemma empty_row_incomplete : row_complete empty_row = false.
Proof. reflexivity. Qed.

Lemma clear_lines_board_ok b : board_ok b -> board_ok (clear_lines b).1.
Proof.
  intros [Hlen Hrows]. split; [apply clear_lines_height; exact Hlen|].
  rewrite (clear_lines_spec b Hlen). cbn [fst].
  apply Forall_app. split.
  - apply Forall_forall. intros row Hin.
    apply list_elem_of_In, repeat_spec in Hin. subst row. reflexivity.
  - apply Forall_forall. intros row Hin.
    apply list_elem_of_In in Hin. unfold Scenario.incomplete_rows in Hin.
    apply filter_In in Hin as [Hin _].
    apply (proj1 (Forall_forall _ _) Hrows). apply list_elem_of_In. exact Hin.
Qed.

(** *** The invariant *)

Lemma invariant_sides g :
  invariant g <-> side_ok P1 g /\ side_ok P2 g /\ outcome_ok g.
Proof.
  unfold invariant, boards_ok, pieces_standard, pieces_fit, stats_ok, side_ok.
  cbn [board_of piece_of next_piece_of score_of lines_cleared_of level_of].
  split.
  - intros ((B1 & B2) & (S1 & S2 & N1 & N2) & Hfit & Hstats & Hout).
    pose proof (Hstats P1) as (? & ? & ?). pose proof (Hstats P2) as (? & ? & ?).
    tauto.
  - intros ((B1 & S1 & N1 & F1 & ? & ? & ?) & (B2 & S2 & N2 & F2 & ? & ? & ?) & Hout).
    split; [tauto|]. split; [tauto|]. split; [tauto|]. split; [|exact Hout].
    intros w; destruct w; simpl; tauto.
Qed.

Lemma side_ok_frame w g g' :
  side w g' = side w g -> (game_over g' = false -> game_over g = false) ->
  side_ok w g -> side_ok w g'.
Proof.
  unfold side, side_ok, piece_fits. intros Heq Hover.
  injection Heq as -> -> -> -> -> -> -> ->.
  tauto.
Qed.

Lemma standard_spawn_fits p :
  standard p -> is_valid_position empty_board p (0, 4) 0 = Some true.
Proof.
  destruct p as [t sh]. unfold standard. cbn [ptype shapes PIECES In].
  intros H.
  repeat (destruct H as [H|H]; [injection H as <- <-; vm_compute; reflexivity|]).
  contradiction.
Qed.

Lemma empty_board_ok : board_ok empty_board.
Proof. split; [reflexivity|]. repeat constructor. Qed.

Lemma tetris_init_invariant o k sid p1 p2 : invariant (init o k sid p1 p2).1.
Proof.
  change (init o k sid p1 p2).1
    with (mkGame sid p1 p2 empty_board empty_board 0 0 0 0 1 1
            (get_random_piece o k).1 (get_random_piece o (S k)).1
            (get_random_piece o (S (S k))).1 (get_random_piece o (S (S (S k)))).1
            (0, 4) (0, 4) 0 0 false None).
  apply invariant_sides. unfold side_ok, piece_fits, outcome_ok.
  cbn [board_of piece_of next_piece_of pos_of rotation_of score_of lines_cleared_of
       level_of game_over winner player1_board player2_board player1_current_piece
       player2_current_piece player1_next_piece player2_next_piece player1_piece_pos
       player2_piece_pos player1_piece_rotation player2_piece_rotation player1_score
       player2_score player1_lines_cleared player2_lines_cleared player1_level
       player2_level].
  pose proof empty_board_ok. pose proof (get_random_piece_standard o) as Hstd.
  pose proof (fun k => standard_spawn_fits _ (Hstd k)).
  assert (1 = 0 / 10 + 1) by reflexivity.
  assert (0 <= 0) by lia.
  intuition (auto; discriminate).
Qed.

Lemma set_piece_side_other w g pos rotation :
  side (other w) (set_piece w g pos rotation) = side (other w) g.
Proof. destruct w; reflexivity. Qed.

Lemma set_piece_fields w g pos rotation :
  board_of w (set_piece w g pos rotation) = board_of w g
  /\ piece_of w (set_piece w g pos rotation) = piece_of w g
  /\ next_piece_of w (set_piece w g pos rotation) = next_piece_of w g
  /\ pos_of w (set_piece w g pos rotation) = pos
  /\ rotation_of w (set_piece w g pos rotation) = rotation
  /\ score_of w (set_piece w g pos rotation) = score_of w g
  /\ lines_cleared_of w (set_piece w g pos rotation) = lines_cleared_of w g
  /\ level_of w (set_piece w g pos rotation) = level_of w g
  /\ game_over (set_piece w g pos rotation) = game_over g
  /\ winner (set_piece w g pos rotation) = winner g
  /\ player1_id (set_piece w g pos rotation) = player1_id g
  /\ player2_id (set_piece w g pos rotation) = player2_id g.
Proof. destruct w; repeat split; reflexivity. Qed.

Lemma sides_of w g : side_ok P1 g /\ side_ok P2 g <-> side_ok w g /\ side_ok (other w) g.
Proof. destruct w; simpl; tauto. Qed.

Lemma calculate_score_nonneg lines level :
  0 <= lines -> 0 <= level -> 0 <= calculate_score lines level.
Proof.
  intros Hl Hv. unfold calculate_score, base_scores.
  repeat (destruct (_ =? _)); lia.
Qed.

Lemma clear_lines_count_nonneg b : board_ok b -> 0 <= (clear_lines b).2.
Proof.
  intros [Hlen _]. rewrite (clear_lines_spec b Hlen). cbn [snd]. lia.
Qed.

Lemma move_piece_invariant o k g pid d r g' k' :
  invariant g -> move_piece o k g pid d = Some (r, g', k') -> invariant g'.
Proof.
  intros Hinv H.
  destruct (move_piece_cases _ _ _ _ _ _ _ _ H)
    as [(_ & -> & _)
       |[(w & new_pos & new_rotation & Hover & Hwho & Hcand & Hvalid & _ & -> & _)
        |(w & Hover & Hwho & _ & _ & Hlock)]];
    [exact Hinv| |].
  - apply invariant_sides in Hinv as (H1 & H2 & Hout).
    assert (Hs : side_ok w g /\ side_ok (other w) g) by (apply sides_of; auto).
    destruct Hs as [Hw Ho].
    pose proof (set_piece_fields w g new_pos new_rotation)
      as (Eb & Ep & En & Epos & Er & Es & El & Ev & Eover & Ewin & E1 & E2).
    apply invariant_sides. apply and_assoc. split.
    + apply (sides_of w). split.
      * destruct Hw as (B & S1 & N & F & ? & ? & ?).
        unfold side_ok, piece_fits.
        rewrite Eb, Ep, En, Epos, Er, Es, El, Ev. tauto.
      * eapply side_ok_frame; [apply set_piece_side_other| |exact Ho].
        rewrite Eover. auto.
    + unfold outcome_ok. rewrite Eover, Ewin, E1, E2. exact Hout.
  - apply invariant_sides in Hinv as (H1 & H2 & Hout).
    assert (Hs : side_ok w g /\ side_ok (other w) g) by (apply sides_of; auto).
    destruct Hs as [Hw Ho].
    destruct (place_current_piece_inv _ _ _ _ _ _ _ _ Hwho Hlock)
      as (placed & valid & Hplaced & Hspawn & _ & Eb & Es & El & Ev & Ep & Epos & Er
          & Eover & Ewin).
    destruct (place_current_piece_frame _ _ _ _ _ _ _ _ Hwho Hlock)
      as (Eside & _ & E1 & E2 & _).
    destruct (place_current_piece_next _ _ _ _ _ _ _ _ Hwho Hlock) as (En & _).
    destruct Hw as (B & S1 & N & F & Hs & Hl & Hv).
    destruct (place_piece_board_ok _ _ (pos_of w g) (rotation_of w g) B
                (standard_shapes _ S1)) as (placed' & Hplaced' & Bplaced).
    rewrite Hplaced in Hplaced'. injection Hplaced' as <-.
    pose proof (clear_lines_count_nonneg placed Bplaced) as Hcount.
    apply invariant_sides. apply and_assoc. split.
    + apply (sides_of w). split.
      * unfold side_ok, piece_fits. rewrite Eb, Ep, En, Epos, Er, Es, Ev, El.
        split; [apply clear_lines_board_ok, Bplaced|].
        repeat split.
        -- exact N.
        -- apply get_random_piece_standard.
        -- rewrite Eover. destruct valid; [intros _; exact Hspawn|discriminate].
        -- pose proof (calculate_score_nonneg (clear_lines placed).2 (level_of w g)
                         Hcount ltac:(rewrite Hv; pose proof (Z.div_pos (lines_cleared_of w g) 10 Hl ltac:(lia)); lia)).
           lia.
        -- lia.
      * eapply side_ok_frame; [exact Eside| |exact Ho].
        rewrite Eover. destruct valid; [auto|discriminate].
    + unfold outcome_ok. rewrite Eover, Ewin, E1, E2.
      destruct valid; [exact Hout|].
      split; [discriminate|]. intros _. destruct w; simpl; auto.
Qed.

Lemma drop_piece_invariant fuel : forall o k g pid r g' k',
  invariant g -> drop_piece fuel o k g pid = Py.Done (r, g', k') -> invariant g'.
Proof.
  induction fuel as [|fuel IH]; intros o k g pid r g' k' Hinv H; simpl in H;
    [discriminate|].
  destruct (move_piece o k g pid "down") as [[[r1 g1] k1]|] eqn:Hmove; [|discriminate].
  pose proof (move_piece_invariant _ _ _ _ _ _ _ _ Hinv Hmove) as Hinv1.
  destruct (success r1).
  - eapply IH; eassumption.
  - injection H as _ <- _. exact Hinv1.
Qed.

Lemma tetris_restore_is_identity o k g g' k' :
  from_json o k (to_json g) = Some (g', k') -> g' = g.
Proof.
  intros H. pose proof (tetris_restore_snapshot o k g) as Hfst.
  rewrite H in Hfst. simpl in Hfst. congruence.
Qed.

Lemma tetris_reachable_invariant g : reachable g -> invariant g.
Proof.
  induction 1 as [o k sid p1 p2
                 |o k g pid d r g' k' _ IH Hmove
                 |fuel o k g pid r g' k' _ IH Hdrop
                 |o k g g' k' _ IH Hrestore].
  - apply tetris_init_invariant.
  - eapply move_piece_invariant; eassumption.
  - eapply drop_piece_invariant; eassumption.
  - rewrite (tetris_restore_is_identity _ _ _ _ _ Hrestore). exact IH.
Qed.

(** *** No call raises *)

Lemma candidate_defined p pos rotation d :
  shapes p <> [] -> candidate p pos rotation d <> Some None.
Proof.
  intros Hne. unfold candidate.
  repeat (destruct (String.eqb d _); [discriminate|]).
  destruct (String.eqb d "rotate"); [|discriminate].
  destruct (shapes p); [contradiction|discriminate].
Qed.

Lemma place_current_piece_total o k g pid w :
  who g pid = Some w -> side_ok w g ->
  exists r g' k', place_current_piece o k g pid = Some (r, g', k').
Proof.
  intros Hwho (B & S1 & N & _). unfold place_current_piece. rewrite Hwho.
  destruct (place_piece_board_ok _ _ (pos_of w g) (rotation_of w g) B
              (standard_shapes _ S1)) as (placed & Hplaced & Bplaced).
  pose proof (clear_lines_board_ok placed Bplaced) as Bnew.
  destruct (is_valid_position_total _ _ (0, 4) 0 Bnew (standard_shapes _ N))
    as [valid Hvalid].
  destruct w; cbn [board_of piece_of next_piece_of pos_of rotation_of] in *;
    rewrite Hplaced; cbn [mbind option_bind];
    destruct (clear_lines placed) as [new_board lines];
    destruct (get_random_piece o k) as [next kk];
    cbn [fst] in Hvalid; rewrite Hvalid; cbn [mbind option_bind]; eauto.
Qed.

Lemma move_piece_total o k g pid d :
  invariant g -> exists r g' k', move_piece o k g pid d = Some (r, g', k').
Proof.
  intros Hinv. apply invariant_sides in Hinv as (H1 & H2 & _).
  unfold move_piece.
  destruct (game_over g); [eauto|].
  destruct (who g pid) as [w|] eqn:Hwho; [|eauto].
  assert (Hw : side_ok w g) by (destruct w; assumption).
  pose proof Hw as (B & S1 & _).
  pose proof (candidate_defined (piece_of w g) (pos_of w g) (rotation_of w g) d
                (standard_shapes _ S1)) as Hcand.
  destruct (candidate _ _ _ d) as [[[new_pos new_rotation]|]|];
    [|contradiction|eauto].
  cbn [mbind option_bind].
  destruct (is_valid_position_total _ _ new_pos new_rotation B (standard_shapes _ S1))
    as [valid ->].
  cbn [mbind option_bind].
  destruct valid; [eauto|].
  destruct (String.eqb d "down"); [|eauto].
  eapply place_current_piece_total; eassumption.
Qed.

Lemma drop_piece_never_raises fuel : forall o k g pid,
  invariant g -> drop_piece fuel o k g pid <> Py.Raised.
Proof.
  induction fuel as [|fuel IH]; intros o k g pid Hinv; simpl; [discriminate|].
  destruct (move_piece_total o k g pid "down" Hinv) as (r & g' & k' & Hmove).
  rewrite Hmove.
  destruct (success r); [|discriminate].
  apply IH. eapply move_piece_invariant; eassumption.
Qed.

(** *** Cells written by a lock *)

Lemma set_cell_elsewhere b R C v b1 r c :
  set_cell b R C v = Some b1 -> (r, c) <> (R, C) -> cell_at b1 r c = cell_at b r c.
Proof.
  unfold set_cell, cell_at. intros H Hne.
  destruct (b !! R) as [line|] eqn:Hline; cbn [mbind option_bind] in H; [|discriminate].
  destruct (C <? length line)%nat; [|discriminate].
  injection H as <-.
  destruct (decide (r = R)) as [->|Hr].
  - assert (Hc : C <> c) by congruence.
    etransitivity.
    { apply (f_equal (fun x => x ≫= (fun row => row !! c))).
      apply list_lookup_insert_eq. eapply lookup_lt_Some. exact Hline. }
    rewrite Hline. cbn [mbind option_bind].
    apply list_lookup_insert_ne. exact Hc.
  - apply (f_equal (fun x => x ≫= (fun row => row !! c))).
    apply list_lookup_insert_ne. auto.
Qed.

Lemma set_cell_there b R C v b1 :
  set_cell b R C v = Some b1 -> cell_at b1 R C = Some v.
Proof.
  unfold set_cell, cell_at. intros H.
  destruct (b !! R) as [line|] eqn:Hline; cbn [mbind option_bind] in H; [|discriminate].
  destruct (Nat.ltb_spec C (length line)) as [Hlt|]; [|discriminate].
  injection H as <-.
  etransitivity.
  { apply (f_equal (fun x => x ≫= (fun row => row !! C))).
    apply list_lookup_insert_eq. eapply lookup_lt_Some. exact Hline. }
  cbn [mbind option_bind]. apply list_lookup_insert_eq. exact Hlt.
Qed.

Lemma cell_free_spec b R C :
  cell_free b R C = Some true ->
  0 <= R /\ 0 <= C /\ cell_at b (Z.to_nat R) (Z.to_nat C) = Some ".".
Proof.
  unfold cell_free, cell_at.
  destruct ((R <? 0) || (R >=? board_height) || (C <? 0) || (C >=? board_width)) eqn:Hout;
    [discriminate|].
  apply orb_false_elim in Hout as [Hout H4]. apply orb_false_elim in Hout as [Hout H3].
  apply orb_false_elim in Hout as [H1 H2].
  apply Z.ltb_ge in H1, H3.
  destruct (b !! Z.to_nat R) as [line|]; cbn [mbind option_bind]; [|discriminate].
  destruct (line !! Z.to_nat C) as [x|]; cbn [mbind option_bind]; [|discriminate].
  intros H. injection H as H. apply String.eqb_eq in H. subst x. auto.
Qed.

(** What a partly written board [b] may differ in from the board [b0] the
    position was checked on: cells free on [b0] that now hold [v]. *)
Lemma place_line_writes b0 v line : forall b new_row col j b',
  valid_line b0 new_row col j line = Some true ->
  (forall r c, cell_at b r c = cell_at b0 r c
               \/ (cell_at b0 r c = Some "." /\ cell_at b r c = Some v)) ->
  place_line b new_row col j v line = Some b' ->
  forall r c, cell_at b' r c = cell_at b0 r c
              \/ (cell_at b0 r c = Some "." /\ cell_at b' r c = Some v).
Proof.
  induction line as [|cell rest IH]; intros b new_row col j b' Hvalid Hb H; simpl in *.
  - injection H as <-. exact Hb.
  - destruct (is_hash cell); [|eapply IH; eassumption].
    destruct (cell_free b0 new_row (col + j)) as [[|]|] eqn:Hfree;
      cbn [mbind option_bind] in Hvalid; try discriminate.
    destruct (cell_free_spec _ _ _ Hfree) as (HR & HC & Hdot).
    destruct ((0 <=? new_row) && (new_row <? board_height)
              && (0 <=? col + j) && (col + j <? board_width));
      [|eapply IH; eassumption].
    destruct (set_cell b (Z.to_nat new_row) (Z.to_nat (col + j)) v) as [b1|] eqn:Hset;
      cbn [mbind option_bind] in H; [|discriminate].
    eapply IH; [exact Hvalid| |exact H].
    intros r c.
    destruct (decide ((r, c) = (Z.to_nat new_row, Z.to_nat (col + j)))) as [E|E].
    + injection E as -> ->. right. split; [exact Hdot|].
      eapply set_cell_there. exact Hset.
    + rewrite (set_cell_elsewhere _ _ _ _ _ r c Hset E). apply Hb.
Qed.

Lemma place_shape_writes b0 v shape : forall b row col i b',
  valid_shape b0 row col i shape = Some true ->
  (forall r c, cell_at b r c = cell_at b0 r c
               \/ (cell_at b0 r c = Some "." /\ cell_at b r c = Some v)) ->
  place_shape b row col i v shape = Some b' ->
  forall r c, cell_at b' r c = cell_at b0 r c
              \/ (cell_at b0 r c = Some "." /\ cell_at b' r c = Some v).
Proof.
  induction shape as [|line rest IH]; intros b row col i b' Hvalid Hb H; simpl in *.
  - injection H as <-. exact Hb.
  - destruct (valid_line b0 (row + i) col 0 (list_ascii_of_string line))
      as [[|]|] eqn:Hline; cbn [mbind option_bind] in Hvalid; try discriminate.
    destruct (place_line b (row + i) col 0 v (list_ascii_of_string line))
      as [b1|] eqn:Hplace; cbn [mbind option_bind] in H; [|discriminate].
    eapply IH; [exact Hvalid| |exact H].
    eapply place_line_writes; eassumption.
Qed.

(** *** Line clearing *)

Lemma complete_rows_none b :
  Forall (fun row => row_complete row = false) b ->
  Scenario.complete_rows b = 0%nat /\ Scenario.incomplete_rows b = b.
Proof.
  unfold Scenario.complete_rows, Scenario.incomplete_rows.
  induction 1 as [|row rest Hrow _ [IH1 IH2]]; simpl; [auto|].
  rewrite Hrow. simpl. split; [exact IH1|f_equal; exact IH2].
Qed.

Lemma clear_lines_incomplete b :
  length b = Z.to_nat board_height ->
  Forall (fun row => row_complete row = false) (clear_lines b).1.
Proof.
  intros Hlen. rewrite (clear_lines_spec b Hlen). cbn [fst].
  apply Forall_app. split.
  - apply Forall_forall. intros row Hin.
    apply list_elem_of_In, repeat_spec in Hin. subst row. reflexivity.
  - apply Forall_forall. intros row Hin.
    apply list_elem_of_In in Hin. unfold Scenario.incomplete_rows in Hin.
    apply filter_In in Hin as [_ Hrow]. apply negb_true_iff. exact Hrow.
Qed.

(** *** Sample matches *)

Lemma plays_reachable moves : forall o k g g' k',
  reachable g -> plays o k g moves = Some (g', k') -> reachable g'.
Proof.
  induction moves as [|[pid d] rest IH]; intros o k g g' k' Hg H; simpl in H.
  - injection H as <- _. exact Hg.
  - destruct (move_piece o k g pid d) as [[[r g1] k1]|] eqn:Hmove;
      cbn [mbind option_bind] in H; [|discriminate].
    eapply IH; [|exact H]. eapply reach_move_piece; eassumption.
Qed.

Lemma before_two_lines_reachable : reachable before_two_lines.1.
Proof.
  eapply (plays_reachable five_squares (Scenario.always 1) 4 Scenario.tetris_fresh
            _ before_two_lines.2).
  - apply reach_init.
  - vm_compute. reflexivity.
Qed.

Lemma two_lines_reachable : reachable two_lines.
Proof.
  eapply (reach_move_piece (Scenario.always 1) before_two_lines.2 before_two_lines.1
            1 "down" (mkResult true (PiecePlaced 2 200)) two_lines 9).
  - apply before_two_lines_reachable.
  - vm_compute. reflexivity.
Qed.

Lemma tetris_after_drop_reachable : reachable Scenario.tetris_after_drop.
Proof.
  eapply (reach_drop_piece 200 (Scenario.always 1) 4 Scenario.tetris_fresh 1
            (mkResult true PieceDropped) Scenario.tetris_after_drop 13).
  - apply reach_init.
  - vm_compute. reflexivity.
Qed.

(** *** The properties *)

(** X9. In every state a Tetris match can reach (fresh from the
    constructor, then changed by [move_piece] and [drop_piece], or read
    back from its own snapshot) both boards have [board_height] = 20 rows
    of [board_width] = 10 cells each. *)
Theorem tetris_boards_keep_size g : reachable g -> boards_ok g.
Proof. intros Hg. apply tetris_reachable_invariant in Hg. apply Hg. Qed.

Lemma tetris_boards_keep_size_witness : boards_ok Scenario.tetris_after_drop.
Proof.
  apply (tetris_boards_keep_size Scenario.tetris_after_drop).
  apply tetris_after_drop_reachable.
Defined.

(** X10. While a reachable match is running, the current piece of either
    player lies, at its position and rotation, wholly on free cells inside
    that player's board: [is_valid_position] answers [True] for it. *)
Theorem tetris_running_pieces_fit g :
  reachable g -> game_over g = false -> piece_fits P1 g /\ piece_fits P2 g.
Proof.
  intros Hg Hover. apply tetris_reachable_invariant in Hg.
  destruct Hg as (_ & _ & Hfit & _). apply Hfit. exact Hover.
Qed.

Lemma tetris_running_pieces_fit_witness :
  piece_fits P1 before_two_lines.1 /\ piece_fits P2 before_two_lines.1.
Proof.
  apply (tetris_running_pieces_fit before_two_lines.1).
  - apply before_two_lines_reachable.
  - vm_compute. reflexivity.
Defined.

(** X11. On a reachable match no call raises: [move_piece] returns a result
    for every player id and every direction string, whatever the generator
    gives, and [drop_piece] never leaves its loop by an exception. *)
Theorem tetris_moves_never_raise o k g pid direction :
  reachable g ->
  (exists r g' k', move_piece o k g pid direction = Some (r, g', k'))
  /\ forall fuel, drop_piece fuel o k g pid <> Py.Raised.
Proof.
  intros Hg. apply tetris_reachable_invariant in Hg. split.
  - apply move_piece_total. exact Hg.
  - intros fuel. apply drop_piece_never_raises. exact Hg.
Qed.

Lemma tetris_moves_never_raise_witness :
  (exists r g' k', move_piece (Scenario.always 6) 0 two_lines 2 "rotate" = Some (r, g', k'))
  /\ forall fuel, drop_piece fuel (Scenario.always 6) 0 two_lines 2 <> Py.Raised.
Proof.
  apply (tetris_moves_never_raise (Scenario.always 6) 0 two_lines 2 "rotate").
  apply two_lines_reachable.
Defined.

(** X12. In a reachable match either player's score and count of cleared
    lines are never negative, and the level is always the count of cleared
    lines divided by ten (rounded down) plus one. *)
Theorem tetris_level_follows_lines g w :
  reachable g ->
  0 <= score_of w g /\ 0 <= lines_cleared_of w g
  /\ level_of w g = lines_cleared_of w g / 10 + 1.
Proof.
  intros Hg. apply tetris_reachable_invariant in Hg.
  destruct Hg as (_ & _ & _ & Hstats & _). apply Hstats.
Qed.

Lemma tetris_level_follows_lines_witness :
  0 <= score_of P1 two_lines /\ 0 <= lines_cleared_of P1 two_lines
  /\ level_of P1 two_lines = lines_cleared_of P1 two_lines / 10 + 1.
Proof.
  apply (tetris_level_follows_lines two_lines P1).
  apply two_lines_reachable.
Defined.

(** X13. A reachable match that is running has no winner, and one that is
    over has one of its two players as the winner: Tetris has no tie. *)
Theorem tetris_winner_is_a_player g :
  reachable g ->
  (game_over g = false -> winner g = None)
  /\ (game_over g = true ->
      winner g = Some (player1_id g) \/ winner g = Some (player2_id g)).
Proof.
  intros Hg. apply tetris_reachable_invariant in Hg.
  destruct Hg as (_ & _ & _ & _ & Hout). exact Hout.
Qed.

Lemma tetris_winner_is_a_player_witness :
  winner Scenario.tetris_after_drop = Some 1 \/ winner Scenario.tetris_after_drop = Some 2.
Proof.
  apply (tetris_winner_is_a_player Scenario.tetris_after_drop).
  - apply tetris_after_drop_reachable.
  - vm_compute. reflexivity.
Defined.

(** X14. No move on a reachable match lowers a score, a count of cleared
    lines or a level, of either player. *)
Theorem tetris_scores_never_decrease o k g pid direction r g' k' w :
  reachable g ->
  move_piece o k g pid direction = Some (r, g', k') ->
  score_of w g <= score_of w g'
  /\ lines_cleared_of w g <= lines_cleared_of w g'
  /\ level_of w g <= level_of w g'.
Proof.
  intros Hg H. apply tetris_reachable_invariant in Hg.
  pose proof (move_piece_invariant _ _ _ _ _ _ _ _ Hg H) as Hg'.
  destruct Hg as (_ & _ & _ & Hstats & _). destruct Hg' as (_ & _ & _ & Hstats' & _).
  assert (Hmono : forall w0, side w0 g' = side w0 g ->
            score_of w0 g <= score_of w0 g'
            /\ lines_cleared_of w0 g <= lines_cleared_of w0 g'
            /\ level_of w0 g <= level_of w0 g').
  { intros w0 Heq. unfold side in Heq. injection Heq as _ -> -> -> _ _ _ _. lia. }
  destruct (move_piece_cases _ _ _ _ _ _ _ _ H)
    as [(_ & -> & _)
       |[(w1 & new_pos & new_rotation & _ & _ & _ & _ & _ & -> & _)
        |(w1 & _ & Hwho & _ & _ & Hlock)]].
  - lia.
  - destruct w1, w; simpl; lia.
  - destruct (place_current_piece_frame _ _ _ _ _ _ _ _ Hwho Hlock) as (Eside & _).
    destruct (place_current_piece_inv _ _ _ _ _ _ _ _ Hwho Hlock)
      as (placed & valid & Hplaced & _ & _ & _ & Es & El & _).
    assert (Hw1 : score_of w1 g <= score_of w1 g'
                  /\ lines_cleared_of w1 g <= lines_cleared_of w1 g'
                  /\ level_of w1 g <= level_of w1 g').
    { destruct (Hstats w1) as (Hs & Hl & Hv). destruct (Hstats' w1) as (Hs' & Hl' & Hv').
      assert (Hlines : lines_cleared_of w1 g <= lines_cleared_of w1 g').
      { rewrite El.
        enough (0 <= (clear_lines placed).2) by lia.
        unfold clear_lines. rewrite clear_rows_spec. cbn [snd]. lia. }
      split; [|split; [exact Hlines|]].
      - rewrite Es.
        enough (0 <= calculate_score (clear_lines placed).2 (level_of w1 g)) by lia.
        apply calculate_score_nonneg.
        + unfold clear_lines. rewrite clear_rows_spec. cbn [snd]. lia.
        + rewrite Hv. pose proof (Z.div_pos (lines_cleared_of w1 g) 10 Hl ltac:(lia)). lia.
      - rewrite Hv, Hv'.
        pose proof (Z.div_le_mono _ _ 10 ltac:(lia) Hlines). lia. }
    destruct w1, w; try exact Hw1; apply Hmono; exact Eside.
Qed.

Lemma tetris_scores_never_decrease_witness :
  score_of P1 before_two_lines.1 <= score_of P1 two_lines
  /\ lines_cleared_of P1 before_two_lines.1 <= lines_cleared_of P1 two_lines
  /\ level_of P1 before_two_lines.1 <= level_of P1 two_lines.
Proof.
  apply (tetris_scores_never_decrease (Scenario.always 1) before_two_lines.2
           before_two_lines.1 1 "down" (mkResult true (PiecePlaced 2 200)) two_lines 9 P1).
  - apply before_two_lines_reachable.
  - vm_compute. reflexivity.
Defined.

(** X15. A call of [move_piece] that does not lock a piece (its message is
    not "Piece placed") draws nothing from the generator and leaves both
    boards, all scores, counts, levels and pieces, the flag and the winner
    as they were; a call that reports failure leaves the whole match as it
    was. *)
Theorem tetris_move_without_lock o k g pid direction r g' k' :
  move_piece o k g pid direction = Some (r, g', k') ->
  (forall lines gained, message r <> PiecePlaced lines gained) ->
  k' = k
  /\ player1_board g' = player1_board g /\ player2_board g' = player2_board g
  /\ (forall w, score_of w g' = score_of w g
                /\ lines_cleared_of w g' = lines_cleared_of w g
                /\ level_of w g' = level_of w g
                /\ piece_of w g' = piece_of w g
                /\ next_piece_of w g' = next_piece_of w g)
  /\ game_over g' = game_over g /\ winner g' = winner g
  /\ (success r = false -> g' = g).
Proof.
  intros H Hmsg.
  destruct (move_piece_cases _ _ _ _ _ _ _ _ H)
    as [(_ & -> & ->)
       |[(w1 & new_pos & new_rotation & _ & _ & _ & _ & -> & -> & ->)
        |(w1 & _ & Hwho & _ & _ & Hlock)]].
  - repeat split; reflexivity.
  - destruct w1; repeat split; try (destruct w; reflexivity); discriminate.
  - destruct (place_current_piece_inv _ _ _ _ _ _ _ _ Hwho Hlock)
      as (placed & valid & _ & _ & -> & _).
    exfalso. eapply Hmsg. reflexivity.
Qed.

Lemma tetris_move_without_lock_witness :
  player1_board (set_piece P1 Scenario.tetris_fresh (0, 3) 0)
  = player1_board Scenario.tetris_fresh
  /\ game_over (set_piece P1 Scenario.tetris_fresh (0, 3) 0) = false.
Proof.
  destruct (tetris_move_without_lock (Scenario.always 1) 4 Scenario.tetris_fresh 1 "left"
              (mkResult true PieceMoved) (set_piece P1 Scenario.tetris_fresh (0, 3) 0) 4)
    as (_ & Hb & _ & _ & Hover & _).
  - vm_compute. reflexivity.
  - intros lines gained. simpl. discriminate.
  - split; [exact Hb|exact Hover].
Defined.

(** X16. Whatever a player's move does (refused, moved or locked, with
    lines cleared or the match ended), it leaves the other player's board,
    score, cleared lines, level, current piece, queued piece, position and
    rotation untouched, and the session and player ids as they were. *)
Theorem tetris_move_leaves_opponent o k g pid direction w r g' k' :
  who g pid = Some w ->
  move_piece o k g pid direction = Some (r, g', k') ->
  side (other w) g' = side (other w) g
  /\ session_id g' = session_id g
  /\ player1_id g' = player1_id g /\ player2_id g' = player2_id g.
Proof.
  intros Hwho H.
  destruct (move_piece_cases _ _ _ _ _ _ _ _ H)
    as [(_ & -> & _)
       |[(w1 & new_pos & new_rotation & _ & Hwho1 & _ & _ & _ & -> & _)
        |(w1 & _ & Hwho1 & _ & _ & Hlock)]].
  - repeat split; reflexivity.
  - rewrite Hwho in Hwho1. injection Hwho1 as <-.
    destruct w; repeat split; reflexivity.
  - rewrite Hwho in Hwho1. injection Hwho1 as <-.
    destruct (place_current_piece_frame _ _ _ _ _ _ _ _ Hwho Hlock)
      as (Eside & Esid & E1 & E2 & _).
    auto.
Qed.

Lemma tetris_move_leaves_opponent_witness :
  side P2 two_lines = side P2 before_two_lines.1.
Proof.
  destruct (tetris_move_leaves_opponent (Scenario.always 1) before_two_lines.2
              before_two_lines.1 1 "down" P1 (mkResult true (PiecePlaced 2 200))
              two_lines 9) as (Hside & _).
  - vm_compute. reflexivity.
  - vm_compute. reflexivity.
  - exact Hside.
Defined.

(** X17. [place_piece] at a position that [is_valid_position] accepts
    writes only on cells that were free: every cell of the new board either
    holds what it held, or was ['.'] and now holds the piece's type. No
    block already on the board is overwritten. *)
Theorem tetris_lock_writes_only_free_cells b p pos rotation b' r c :
  is_valid_position b p pos rotation = Some true ->
  place_piece b p pos rotation = Some b' ->
  cell_at b' r c = cell_at b r c
  \/ (cell_at b r c = Some "." /\ cell_at b' r c = Some (ptype p)).
Proof.
  unfold is_valid_position, place_piece. intros Hvalid Hplace.
  destruct (get_piece_shape p rotation) as [shape|]; cbn [mbind option_bind] in *;
    [|discriminate].
  eapply place_shape_writes; [exact Hvalid| |exact Hplace].
  intros r0 c0. left. reflexivity.
Qed.

Lemma tetris_lock_writes_only_free_cells_witness :
  cell_at (repeat empty_row 19 ++ [["O"; "O"; "O"; "O"; "I"; "I"; "I"; "I"; "O"; "O"]])
          19 3
  = cell_at Scenario.tetris_gap_board 19 3
  \/ (cell_at Scenario.tetris_gap_board 19 3 = Some "."
      /\ cell_at (repeat empty_row 19
                  ++ [["O"; "O"; "O"; "O"; "I"; "I"; "I"; "I"; "O"; "O"]]) 19 3
         = Some "I").
Proof.
  apply (tetris_lock_writes_only_free_cells Scenario.tetris_gap_board Scenario.bar
           (18, 4) 0).
  - vm_compute. reflexivity.
  - vm_compute. reflexivity.
Defined.

(** X18. On a board of 20 rows, [clear_lines] leaves no complete row
    behind (and 20 rows again), so clearing the result once more removes
    nothing and counts no line. *)
Theorem tetris_clear_lines_leaves_none (b : Board) :
  length b = Z.to_nat board_height ->
  no_complete_row (clear_lines b).1
  /\ length (clear_lines b).1 = Z.to_nat board_height
  /\ clear_lines (clear_lines b).1 = ((clear_lines b).1, 0).
Proof.
  intros Hlen.
  pose proof (clear_lines_incomplete b Hlen) as Hnone.
  pose proof (clear_lines_height b Hlen) as Hlen'.
  split; [exact Hnone|]. split; [exact Hlen'|].
  rewrite (clear_lines_spec _ Hlen').
  destruct (complete_rows_none _ Hnone) as [-> ->]. reflexivity.
Qed.

Lemma tetris_clear_lines_leaves_none_witness :
  no_complete_row
    (clear_lines (repeat empty_row 19
                  ++ [["O"; "O"; "O"; "O"; "I"; "I"; "I"; "I"; "O"; "O"]])).1.
Proof.
  apply (tetris_clear_lines_leaves_none
           (repeat empty_row 19 ++ [["O"; "O"; "O"; "O"; "I"; "I"; "I"; "I"; "O"; "O"]])).
  reflexivity.
Defined.

(** X19. Reading a Tetris match back from its own snapshot gives the same
    match, field for field; the constructor run inside [from_json] has
    drawn four pieces from the generator. *)
Theorem tetris_snapshot_round_trip o k g :
  from_json o k (to_json g) = Some (g, S (S (S (S k)))).
Proof.
  unfold from_json, to_json. simpl.
  rewrite !as_strss_of_strss. simpl.
  rewrite !as_piece_piece_json. simpl.
  rewrite as_opt_int_of_opt_int. simpl.
  destruct g as [? ? ? ? ? ? ? ? ? ? ? ? ? ? ? [? ?] [? ?] ? ? ? ?]; reflexivity.
Qed.

End TetrisCoverage.

(** ** Snake: what holds in every reachable state, and the moves in detail *)

Section SnakeCoverage.

Import Snake SnakeInv.

(** *** Python's [==], [in] and [remove] on cells *)

Lemma py_eq_spec (a b : Cell) : py_eq a b = true <-> a = b.
Proof.
  destruct a, b; simpl; split; intros H; try discriminate.
  - apply andb_prop in H as [Hx Hy]. apply Z.eqb_eq in Hx, Hy. congruence.
  - injection H as -> ->. rewrite !Z.eqb_refl. reflexivity.
  - apply andb_prop in H as [Hx Hy]. apply Z.eqb_eq in Hx, Hy. congruence.
  - injection H as -> ->. rewrite !Z.eqb_refl. reflexivity.
Qed.

Lemma py_in_spec (c : Cell) (l : list Cell) : py_in c l = true <-> c ∈ l.
Proof.
  unfold py_in. rewrite existsb_exists. split.
  - intros (x & Hin & Heq). apply py_eq_spec in Heq. subst x.
    apply list_elem_of_In. exact Hin.
  - intros Hin. exists c. split; [apply list_elem_of_In; exact Hin|apply py_eq_refl].
Qed.

Lemma py_in_false (c : Cell) (l : list Cell) : py_in c l = false <-> c ∉ l.
Proof.
  rewrite <- py_in_spec. destruct (py_in c l); split; intros H; congruence.
Qed.

Lemma py_remove_subset c l x : x ∈ py_remove c l -> x ∈ l.
Proof.
  induction l as [|e rest IH]; simpl; [auto|].
  destruct (py_eq e c).
  - intros H. right. exact H.
  - intros H. apply elem_of_cons in H as [->|H]; [left|right; auto].
Qed.

Lemma py_remove_NoDup c l :
  NoDup l -> NoDup (py_remove c l) /\ (c ∉ py_remove c l).
Proof.
  induction 1 as [|e rest Hnotin Hnd [IH1 IH2]]; simpl.
  - split; [constructor|apply not_elem_of_nil].
  - destruct (py_eq e c) eqn:Heq.
    + apply py_eq_spec in Heq. subst e. auto.
    + split.
      * constructor; [|exact IH1]. intros Hin. apply Hnotin.
        eapply py_remove_subset. exact Hin.
      * intros Hin. apply elem_of_cons in Hin as [->|Hin]; [|auto].
        rewrite py_eq_refl in Heq. discriminate.
Qed.

Lemma py_remove_length c l : c ∈ l -> S (length (py_remove c l)) = length l.
Proof.
  induction l as [|e rest IH]; simpl; intros Hin.
  - apply elem_of_nil in Hin. contradiction.
  - destruct (py_eq e c) eqn:Heq; [reflexivity|].
    apply elem_of_cons in Hin as [->|Hin].
    + rewrite py_eq_refl in Heq. discriminate.
    + simpl. rewrite IH by exact Hin. reflexivity.
Qed.

Lemma removelast_subset (l : list Cell) x : x ∈ removelast l -> x ∈ l.
Proof.
  induction l as [|e rest IH]; simpl; [auto|].
  destruct rest as [|e' rest']; [intros H; apply elem_of_nil in H; contradiction|].
  intros H. apply elem_of_cons in H as [->|H]; [left|right; auto].
Qed.

Lemma removelast_NoDup (l : list Cell) : NoDup l -> NoDup (removelast l).
Proof.
  induction 1 as [|e rest Hnotin Hnd IH]; simpl; [constructor|].
  destruct rest as [|e' rest']; [constructor|].
  constructor; [|exact IH]. intros Hin. apply Hnotin.
  apply removelast_subset. exact Hin.
Qed.

Lemma removelast_cons_length (h : Cell) (l : list Cell) :
  length (removelast (h :: l)) = length l.
Proof.
  revert h. induction l as [|e rest IH]; intros h; [reflexivity|].
  change (removelast (h :: e :: rest)) with (h :: removelast (e :: rest)).
  cbn [length]. f_equal. apply IH.
Qed.

(** *** [spawn_food] *)

Lemma spawn_food_loop_spec attempts : forall o k g b g' k',
  spawn_food_loop attempts o k g = (b, g', k') ->
  (k' <= k + 2 * attempts)%nat
  /\ ((b = false /\ g' = g /\ k' = (k + 2 * attempts)%nat)
      \/ (b = true
          /\ exists x y,
               0 <= x < board_width /\ 0 <= y < board_height
               /\ (Tup x y ∉ player1_snake g) /\ (Tup x y ∉ player2_snake g)
               /\ (Tup x y ∉ food_positions g)
               /\ g' = with_food g (food_positions g ++ [Tup x y]))).
Proof.
  induction attempts as [|n IH]; intros o k g b g' k' H; simpl in H.
  - injection H as <- <- <-. split; [lia|]. left. repeat split; lia.
  - destruct (negb (py_in (Tup (o k `mod` board_width) (o (S k) `mod` board_height))
                      (player1_snake g))
              && negb (py_in (Tup (o k `mod` board_width) (o (S k) `mod` board_height))
                         (player2_snake g))
              && negb (py_in (Tup (o k `mod` board_width) (o (S k) `mod` board_height))
                         (food_positions g))) eqn:Hfree.
    + injection H as <- <- <-. split; [lia|]. right. split; [reflexivity|].
      apply andb_prop in Hfree as [Hfree H3]. apply andb_prop in Hfree as [H1 H2].
      apply negb_true_iff, py_in_false in H1, H2, H3.
      exists (o k `mod` board_width), (o (S k) `mod` board_height).
      repeat split; try assumption;
        try apply Z.mod_pos_bound; reflexivity.
    + destruct (IH _ _ _ _ _ _ H) as (Hk & Hcase). split; [lia|].
      destruct Hcase as [(-> & -> & ->)|Hcase]; [left; repeat split; lia|right; exact Hcase].
Qed.

(** *** One move of one snake *)

Lemma new_head_of_tuple d head h : new_head_of d head = Some h -> is_tuple h.
Proof.
  unfold new_head_of. destruct (coords head) as [x y].
  repeat (destruct (String.eqb d _); [intros [= <-]; exact I|]). discriminate.
Qed.

(** What a call of [move_player_snake] does to the layout: nothing (a
    stranger, an unknown heading, an elimination), a step, or a step onto
    food. *)
Lemma move_player_snake_layout o k g pid r g1 k1 :
  move_player_snake o k g pid = Some (r, g1, k1) ->
  (layout g1 = layout g /\ k1 = k)
  \/ exists w head h,
       who g pid = Some w /\ snake_of w g !! 0%nat = Some head
       /\ new_head_of (direction_of w g) head = Some h
       /\ is_valid_position (coords h).1 (coords h).2 = true
       /\ (h ∉ snake_of w g) /\ (h ∉ other_snake_of w g)
       /\ other_snake_of w g1 = other_snake_of w g
       /\ score_of (Scenario.opp w) g1 = score_of (Scenario.opp w) g
       /\ player1_id g1 = player1_id g /\ player2_id g1 = player2_id g
       /\ ((((h ∉ food_positions g)
            /\ snake_of w g1 = removelast (h :: snake_of w g)
            /\ food_positions g1 = food_positions g
            /\ score_of w g1 = score_of w g /\ k1 = k /\ r = mkResult true Moved))
           \/ (h ∈ food_positions g
               /\ snake_of w g1 = h :: snake_of w g
               /\ score_of w g1 = score_of w g + 10
               /\ r = mkResult true MovedAndAte
               /\ (k1 <= k + 100)%nat
               /\ (food_positions g1 = py_remove h (food_positions g)
                   \/ exists x y,
                        0 <= x < board_width /\ 0 <= y < board_height
                        /\ (Tup x y ∉ h :: snake_of w g)
                        /\ (Tup x y ∉ other_snake_of w g)
                        /\ (Tup x y ∉ py_remove h (food_positions g))
                        /\ food_positions g1
                           = py_remove h (food_positions g) ++ [Tup x y]))).
Proof.
  unfold move_player_snake. intros H.
  destruct (who g pid) as [w|] eqn:Hwho; [|injection H as <- <- <-; auto].
  destruct (snake_of w g !! 0%nat) as [head|] eqn:Hhead;
    cbn [mbind option_bind] in H; [|discriminate].
  destruct (new_head_of (direction_of w g) head) as [h|] eqn:Hnew;
    [|injection H as <- <- <-; auto].
  destruct (is_valid_position (coords h).1 (coords h).2) eqn:Hvalid; cbn [negb] in H;
    [|injection H as <- <- <-; left; destruct w; auto].
  destruct (py_in h (snake_of w g)) eqn:Hown;
    [injection H as <- <- <-; left; destruct w; auto|].
  destruct (py_in h (other_snake_of w g)) eqn:Hother;
    [injection H as <- <- <-; left; destruct w; auto|].
  apply py_in_false in Hown, Hother.
  right. exists w, head, h.
  do 6 (split; [first [assumption|reflexivity]|]).
  destruct (py_in h (food_positions (set_snake w g (h :: snake_of w g)))) eqn:Hfood.
  - destruct (spawn_food o k _) as [[b g4] k4] eqn:Hspawn.
    injection H as <- <- <-.
    unfold spawn_food in Hspawn.
    destruct (spawn_food_loop_spec _ _ _ _ _ _ _ Hspawn) as (Hk & Hcase).
    assert (Hin : h ∈ food_positions g).
    { apply py_in_spec. destruct w; exact Hfood. }
    destruct Hcase as [(_ & -> & _)|(_ & x & y & Hx & Hy & N1 & N2 & N3 & ->)].
    + destruct w; repeat split; try reflexivity; try assumption;
        right; repeat split; try reflexivity; try assumption; try lia; left; reflexivity.
    + destruct w; cbn in N1, N2, N3;
        repeat split; try reflexivity; try assumption;
        right; repeat split; try reflexivity; try assumption; try lia;
        right; exists x, y; repeat split; try reflexivity; try assumption; try lia.
  - injection H as <- <- <-.
    assert (Hnotin : h ∉ food_positions g).
    { apply py_in_false. destruct w; exact Hfood. }
    destruct w; repeat split; try reflexivity; try assumption;
      left; repeat split; try reflexivity; assumption.
Qed.

(** *** The invariant, step by step *)

Lemma on_board_spec c :
  is_valid_position (coords c).1 (coords c).2 = true <-> on_board c.
Proof.
  unfold is_valid_position, on_board. rewrite !andb_true_iff.
  rewrite !Z.leb_le, !Z.ltb_lt. tauto.
Qed.

Lemma cells_on_board_parts g :
  cells_on_board g
  <-> Forall on_board (player1_snake g) /\ Forall on_board (player2_snake g)
      /\ Forall on_board (food_positions g).
Proof. unfold cells_on_board, cells. rewrite !Forall_app. tauto. Qed.

Lemma layout_cells_on_board g g' :
  layout g' = layout g -> cells_on_board g -> cells_on_board g'.
Proof.
  unfold layout, cells_on_board, cells. intros Heq. injection Heq as -> -> -> _ _ _ _.
  auto.
Qed.

Lemma layout_grown g g' w : layout g' = layout g -> grown w g -> grown w g'.
Proof.
  unfold layout, grown. intros Heq. injection Heq as E1 E2 _ E4 E5 _ _.
  destruct w; cbn [snake_of score_of]; congruence.
Qed.

Lemma move_player_snake_cells o k g pid r g1 k1 :
  cells_on_board g -> grown P1 g -> grown P2 g ->
  move_player_snake o k g pid = Some (r, g1, k1) ->
  cells_on_board g1 /\ grown P1 g1 /\ grown P2 g1.
Proof.
  intros Hon G1 G2 H.
  destruct (move_player_snake_layout _ _ _ _ _ _ _ H)
    as [(Heq & _)
       |(w & head & h & _ & _ & _ & Hvalid & Hown & Hother & Eo & Eso & _ & _ & Hcase)].
  { split; [|split]; eauto using layout_cells_on_board, layout_grown. }
  apply on_board_spec in Hvalid.
  apply cells_on_board_parts in Hon as (B1 & B2 & B3).
  rewrite cells_on_board_parts.
  assert (Hstep : Forall on_board (removelast (h :: snake_of w g))).
  { apply Forall_forall. intros c Hc. apply removelast_subset in Hc.
    apply elem_of_cons in Hc as [->|Hc]; [exact Hvalid|].
    destruct w; [exact (proj1 (Forall_forall _ _) B1 _ Hc)
                |exact (proj1 (Forall_forall _ _) B2 _ Hc)]. }
  assert (Hfood : Forall on_board (py_remove h (food_positions g))).
  { apply Forall_forall. intros c Hc. apply py_remove_subset in Hc.
    exact (proj1 (Forall_forall _ _) B3 _ Hc). }
  unfold grown in *.
  destruct Hcase as [(_ & Es & Ef & Esc & _ & _)|(Hin & Es & Esc & _ & _ & Ef)].
  - pose proof (removelast_cons_length h (snake_of w g)) as Hlen.
    destruct w; cbn [snake_of other_snake_of score_of Scenario.opp] in *;
      rewrite Es, Ef, Eo, ?Esc, ?Eso, Hlen; tauto.
  - assert (Hfood' : Forall on_board (food_positions g1)).
    { destruct Ef as [->|(x & y & Hx & Hy & _ & _ & _ & ->)]; [exact Hfood|].
      apply Forall_app. split; [exact Hfood|].
      constructor; [|constructor]. unfold on_board, board_width, board_height in *.
      simpl. lia. }
    destruct w; cbn [snake_of other_snake_of score_of Scenario.opp] in *;
      rewrite Es, Eo, ?Esc, ?Eso;
      (split; [|split]; [auto|cbn [length]; lia|cbn [length]; lia]).
Qed.

Lemma NoDup_cells_parts g :
  NoDup (cells g)
  <-> NoDup (player1_snake g) /\ NoDup (player2_snake g) /\ NoDup (food_positions g)
      /\ (forall c, c ∈ player1_snake g -> c ∉ player2_snake g)
      /\ (forall c, c ∈ player1_snake g -> c ∉ food_positions g)
      /\ (forall c, c ∈ player2_snake g -> c ∉ food_positions g).
Proof.
  unfold cells. rewrite !NoDup_app. setoid_rewrite elem_of_app. split.
  - intros (N1 & D1 & N2 & D2 & N3). repeat split; try assumption.
    + intros c Hc Hc'. apply (D1 c Hc). auto.
    + intros c Hc Hc'. apply (D1 c Hc). auto.
  - intros (N1 & N2 & N3 & D12 & D13 & D23). repeat split; try assumption.
    intros c Hc [Hc'|Hc']; [exact (D12 c Hc Hc')|exact (D13 c Hc Hc')].
Qed.

Lemma tuple_cells_parts g :
  Forall is_tuple (cells g)
  <-> Forall is_tuple (player1_snake g) /\ Forall is_tuple (player2_snake g)
      /\ Forall is_tuple (food_positions g).
Proof. unfold cells. rewrite !Forall_app. tauto. Qed.

Lemma layout_tidy g g' : layout g' = layout g -> tidy g -> tidy g'.
Proof.
  unfold layout, tidy, cells. intros Heq. injection Heq as -> -> -> _ _ _ _. auto.
Qed.

Lemma move_player_snake_tidy o k g pid r g1 k1 :
  tidy g -> move_player_snake o k g pid = Some (r, g1, k1) -> tidy g1.
Proof.
  intros Htidy H.
  destruct (move_player_snake_layout _ _ _ _ _ _ _ H)
    as [(Heq & _)
       |(w & head & h & _ & _ & Hnew & _ & Hown & Hother & Eo & _ & _ & _ & Hcase)].
  { eauto using layout_tidy. }
  apply new_head_of_tuple in Hnew.
  destruct Htidy as [Htup Hnd].
  apply tuple_cells_parts in Htup as (T1 & T2 & T3).
  apply NoDup_cells_parts in Hnd as (N1 & N2 & N3 & D12 & D13 & D23).
  unfold tidy. rewrite tuple_cells_parts, NoDup_cells_parts.
  assert (Hsub : forall c, c ∈ removelast (h :: snake_of w g) -> c = h \/ c ∈ snake_of w g).
  { intros c Hc. apply removelast_subset, elem_of_cons in Hc. exact Hc. }
  assert (Hfsub : forall c, c ∈ py_remove h (food_positions g) -> c ∈ food_positions g).
  { intros c. apply py_remove_subset. }
  destruct (py_remove_NoDup h _ N3) as [N3' Hgone].
  assert (Tfood : Forall is_tuple (py_remove h (food_positions g))).
  { apply Forall_forall. intros c Hc. apply Hfsub in Hc.
    exact (proj1 (Forall_forall _ _) T3 _ Hc). }
  destruct Hcase as [(Hnf & Es & Ef & _)|(Hin & Es & _ & _ & _ & Ef)].
  - assert (Tstep : Forall is_tuple (removelast (h :: snake_of w g))).
    { apply Forall_forall. intros c Hc. apply Hsub in Hc as [->|Hc]; [exact Hnew|].
      destruct w; [exact (proj1 (Forall_forall _ _) T1 _ Hc)
                  |exact (proj1 (Forall_forall _ _) T2 _ Hc)]. }
    assert (Nstep : NoDup (removelast (h :: snake_of w g))).
    { apply removelast_NoDup. constructor; [exact Hown|]. destruct w; assumption. }
    destruct w; cbn [snake_of other_snake_of] in *; rewrite Es, Ef, Eo;
      repeat split; try assumption.
    + intros c Hc Hc'. apply Hsub in Hc as [->|Hc]; [auto|exact (D12 c Hc Hc')].
    + intros c Hc Hc'. apply Hsub in Hc as [->|Hc]; [auto|exact (D13 c Hc Hc')].
    + intros c Hc Hc'. apply Hsub in Hc' as [->|Hc']; [auto|exact (D12 c Hc Hc')].
    + intros c Hc Hc'. apply Hsub in Hc as [->|Hc]; [auto|exact (D23 c Hc Hc')].
  - assert (Hf : exists extra,
               food_positions g1 = py_remove h (food_positions g) ++ extra
               /\ Forall is_tuple extra /\ NoDup extra
               /\ (forall c, c ∈ extra ->
                     c <> h /\ (c ∉ snake_of w g) /\ (c ∉ other_snake_of w g)
                     /\ (c ∉ py_remove h (food_positions g)))).
    { destruct Ef as [->|(x & y & _ & _ & X1 & X2 & X3 & ->)].
      - exists []. rewrite app_nil_r. repeat split; try constructor;
          apply elem_of_nil in H0; contradiction.
      - exists [Tup x y]. apply not_elem_of_cons in X1 as [X0 X1].
        repeat split; try (constructor; [|constructor]); try exact I;
          try apply not_elem_of_nil;
          apply list_elem_of_singleton in H0; subst c; assumption. }
    destruct Hf as (extra & Ef' & Textra & Nextra & Hextra).
    assert (Nfood : NoDup (food_positions g1)).
    { rewrite Ef'. apply NoDup_app. repeat split; [exact N3'| |exact Nextra].
      intros c Hc Hc'. apply Hextra in Hc' as (_ & _ & _ & Hc'). auto. }
    assert (Hfood : forall c, c ∈ food_positions g1 ->
              c <> h /\ ((c ∈ food_positions g) \/
                         ((c ∉ snake_of w g) /\ (c ∉ other_snake_of w g)))).
    { intros c Hc. rewrite Ef' in Hc. apply elem_of_app in Hc as [Hc|Hc].
      - split; [intros ->; auto|left; auto].
      - apply Hextra in Hc as (? & ? & ? & _). auto. }
    assert (Tfood1 : Forall is_tuple (food_positions g1)).
    { rewrite Ef'. apply Forall_app. auto. }
    destruct w; cbn [snake_of other_snake_of] in *; rewrite Es, Eo;
      repeat split; try assumption; try (constructor; assumption).
    + intros c Hc Hc'. apply elem_of_cons in Hc as [->|Hc]; [auto|exact (D12 c Hc Hc')].
    + intros c Hc Hc'. apply Hfood in Hc' as (Hne & [Hc'|(Hc' & _)]).
      * apply elem_of_cons in Hc as [->|Hc]; [auto|exact (D13 c Hc Hc')].
      * apply elem_of_cons in Hc as [->|Hc]; [auto|auto].
    + intros c Hc Hc'. apply Hfood in Hc' as (Hne & [Hc'|(_ & Hc')]);
        [exact (D23 c Hc Hc')|auto].
    + intros c Hc Hc'. apply elem_of_cons in Hc' as [->|Hc']; [auto|exact (D12 c Hc Hc')].
    + intros c Hc Hc'. apply Hfood in Hc' as (Hne & [Hc'|(_ & Hc')]);
        [exact (D13 c Hc Hc')|auto].
    + intros c Hc Hc'. apply Hfood in Hc' as (Hne & [Hc'|(Hc' & _)]).
      * apply elem_of_cons in Hc as [->|Hc]; [auto|exact (D23 c Hc Hc')].
      * apply elem_of_cons in Hc as [->|Hc]; [auto|auto].
Qed.

(** *** A tick, a turn, a snapshot *)

Lemma update_game_state_steps o k g r g' k' :
  game_over g = false ->
  update_game_state o k g = Some (r, g', k') ->
  exists g1 k1 g2,
    moved_if (player1_alive g) o k g (player1_id g) g1 k1
    /\ moved_if (player2_alive g1) o k1 g1 (player2_id g1) g2 k'
    /\ g' = with_turn_count (check_game_over g2) (turn_count (check_game_over g2) + 1).
Proof.
  intros Hover H. unfold update_game_state in H. rewrite Hover in H.
  destruct (player1_alive g) eqn:A1.
  - destruct (move_player_snake o k g (player1_id g)) as [[[r1 g1] k1]|] eqn:H1;
      cbn [mbind option_bind] in H; [|discriminate].
    destruct (player2_alive g1) eqn:A2.
    + destruct (move_player_snake o k1 g1 (player2_id g1)) as [[[r2 g2] k2]|] eqn:H2;
        cbn [mbind option_bind] in H; [|discriminate].
      injection H as _ <- <-. exists g1, k1, g2.
      unfold moved_if. rewrite A2, H2. eauto.
    + cbn [mbind option_bind] in H. injection H as _ <- <-.
      exists g1, k1, g1. unfold moved_if. rewrite A2. eauto.
  - cbn [mbind option_bind] in H.
    destruct (player2_alive g) eqn:A2.
    + destruct (move_player_snake o k g (player2_id g)) as [[[r2 g2] k2]|] eqn:H2;
        cbn [mbind option_bind] in H; [|discriminate].
      injection H as _ <- <-. exists g, k, g2.
      unfold moved_if. rewrite A2, H2. eauto.
    + cbn [mbind option_bind] in H. injection H as _ <- <-.
      exists g, k, g. unfold moved_if. rewrite A2. eauto.
Qed.

Lemma check_game_over_layout g t :
  layout (with_turn_count (check_game_over g) t) = layout g.
Proof.
  unfold check_game_over.
  destruct (negb (player1_alive g) && negb (player2_alive g));
    [|destruct (negb (player1_alive g)); [|destruct (negb (player2_alive g))]];
    match goal with
    | |- context [turn_count ?s >=? 200] => destruct (turn_count s >=? 200)
    end; reflexivity.
Qed.

Lemma check_game_over_outcome_ok g :
  game_over g = false -> winner g = None -> 0 <= turn_count g <= 200 ->
  outcome_ok (with_turn_count (check_game_over g) (turn_count (check_game_over g) + 1)).
Proof.
  intros Hover Hwin Hturn. unfold check_game_over, outcome_ok.
  destruct (player1_alive g) eqn:A1, (player2_alive g) eqn:A2; cbn [negb andb];
    cbn [turn_count with_outcome];
    rewrite Z.geb_leb; destruct (Z.leb_spec 200 (turn_count g));
    cbn [turn_count game_over winner with_turn_count with_outcome player1_alive
         player2_alive player1_id player2_id];
    rewrite ?A1, ?A2, ?Hover, ?Hwin.
  all: split; [lia|].
  all: split; [intros Hrun; try discriminate Hrun; repeat split; auto; lia|].
  all: intros Hend; try discriminate Hend.
  all: split; [lia|].
  all: split; [intros B1 B2; try discriminate B1; try discriminate B2; lia|].
  all: try (left; reflexivity).
  all: try (right; left; repeat split; reflexivity).
  all: try (right; right; repeat split; reflexivity).
Qed.

Lemma moved_if_frame alive o k g pid g1 k1 :
  moved_if alive o k g pid g1 k1 ->
  turn_count g1 = turn_count g /\ game_over g1 = game_over g /\ winner g1 = winner g.
Proof.
  unfold moved_if. destruct alive.
  - intros [r H]. eapply move_player_snake_frame. exact H.
  - intros [-> _]. auto.
Qed.

Lemma moved_if_cells alive o k g pid g1 k1 :
  cells_on_board g -> grown P1 g -> grown P2 g ->
  moved_if alive o k g pid g1 k1 ->
  cells_on_board g1 /\ grown P1 g1 /\ grown P2 g1.
Proof.
  unfold moved_if. intros Hon G1 G2. destruct alive.
  - intros [r H]. eapply move_player_snake_cells; eassumption.
  - intros [-> _]. auto.
Qed.

Lemma moved_if_tidy alive o k g pid g1 k1 :
  tidy g -> moved_if alive o k g pid g1 k1 -> tidy g1.
Proof.
  unfold moved_if. intros Htidy. destruct alive.
  - intros [r H]. eapply move_player_snake_tidy; eassumption.
  - intros [-> _]. auto.
Qed.

Lemma update_game_state_invariant o k g r g' k' :
  invariant g -> update_game_state o k g = Some (r, g', k') -> invariant g'.
Proof.
  intros Hinv H.
  destruct (game_over g) eqn:Hover.
  { unfold update_game_state in H. rewrite Hover in H. injection H as _ <- _.
    exact Hinv. }
  destruct (update_game_state_steps _ _ _ _ _ _ Hover H)
    as (g1 & k1 & g2 & M1 & M2 & ->).
  destruct Hinv as (Hon & G1 & G2 & Ht & Hrun & _).
  destruct (Hrun Hover) as (_ & _ & Hwin & Hcap).
  destruct (moved_if_frame _ _ _ _ _ _ _ M1) as (T1 & O1 & W1).
  destruct (moved_if_frame _ _ _ _ _ _ _ M2) as (T2 & O2 & W2).
  destruct (moved_if_cells _ _ _ _ _ _ _ Hon G1 G2 M1) as (Hon1 & G11 & G21).
  destruct (moved_if_cells _ _ _ _ _ _ _ Hon1 G11 G21 M2) as (Hon2 & G12 & G22).
  pose proof (check_game_over_layout g2 (turn_count (check_game_over g2) + 1)) as Hlay.
  split; [|split; [|split]].
  - eapply layout_cells_on_board; eassumption.
  - eapply layout_grown; eassumption.
  - eapply layout_grown; eassumption.
  - apply check_game_over_outcome_ok; [congruence|congruence|lia].
Qed.

Lemma update_game_state_tidy o k g r g' k' :
  tidy g -> update_game_state o k g = Some (r, g', k') -> tidy g'.
Proof.
  intros Htidy H.
  destruct (game_over g) eqn:Hover.
  { unfold update_game_state in H. rewrite Hover in H. injection H as _ <- _.
    exact Htidy. }
  destruct (update_game_state_steps _ _ _ _ _ _ Hover H)
    as (g1 & k1 & g2 & M1 & M2 & ->).
  eapply layout_tidy; [apply check_game_over_layout|].
  eapply moved_if_tidy; [|exact M2]. eapply moved_if_tidy; [|exact M1]. exact Htidy.
Qed.

Lemma same_but_headings_invariant g g' :
  same_but_headings g g' -> invariant g -> invariant g'.
Proof.
  intros (_ & Hlay & A1 & A2 & Ht & Ho & Hw) (Hon & G1 & G2 & Hout).
  split; [|split; [|split]];
    eauto using layout_cells_on_board, layout_grown.
  unfold outcome_ok, by_score in *. unfold layout in Hlay.
  injection Hlay as _ _ _ -> -> -> ->. rewrite A1, A2, Ht, Ho, Hw. exact Hout.
Qed.

Lemma same_but_headings_tidy g g' : same_but_headings g g' -> tidy g -> tidy g'.
Proof. intros (_ & Hlay & _). apply layout_tidy. exact Hlay. Qed.

Lemma same_but_headings_refl g : same_but_headings g g.
Proof. repeat split. Qed.

Lemma set_direction_same w g d : same_but_headings g (set_direction w g d).
Proof. destruct w; repeat split. Qed.

Lemma move_snake_same g pid d : same_but_headings g (move_snake g pid d).2.
Proof.
  unfold move_snake.
  destruct (game_over g); [apply same_but_headings_refl|].
  destruct (who g pid) as [[|]|]; [| |apply same_but_headings_refl].
  - destruct (negb (player1_alive g)); [apply same_but_headings_refl|].
    destruct (is_reverse d (player1_direction g)); [apply same_but_headings_refl|].
    apply (set_direction_same P1).
  - destruct (negb (player2_alive g)); [apply same_but_headings_refl|].
    destruct (is_reverse d (player2_direction g)); [apply same_but_headings_refl|].
    apply (set_direction_same P2).
Qed.

Lemma try_directions_same w g head directions :
  same_but_headings g (try_directions w g head directions).2.
Proof.
  induction directions as [|d rest IH]; simpl; [apply same_but_headings_refl|].
  destruct (is_reverse d (direction_of w g)); [exact IH|].
  destruct (new_head_of d head) as [test_head|]; [|exact IH].
  destruct (is_safe w g test_head); [apply set_direction_same|exact IH].
Qed.

Lemma auto_move_same g pid r g' :
  auto_move g pid = Some (r, g') -> same_but_headings g g'.
Proof.
  unfold auto_move. intros H.
  destruct (who g pid) as [w|];
    [|injection H as _ <-; apply same_but_headings_refl].
  destruct (snake_of w g !! 0%nat) as [head|]; cbn [mbind option_bind] in H;
    [|discriminate].
  destruct (new_head_of (direction_of w g) head) as [h|]; cbn [mbind option_bind] in H;
    [|discriminate].
  destruct (is_safe w g h).
  - injection H as _ <-. apply same_but_headings_refl.
  - pose proof (try_directions_same w g head ["up"; "down"; "left"; "right"]) as Hs.
    destruct (try_directions w g head ["up"; "down"; "left"; "right"]) as [r0 g0].
    injection H as _ <-. exact Hs.
Qed.

Lemma snake_restore_is_read_back o k g g' k' :
  from_json o k (to_json g) = Some (g', k') -> g' = Scenario.read_back g.
Proof.
  intros H. pose proof (snake_restore_snapshot o k g) as Hfst.
  rewrite H in Hfst. simpl in Hfst. congruence.
Qed.

Lemma read_back_invariant g : invariant g -> invariant (Scenario.read_back g).
Proof.
  intros (Hon & G1 & G2 & Hout).
  split; [|split; [|split]].
  - unfold cells_on_board, cells, Scenario.read_back in *.
    cbn [player1_snake player2_snake food_positions].
    rewrite <- !map_app. apply Forall_forall. intros c Hc.
    apply list_elem_of_In, in_map_iff in Hc as (c0 & <- & Hc0).
    apply list_elem_of_In in Hc0.
    pose proof (proj1 (Forall_forall _ _) Hon _ Hc0) as Hb.
    destruct c0; exact Hb.
  - unfold grown in *. cbn [snake_of score_of Scenario.read_back player1_snake
                            player1_score] in *.
    rewrite length_map. exact G1.
  - unfold grown in *. cbn [snake_of score_of Scenario.read_back player2_snake
                            player2_score] in *.
    rewrite length_map. exact G2.
  - exact Hout.
Qed.

Lemma spawn_food_loop_invariant attempts o k g b g' k' :
  invariant g -> spawn_food_loop attempts o k g = (b, g', k') -> invariant g'.
Proof.
  intros Hinv H.
  destruct (spawn_food_loop_spec _ _ _ _ _ _ _ H)
    as (_ & [(_ & -> & _)|(_ & x & y & Hx & Hy & _ & _ & _ & ->)]); [exact Hinv|].
  destruct Hinv as (Hon & G1 & G2 & Hout).
  split; [|split; [|split]]; [|exact G1|exact G2|exact Hout].
  apply cells_on_board_parts in Hon as (B1 & B2 & B3).
  apply cells_on_board_parts. cbn [with_food player1_snake player2_snake food_positions].
  split; [exact B1|]. split; [exact B2|].
  apply Forall_app. split; [exact B3|].
  constructor; [|constructor].
  unfold on_board, board_width, board_height in *. simpl. lia.
Qed.

Lemma spawn_food_loop_tidy attempts o k g b g' k' :
  tidy g -> spawn_food_loop attempts o k g = (b, g', k') -> tidy g'.
Proof.
  intros Htidy H.
  destruct (spawn_food_loop_spec _ _ _ _ _ _ _ H)
    as (_ & [(_ & -> & _)|(_ & x & y & _ & _ & X1 & X2 & X3 & ->)]); [exact Htidy|].
  destruct Htidy as [Htup Hnd].
  apply tuple_cells_parts in Htup as (T1 & T2 & T3).
  apply NoDup_cells_parts in Hnd as (N1 & N2 & N3 & D12 & D13 & D23).
  unfold tidy. rewrite tuple_cells_parts, NoDup_cells_parts.
  cbn [with_food player1_snake player2_snake food_positions].
  assert (Hnew : forall c, c ∈ food_positions g ++ [Tup x y] ->
                           c ∈ food_positions g \/ c = Tup x y).
  { intros c Hc. apply elem_of_app in Hc as [Hc|Hc]; [auto|].
    apply list_elem_of_singleton in Hc. auto. }
  split; [|split; [exact N1|split; [exact N2|split; [|split; [exact D12|split]]]]].
  - split; [exact T1|]. split; [exact T2|].
    apply Forall_app. split; [exact T3|]. constructor; [exact I|constructor].
  - apply NoDup_app. split; [exact N3|]. split; [|constructor; [apply not_elem_of_nil|constructor]].
    intros c Hc Hc'. apply list_elem_of_singleton in Hc'. subst c. auto.
  - intros c Hc Hc'. apply Hnew in Hc' as [Hc'| ->]; [exact (D13 c Hc Hc')|auto].
  - intros c Hc Hc'. apply Hnew in Hc' as [Hc'| ->]; [exact (D23 c Hc Hc')|auto].
Qed.

Lemma snake_init_invariant o k sid p1 p2 : invariant (init o k sid p1 p2).1.
Proof.
  unfold init.
  destruct (spawn_food o k _) as [[b1 g1] k1] eqn:H1.
  destruct (spawn_food o k1 g1) as [[b2 g2] k2] eqn:H2.
  cbn [fst]. unfold spawn_food in H1, H2.
  eapply spawn_food_loop_invariant; [|exact H2].
  eapply spawn_food_loop_invariant; [|exact H1].
  split; [|split; [|split]].
  - unfold cells_on_board, cells. cbn [player1_snake player2_snake food_positions app].
    repeat (constructor; [unfold on_board, board_width, board_height; simpl; lia|]).
    constructor.
  - split; [simpl; lia|reflexivity].
  - split; [simpl; lia|reflexivity].
  - unfold outcome_ok. cbn [turn_count game_over winner player1_alive player2_alive].
    split; [lia|]. split; [intros _; repeat split; lia|discriminate].
Qed.

Lemma snake_init_tidy o k sid p1 p2 : tidy (init o k sid p1 p2).1.
Proof.
  unfold init.
  destruct (spawn_food o k _) as [[b1 g1] k1] eqn:H1.
  destruct (spawn_food o k1 g1) as [[b2 g2] k2] eqn:H2.
  cbn [fst]. unfold spawn_food in H1, H2.
  eapply spawn_food_loop_tidy; [|exact H2].
  eapply spawn_food_loop_tidy; [|exact H1].
  unfold tidy, cells. cbn [player1_snake player2_snake food_positions app]. split.
  - repeat (constructor; [exact I|]). constructor.
  - repeat (constructor;
            [rewrite ?elem_of_cons, elem_of_nil; intros Hin;
             repeat (destruct Hin as [Hin|Hin]; [discriminate Hin|]); exact Hin|]).
    constructor.
Qed.

Lemma snake_reachable_invariant g : reachable g -> invariant g.
Proof.
  induction 1 as [o k sid p1 p2
                 |g pid d _ IH
                 |o k g r g' k' _ IH Htick
                 |g pid r g' _ IH Hauto
                 |o k g g' k' _ IH Hrestore].
  - apply snake_init_invariant.
  - eapply same_but_headings_invariant; [apply move_snake_same|exact IH].
  - eapply update_game_state_invariant; eassumption.
  - eapply same_but_headings_invariant; [eapply auto_move_same; exact Hauto|exact IH].
  - rewrite (snake_restore_is_read_back _ _ _ _ _ Hrestore).
    apply read_back_invariant. exact IH.
Qed.

Lemma played_reachable g : played g -> reachable g.
Proof.
  induction 1; [apply reach_init|apply reach_move_snake; assumption
               |eapply reach_update_game_state; eassumption
               |eapply reach_auto_move; eassumption].
Qed.

Lemma played_tidy g : played g -> tidy g.
Proof.
  induction 1 as [o k sid p1 p2
                 |g pid d _ IH
                 |o k g r g' k' _ IH Htick
                 |g pid r g' _ IH Hauto].
  - apply snake_init_tidy.
  - eapply same_but_headings_tidy; [apply move_snake_same|exact IH].
  - eapply update_game_state_tidy; eassumption.
  - eapply same_but_headings_tidy; [eapply auto_move_same; exact Hauto|exact IH].
Qed.

Lemma tuples_apart (l : list Cell) :
  Forall is_tuple l -> NoDup l -> NoDup (map coords l).
Proof.
  induction 1 as [|c rest Hc Hrest IH]; intros Hnd; simpl; [constructor|].
  apply NoDup_cons in Hnd as [Hnotin Hnd].
  constructor; [|apply IH; exact Hnd].
  intros Hin. apply Hnotin.
  apply list_elem_of_In, in_map_iff in Hin as (c' & Heq & Hin').
  apply list_elem_of_In in Hin'.
  pose proof (proj1 (Forall_forall _ _) Hrest _ Hin') as Hc'.
  destruct c, c'; try contradiction. simpl in Heq. injection Heq as -> ->. exact Hin'.
Qed.

(** *** No tick raises *)

Lemma move_player_snake_total o k g pid :
  snake_of P1 g <> [] -> snake_of P2 g <> [] ->
  exists r g1 k1, move_player_snake o k g pid = Some (r, g1, k1).
Proof.
  intros H1 H2. unfold move_player_snake.
  destruct (who g pid) as [w|]; [|eauto].
  assert (Hne : snake_of w g <> []) by (destruct w; assumption).
  destruct (snake_of w g) as [|head rest] eqn:Hsnake; [contradiction|].
  cbn [lookup list_lookup mbind option_bind].
  destruct (new_head_of (direction_of w g) head) as [h|]; [|eauto].
  destruct (negb (is_valid_position (coords h).1 (coords h).2)); [eauto|].
  destruct (py_in h (head :: rest)); [eauto|].
  destruct (py_in h (other_snake_of w g)); [eauto|].
  destruct (py_in h _); [|eauto].
  destruct (spawn_food o k _) as [[b g4] k4]. eauto.
Qed.

Lemma grown_nonempty w g : grown w g -> snake_of w g <> [].
Proof. intros [Hlen _] Hnil. rewrite Hnil in Hlen. simpl in Hlen. lia. Qed.

Lemma update_game_state_total o k g :
  invariant g -> exists r g' k', update_game_state o k g = Some (r, g', k').
Proof.
  intros (Hon & G1 & G2 & _). unfold update_game_state.
  destruct (game_over g); [eauto|].
  assert (Hfirst : exists m1 g1 k1,
             (if player1_alive g
              then '(result1, g0, k0) ← move_player_snake o k g (player1_id g);
                   Some (Some (message result1), g0, k0)
              else Some (None, g, k)) = Some (m1, g1, k1)
             /\ grown P1 g1 /\ grown P2 g1).
  { destruct (player1_alive g); [|eauto 6].
    destruct (move_player_snake_total o k g (player1_id g)
                (grown_nonempty _ _ G1) (grown_nonempty _ _ G2))
      as (r1 & g1 & k1 & Hm).
    rewrite Hm. cbn [mbind option_bind].
    destruct (move_player_snake_cells _ _ _ _ _ _ _ Hon G1 G2 Hm) as (_ & ? & ?).
    eauto 6. }
  destruct Hfirst as (m1 & g1 & k1 & -> & G11 & G21). cbn [mbind option_bind].
  destruct (player2_alive g1); cbn [mbind option_bind]; [|eauto].
  destruct (move_player_snake_total o k1 g1 (player2_id g1)
              (grown_nonempty _ _ G11) (grown_nonempty _ _ G21))
    as (r2 & g2 & k2 & ->).
  cbn [mbind option_bind]. eauto.
Qed.

(** *** [auto_move] *)



(** *** Sample matches *)

Lemma snake_ticks_played n : forall o k g g' k',
  played g -> Scenario.snake_ticks n o k g = Some (g', k') -> played g'.
Proof.
  induction n as [|n IH]; intros o k g g' k' Hg H; simpl in H.
  - injection H as <- _. exact Hg.
  - destruct (update_game_state o k g) as [[[r g1] k1]|] eqn:Htick;
      cbn [mbind option_bind] in H; [|discriminate].
    eapply IH; [|exact H]. eapply played_update_game_state; eassumption.
Qed.

Lemma after_meal_played : played after_meal.
Proof.
  eapply (snake_ticks_played 1 Scenario.snake_fed_draws 4 Scenario.snake_fed _ 6).
  - apply played_init.
  - vm_compute. reflexivity.
Qed.

Lemma snake_finished_played : played Scenario.snake_finished.
Proof.
  eapply (snake_ticks_played 8 Scenario.snake_fresh_draws 4
            (move_snake Scenario.snake_fresh 1 "up").2 _ 4).
  - apply played_move_snake. apply played_init.
  - vm_compute. reflexivity.
Qed.

Lemma snake_one_tick_restored_reachable : reachable Scenario.snake_one_tick_restored.
Proof.
  eapply (reach_restore (Scenario.always 0) 0 Scenario.snake_one_tick _ 102).
  - apply played_reachable.
    eapply (snake_ticks_played 1 Scenario.snake_fresh_draws 4 Scenario.snake_fresh _ 4).
    + apply played_init.
    + vm_compute. reflexivity.
  - vm_compute. reflexivity.
Qed.

(** *** The properties *)

(** X20. In every state a Snake match can reach (fresh from the
    constructor, then changed by [move_snake], [update_game_state] and
    [auto_move], or read back from its own snapshot) every cell of either
    snake and every food item lies on the 15 x 15 board. *)
Theorem snake_cells_stay_on_board g : reachable g -> cells_on_board g.
Proof. intros Hg. apply snake_reachable_invariant in Hg. apply Hg. Qed.

Lemma snake_cells_stay_on_board_witness : cells_on_board Scenario.snake_one_tick_restored.
Proof.
  apply (snake_cells_stay_on_board Scenario.snake_one_tick_restored).
  apply snake_one_tick_restored_reachable.
Defined.

(** X21. In every reachable state a snake has at least its three starting
    cells, and its owner's score is ten times the number of cells it has
    grown by: no snake ever shrinks or empties, and points come from eating
    only. *)
Theorem snake_score_counts_growth g w : reachable g -> grown w g.
Proof.
  intros Hg. apply snake_reachable_invariant in Hg.
  destruct Hg as (_ & G1 & G2 & _). destruct w; assumption.
Qed.

Lemma snake_score_counts_growth_witness : grown P1 after_meal.
Proof.
  apply (snake_score_counts_growth after_meal P1).
  apply played_reachable, after_meal_played.
Defined.

(** X22. On a reachable match a tick never raises: [update_game_state]
    returns a result whatever the generator gives and whatever headings
    are stored; in particular [snake[0]] always finds a head. *)
Theorem snake_tick_never_raises o k g :
  reachable g -> exists r g' k', update_game_state o k g = Some (r, g', k').
Proof.
  intros Hg. apply update_game_state_total, snake_reachable_invariant, Hg.
Qed.

Lemma snake_tick_never_raises_witness :
  exists r g' k',
    update_game_state (Scenario.always 3) 0 Scenario.snake_one_tick_restored
    = Some (r, g', k').
Proof.
  apply (snake_tick_never_raises (Scenario.always 3) 0 Scenario.snake_one_tick_restored).
  apply snake_one_tick_restored_reachable.
Defined.

(** X23. In every reachable state the turn counter is at least 0. A match
    that is running has both snakes alive, no winner and at most 200 turns
    counted. A match that is over has at most 201 turns counted, exactly
    201 if both snakes are still alive, and its winner is either the one
    the scores give (the higher score, nobody on equal scores) or the only
    snake alive. *)
Theorem snake_outcome_follows_rules g : reachable g -> outcome_ok g.
Proof. intros Hg. apply snake_reachable_invariant in Hg. apply Hg. Qed.

Lemma snake_outcome_follows_rules_witness : outcome_ok Scenario.snake_finished.
Proof.
  apply (snake_outcome_follows_rules Scenario.snake_finished).
  apply played_reachable, snake_finished_played.
Defined.

(** X24. In a match that has stayed in memory (never read back from a
    snapshot) no two items of the board share a cell: the cells of the two
    snakes and the food items are pairwise at different coordinates. No
    snake overlaps itself or the other, and no food lies under a snake. *)
Theorem snake_items_never_overlap g : played g -> apart g.
Proof.
  intros Hg. apply played_tidy in Hg as [Htup Hnd].
  apply tuples_apart; assumption.
Qed.

Lemma snake_items_never_overlap_witness : apart after_meal.
Proof.
  apply (snake_items_never_overlap after_meal).
  apply after_meal_played.
Defined.





(** X26. [move_snake] checks a request only against the reverse of the
    stored heading, so a living player of a running match can store any
    string that is not one of the four headings. With such a heading
    stored, a move of that snake is refused as "Invalid direction" and
    leaves the match as it was (the snake stands still, tick after tick),
    and [auto_move] for that player raises instead of returning. *)
Theorem snake_unknown_heading_freezes o k g pid w d :
  game_over g = false ->
  who g pid = Some w ->
  Scenario.alive_of w g = true ->
  snake_of w g <> [] ->
  ~ heading d ->
  let g' := (move_snake g pid d).2 in
  (move_snake g pid d).1 = mkResult true (DirectionChanged d)
  /\ g' = set_direction w g d
  /\ move_player_snake o k g' pid = Some (mkResult false InvalidDirection, g', k)
  /\ auto_move g' pid = None.
Proof.
  intros Hover Hwho Halive Hne Hd. cbv zeta.
  assert (Hup : String.eqb d "up" = false).
  { apply String.eqb_neq. intros ->. apply Hd. unfold heading. auto. }
  assert (Hdown : String.eqb d "down" = false).
  { apply String.eqb_neq. intros ->. apply Hd. unfold heading. auto. }
  assert (Hleft : String.eqb d "left" = false).
  { apply String.eqb_neq. intros ->. apply Hd. unfold heading. auto. }
  assert (Hright : String.eqb d "right" = false).
  { apply String.eqb_neq. intros ->. apply Hd. unfold heading. auto. }
  assert (Hrev : forall current, is_reverse d current = false).
  { intros current. unfold is_reverse, opposite_directions.
    repeat (destruct (String.eqb current _); [assumption|]). reflexivity. }
  assert (Hnone : forall head, new_head_of d head = None).
  { intros head. unfold new_head_of. destruct (coords head) as [x y].
    rewrite Hup, Hdown, Hleft, Hright. reflexivity. }
  assert (Hmove : move_snake g pid d
                  = (mkResult true (DirectionChanged d), set_direction w g d)).
  { unfold move_snake. rewrite Hover, Hwho.
    destruct w; cbn [Scenario.alive_of] in Halive; rewrite Halive; cbn [negb];
      rewrite Hrev; reflexivity. }
  rewrite Hmove. cbn [fst snd].
  assert (Hwho' : who (set_direction w g d) pid = Some w) by (destruct w; exact Hwho).
  assert (Hdir : direction_of w (set_direction w g d) = d) by (destruct w; reflexivity).
  assert (Hsnake : snake_of w (set_direction w g d) = snake_of w g)
    by (destruct w; reflexivity).
  destruct (snake_of w g) as [|head rest] eqn:Hbody; [contradiction|].
  split; [reflexivity|]. split; [reflexivity|]. split.
  - unfold move_player_snake. rewrite Hwho', Hsnake, Hdir.
    cbn [lookup list_lookup mbind option_bind]. rewrite Hnone. reflexivity.
  - unfold auto_move. rewrite Hwho', Hsnake, Hdir.
    cbn [lookup list_lookup mbind option_bind]. rewrite Hnone. reflexivity.
Qed.

Lemma snake_unknown_heading_freezes_witness :
  (move_snake Scenario.snake_fresh 2 "sideways").1
  = mkResult true (DirectionChanged "sideways")
  /\ (move_snake Scenario.snake_fresh 2 "sideways").2
     = set_direction P2 Scenario.snake_fresh "sideways"
  /\ move_player_snake Scenario.snake_fresh_draws 4
       (move_snake Scenario.snake_fresh 2 "sideways").2 2
     = Some (mkResult false InvalidDirection,
             (move_snake Scenario.snake_fresh 2 "sideways").2, 4%nat)
  /\ auto_move (move_snake Scenario.snake_fresh 2 "sideways").2 2 = None.
Proof.
  apply (snake_unknown_heading_freezes Scenario.snake_fresh_draws 4 Scenario.snake_fresh
           2 P2 "sideways").
  - reflexivity.
  - reflexivity.
  - reflexivity.
  - vm_compute. discriminate.
  - unfold heading. intros [H|[H|[H|H]]]; discriminate H.
Defined.



(** X28. [from_json] accepts every snapshot [to_json] writes, and the match
    it builds writes the same snapshot again: what is stored does not drift
    however often a match is read back. The items of the board keep their
    coordinates, and the constructor run inside [from_json] has drawn at
    most 200 numbers. *)
Theorem snake_snapshot_stable o k g :
  exists g' k',
    from_json o k (to_json g) = Some (g', k')
    /\ to_json g' = to_json g
    /\ map coords (cells g') = map coords (cells g)
    /\ (k' <= k + 200)%nat.
Proof.
  pose proof (snake_restore_snapshot o k g) as Hfst.
  destruct (from_json o k (to_json g)) as [[g' k']|] eqn:Hfrom; [|discriminate].
  cbn in Hfst. injection Hfst as ->.
  exists (Scenario.read_back g), k'.
  assert (Hcell : forall l, map cell_json (map Scenario.as_list_cell l) = map cell_json l).
  { intros l. rewrite map_map. apply map_ext. intros c. destruct c; reflexivity. }
  assert (Hcoords : forall l, map coords (map Scenario.as_list_cell l) = map coords l).
  { intros l. rewrite map_map. apply map_ext. intros c. destruct c; reflexivity. }
  split; [reflexivity|]. split; [|split].
  - unfold to_json, Scenario.read_back.
    cbn [session_id player1_id player2_id player1_snake player2_snake player1_direction
         player2_direction player1_score player2_score player1_alive player2_alive
         food_positions turn_count game_over winner].
    rewrite !Hcell. reflexivity.
  - unfold cells, Scenario.read_back.
    cbn [player1_snake player2_snake food_positions].
    rewrite !map_app, !Hcoords. reflexivity.
  - unfold from_json in Hfrom.
    cbn [to_json Json.get Json.lookup String.eqb Ascii.eqb Bool.eqb mbind option_bind
         Json.as_str Json.as_int Json.as_bool] in Hfrom.
    destruct (init o k (session_id g) (player1_id g) (player2_id g)) as [game k0] eqn:Hinit.
    assert (Hk0 : (k0 <= k + 200)%nat).
    { unfold init in Hinit.
      destruct (spawn_food o k _) as [[b1 g1] k1] eqn:H1.
      destruct (spawn_food o k1 g1) as [[b2 g2] k2] eqn:H2.
      injection Hinit as _ <-. unfold spawn_food in H1, H2.
      apply spawn_food_loop_spec in H1 as [H1 _]. apply spawn_food_loop_spec in H2 as [H2 _].
      lia. }
    rewrite !as_cells_cell_json, as_opt_int_of_opt_int in Hfrom.
    cbn [mbind option_bind] in Hfrom.
    assert (k0 = k') as <- by congruence. exact Hk0.
Qed.

End SnakeCoverage.

(** ** The text helpers *)

Section UtilsCoverage.

Import Utils.

Lemma replace_char_app char (a b : str) :
  replace_char char (a ++ b) = replace_char char a ++ replace_char char b.
Proof. unfold replace_char. apply flat_map_app. Qed.

Lemma passes_app (chars : list N) : forall a b : str,
  fold_left (fun t char => replace_char char t) chars (a ++ b)
  = fold_left (fun t char => replace_char char t) chars a
    ++ fold_left (fun t char => replace_char char t) chars b.
Proof.
  induction chars as [|char rest IH]; intros a b; simpl; [reflexivity|].
  rewrite replace_char_app. apply IH.
Qed.

Lemma replace_char_absent char (text : str) :
  ~ In char text -> replace_char char text = text.
Proof.
  unfold replace_char. induction text as [|c rest IH]; simpl; intros Hnotin;
    [reflexivity|].
  destruct (N.eqb_spec c char) as [->|_]; [exfalso; auto|].
  simpl. f_equal. apply IH. auto.
Qed.

Lemma passes_absent (chars : list N) : forall text : str,
  (forall c, In c text -> ~ In c chars) ->
  fold_left (fun t char => replace_char char t) chars text = text.
Proof.
  induction chars as [|char rest IH]; intros text Hnone; simpl; [reflexivity|].
  rewrite replace_char_absent.
  - apply IH. intros c Hc Hin. apply (Hnone c Hc). right. exact Hin.
  - intros Hin. apply (Hnone char Hin). left. reflexivity.
Qed.

(** The passes on a one-character text: the character is escaped once if it
    is in the list, and the backslash put in front of it is never
    touched. *)
Lemma passes_single (chars : list N) : forall c,
  List.NoDup chars -> ~ In backslash chars ->
  fold_left (fun t char => replace_char char t) chars [c]
  = if existsb (N.eqb c) chars then [backslash; c] else [c].
Proof.
  induction chars as [|char rest IH]; intros c Hnd Hback; [reflexivity|].
  apply List.NoDup_cons_iff in Hnd as [Hnotin Hnd].
  cbn [fold_left existsb].
  change (replace_char char [c])
    with ((if N.eqb c char then [backslash; c] else [c]) ++ []).
  rewrite app_nil_r.
  destruct (N.eqb_spec c char) as [->|Hne]; cbn [orb].
  - apply passes_absent. intros c [<-|[<-|[]]] Hin; [|exact (Hnotin Hin)].
    apply Hback. right. exact Hin.
  - apply IH; [exact Hnd|]. intros Hin. apply Hback. right. exact Hin.
Qed.

Lemma special_chars_distinct : List.NoDup special_chars /\ ~ In backslash special_chars.
Proof.
  split.
  - vm_compute.
    repeat (constructor;
            [simpl; intros Hin;
             repeat (destruct Hin as [Hin|Hin]; [discriminate Hin|]); exact Hin|]).
    constructor.
  - vm_compute. intros Hin.
    repeat (destruct Hin as [Hin|Hin]; [discriminate Hin|]). exact Hin.
Qed.

(** X29. The eighteen [replace] passes of [escape_markdown] amount to one
    pass over the text that puts a single backslash in front of every
    special character and leaves every other character (a backslash
    included) alone: no character is escaped twice, and no backslash that a
    pass has put in is escaped by a later one. The result is longer than
    the text by the number of its special characters. *)
Theorem escape_markdown_one_pass (text : str) :
  escape_markdown text = escaped text
  /\ length (escape_markdown text)
     = (length text + length (List.filter is_special text))%nat.
Proof.
  assert (Hone : escape_markdown text = escaped text).
  { unfold escape_markdown, escaped.
    induction text as [|c rest IH]; [reflexivity|].
    change (c :: rest) with ([c] ++ rest).
    rewrite passes_app, IH, flat_map_app. f_equal.
    destruct special_chars_distinct as [Hnd Hback].
    rewrite (passes_single special_chars c Hnd Hback).
    cbn [flat_map]. rewrite app_nil_r. reflexivity. }
  split; [exact Hone|]. rewrite Hone. clear Hone. unfold escaped.
  induction text as [|c rest IH]; [reflexivity|].
  cbn [flat_map List.filter]. rewrite length_app, IH.
  destruct (is_special c); cbn [length]; lia.
Qed.

(** X30. With a limit of at least 3, [truncate_text] returns at most
    [max_length] characters: the text itself if it fits, otherwise its
    first [max_length - 3] characters followed by three dots. With a limit
    of 0, 1 or 2 the slice bound [max_length - 3] is negative and counts
    from the end: a longer text of at least three characters loses only
    [3 - max_length] characters before the dots are added, and comes back
    [max_length] characters longer than it was. *)
Theorem truncate_text_length (text : str) (max_length : Z) :
  (3 <= max_length ->
   Z.of_nat (length (truncate_text text max_length)) <= max_length
   /\ (Z.of_nat (length text) <= max_length -> truncate_text text max_length = text)
   /\ (max_length < Z.of_nat (length text) ->
       truncate_text text max_length
       = take (Z.to_nat (max_length - 3)) text ++ lit "..."))
  /\ (0 <= max_length < 3 -> max_length < Z.of_nat (length text) ->
      3 <= Z.of_nat (length text) ->
      truncate_text text max_length
      = take (length text - Z.to_nat (3 - max_length)) text ++ lit "..."
      /\ Z.of_nat (length (truncate_text text max_length))
         = Z.of_nat (length text) + max_length).
Proof.
  unfold truncate_text, slice_to. split.
  - intros Hmax.
    destruct (Z.leb_spec (Z.of_nat (length text)) max_length) as [Hfits|Hlong].
    + split; [exact Hfits|]. split; [reflexivity|lia].
    + destruct (Z.ltb_spec (max_length - 3) 0) as [Hneg|_]; [lia|].
      split; [|split; [lia|reflexivity]].
      rewrite length_app, length_take. simpl. lia.
  - intros Hmax Hlong Hthree.
    destruct (Z.leb_spec (Z.of_nat (length text)) max_length) as [Hfits|_]; [lia|].
    destruct (Z.ltb_spec (max_length - 3) 0) as [_|Hpos]; [|lia].
    replace (Z.to_nat (Z.of_nat (length text) + (max_length - 3)))
      with (length text - Z.to_nat (3 - max_length))%nat by lia.
    split; [reflexivity|].
    rewrite length_app, length_take. simpl. lia.
Qed.

End UtilsCoverage.
